(** * TTL + LRU cache with persistence: the three cache engines of the repository

    The repository holds three generations of one cache:
    - [CacheSystem]  (v1, kept in React state: [setCacheValue], [getCacheValue]),
    - [TTLCache]     (v2, a class with [lastAccessAt] stamps and a sorted [getAll]),
    - [TTLLRUCache]  (v3, a class whose recency order is the insertion order of
      a JavaScript [Map]).

    Each engine is embedded as functions over an explicit state.

    - A JavaScript [Map] is an association list in insertion order with unique
      keys ([JSMap]).
    - Numbers are integers ([Z]); [ttlMs?: number] is an [option Z].
    - Every reading of [Date.now()] that steers an operation is an argument of
      the operation, in the order the code takes the readings; a clock that
      does not run backwards is the hypothesis [t_sweep ≤ now] where a
      statement needs it.  The [timestamp] of a log entry, a further reading
      that nothing reads back, is left out of the entry.
    - An engine state carries its [Map], its configuration, the log entries it
      has handed to its callback (oldest first) and the browser it runs in.
    - [localStorage] and [JSON] are the platform.  They are taken through two
      interfaces with the laws the code relies on: after a [setItem] that
      returns, [getItem] gives the text back; [JSON.parse] of
      [JSON.stringify] of a snapshot is that snapshot, and that text is not
      empty.  A stored text is either rejected by [JSON.parse] or parses to
      the elements the load loop then meets: [[key, entry]] pairs, and
      elements the loop throws on.  [Demo] is an instance, used to run the
      engines on concrete inputs.

    The first part holds the definitions, the second the facts about them and
    the statements about the engines. *)

From stdpp Require Import base decidable option list sorting strings countable pretty gmap.
From Stdlib Require Import ZArith Lia Ascii.

Local Open Scope Z_scope.


(** ** Text helpers *)

(** The double quote character, as template literals of the source print it. *)
Definition dq : string := String (Ascii.ascii_of_nat 34) EmptyString.

Definition quoted (s : string) : string := dq +:+ s +:+ dq.

(** ** JavaScript [Map] with string keys

    Iteration follows insertion order; [set] on a resident key replaces the
    value where it stands; [delete] reports whether the key was there. *)
Module JSMap.

Section ops.
Context {V : Type}.

Fixpoint get (key : string) (m : list (string * V)) : option V :=
  match m with
  | [] => None
  | (k, v) :: m' => if decide (k = key) then Some v else get key m'
  end.

Definition has (key : string) (m : list (string * V)) : bool :=
  match get key m with Some _ => true | None => false end.

Definition delete (key : string) (m : list (string * V)) : list (string * V) :=
  filter (λ kv, kv.1 ≠ key) m.

Fixpoint set (key : string) (v : V) (m : list (string * V)) : list (string * V) :=
  match m with
  | [] => [(key, v)]
  | (k, x) :: m' =>
      if decide (k = key) then (k, v) :: m' else (k, x) :: set key v m'
  end.

Definition size (m : list (string * V)) : Z := Z.of_nat (length m).

Definition keys (m : list (string * V)) : list string := m.*1.

(** Keys are unique in a [Map]. *)
Definition wf (m : list (string * V)) : Prop := NoDup (keys m).

(** [for (const [key, entry] of data) map.set(key, entry)] *)
Definition set_all (m data : list (string * V)) : list (string * V) :=
  foldl (λ m kv, set kv.1 kv.2 m) m data.

End ops.

End JSMap.

(** ** The platform: exceptions, [localStorage], [JSON] *)

(** A platform call either returns or throws; [error] is the text that
    a template literal prints for the thrown value. *)
Inductive outcome (A : Type) : Type :=
| Returns (a : A)
| Throws (error : string).
Arguments Returns {A} a.
Arguments Throws {A} error.

(** Calls the engines make on [localStorage], in the order they are made. *)
Inductive StorageCall : Type :=
| GetItem (key : string)
| SetItem (key value : string).

Class LocalStorage : Type := {
  Storage : Type;
  getItem : Storage → string → option string;
  setItem : Storage → string → string → outcome Storage;
  getItem_setItem : ∀ s k v s', setItem s k v = Returns s' → getItem s' k = Some v;
}.

(** What [JSON.parse] returns, seen through the cast
    [as Array<[string, CacheEntry]>] that the engines apply to it unchecked:
    the elements their load loop meets, in order.  An element is a
    [[key, entry]] pair, or one on which the loop body throws ([const [key,
    entry]] of an element that is not iterable, [entry.expiresAt] of [null] or
    [undefined]), with the text of what is thrown.  A parsed value that is not
    iterable at all makes the [for ... of] throw before a first element, as
    the list [[Unreadable error]] does.  An element that passes the loop
    without a throw though it is no entry of the engine's type (a key that is
    no string, an entry without a [value], an entry that is a number) is
    counted as expired or put into the [Map] as it is; the engines' types have
    no place for such a value, and neither has [Item]. *)
Inductive Item (Entry : Type) : Type :=
| Pair (kv : string * Entry)
| Unreadable (error : string).
Arguments Pair {Entry} kv.
Arguments Unreadable {Entry} error.

(** The pairs a loop over [data] meets before it throws, and what is thrown. *)
Fixpoint readable {Entry : Type} (data : list (Item Entry)) : list (string * Entry) :=
  match data with
  | Pair kv :: rest => kv :: readable rest
  | _ => []
  end.

Fixpoint fault {Entry : Type} (data : list (Item Entry)) : option string :=
  match data with
  | [] => None
  | Pair _ :: rest => fault rest
  | Unreadable error :: _ => Some error
  end.

Class JSON (Entry : Type) : Type := {
  JSON_stringify : list (string * Entry) → string;
  JSON_parse : string → outcome (list (Item Entry));
  JSON_parse_stringify : ∀ data, JSON_parse (JSON_stringify data) = Returns (Pair <$> data);
  JSON_stringify_truthy : ∀ data, JSON_stringify data ≠ EmptyString;
}.

(** The browser as the engines see it: the store and the calls made on it. *)
Record Browser `{LocalStorage} : Type := mkBrowser {
  localStorage : Storage;
  calls : list StorageCall;
}.
Arguments mkBrowser {_} _ _.

(** [interface CacheConfig], the same in v2 and v3. *)
Record CacheConfig : Type := mkConfig {
  maxSize : Z;
  defaultTTLms : Z;
  storageKey : string;
}.

(** ** v3: [class TTLLRUCache] *)
Module TTLLRUCache.

Record CacheEntry : Type := mkEntry {
  value : string;
  expiresAt : Z;
}.

Inductive LogType : Type :=
| HIT | MISS | EXPIRED | EVICTED | SAVED | LOADED | PARSE_ERROR | SET | DELETE | CLEAR.

(** [LogEntry] without its [timestamp], a fresh clock reading that nothing
    reads back. *)
Record LogEntry : Type := mkLog {
  type : LogType;
  message : string;
}.

Section engine.
Context `{LocalStorage} `{JSON CacheEntry}.

(** The object: its private fields, the entries handed to [onLog] so far
    (oldest first) and the browser it runs in. *)
Record t : Type := mkEngine {
  cache : list (string * CacheEntry);
  config : CacheConfig;
  onLog : list LogEntry;
  browser : Browser;
}.

Definition with_cache (c : list (string * CacheEntry)) (st : t) : t :=
  mkEngine c (config st) (onLog st) (browser st).

Definition with_browser (b : Browser) (st : t) : t :=
  mkEngine (cache st) (config st) (onLog st) b.

Definition log (ty : LogType) (msg : string) (st : t) : t :=
  mkEngine (cache st) (config st) (onLog st ++ [mkLog ty msg]) (browser st).

Definition isExpired (now : Z) (entry : CacheEntry) : Prop := now >= expiresAt entry.

#[global] Instance isExpired_dec now entry : Decision (isExpired now entry).
Proof. unfold isExpired. apply _. Defined.

Definition toDelete (now : Z) (c : list (string * CacheEntry)) : list string :=
  (filter (λ kv, isExpired now kv.2) c).*1.

Definition cleanupExpired (now : Z) (st : t) : t :=
  foldl (λ st key,
           log EXPIRED ("Key " +:+ quoted key +:+ " expired and removed")
               (with_cache (JSMap.delete key (cache st)) st))
        st (toDelete now (cache st)).

Definition saveToStorage (st : t) : t :=
  let data := cache st in
  let json := JSON_stringify data in
  let key := storageKey (config st) in
  let made := calls (browser st) ++ [SetItem key json] in
  match setItem (localStorage (browser st)) key json with
  | Returns s' =>
      log SAVED ("Persisted " +:+ pretty (length data) +:+ " entries to localStorage")
          (with_browser (mkBrowser s' made) st)
  | Throws error =>
      log PARSE_ERROR ("Failed to save: " +:+ error)
          (with_browser (mkBrowser (localStorage (browser st)) made) st)
  end.

(** The body of the loop of [loadFromStorage]: the cache and the two
    counters. *)
Definition load_step (now : Z) (acc : list (string * CacheEntry) * nat * nat)
    (item : string * CacheEntry) : list (string * CacheEntry) * nat * nat :=
  let '(c, loaded, expired) := acc in
  if decide (now < expiresAt item.2)
  then (JSMap.set item.1 item.2 c, S loaded, expired)
  else (c, loaded, S expired).

(** The loop itself: it ends with the data, or at the first element it
    throws on, with what it has done so far. *)
Fixpoint load_loop (now : Z) (data : list (Item CacheEntry))
    (acc : list (string * CacheEntry) * nat * nat)
    : list (string * CacheEntry) * nat * nat * option string :=
  match data with
  | [] => (acc, None)
  | Pair item :: rest => load_loop now rest (load_step now acc item)
  | Unreadable error :: _ => (acc, Some error)
  end.

Definition loadFromStorage (now : Z) (st : t) : t :=
  let key := storageKey (config st) in
  let st := with_browser (mkBrowser (localStorage (browser st))
                                    (calls (browser st) ++ [GetItem key])) st in
  match getItem (localStorage (browser st)) key with
  | None => st
  | Some json =>
      if decide (json = EmptyString) then st
      else match JSON_parse json with
           | Throws error => log PARSE_ERROR ("Failed to parse localStorage: " +:+ error) st
           | Returns data =>
               match load_loop now data (cache st, 0%nat, 0%nat) with
               | (c, loaded, expired, None) =>
                   log LOADED ("Loaded " +:+ pretty loaded +:+ " entries from localStorage ("
                                 +:+ pretty expired +:+ " expired)")
                       (with_cache c st)
               | (c, _, _, Some error) =>
                   log PARSE_ERROR ("Failed to parse localStorage: " +:+ error)
                       (with_cache c st)
               end
           end
  end.

(** [constructor]: [now] is the reading [loadFromStorage] takes. *)
Definition new (now : Z) (cfg : CacheConfig) (b : Browser) : t :=
  loadFromStorage now (mkEngine [] cfg [] b).

(** [get]: [t_sweep] is read by [cleanupExpired], [now] after the lookup. *)
Definition get (t_sweep now : Z) (key : string) (st : t) : option string * t :=
  let st := cleanupExpired t_sweep st in
  match JSMap.get key (cache st) with
  | None => (None, log MISS ("Cache miss for key " +:+ quoted key) st)
  | Some entry =>
      if decide (isExpired now entry)
      then (None, log EXPIRED ("Key " +:+ quoted key +:+ " expired on access")
                      (with_cache (JSMap.delete key (cache st)) st))
      else (Some (value entry),
            log HIT ("Cache hit for key " +:+ quoted key)
                (with_cache (JSMap.set key entry (JSMap.delete key (cache st))) st))
  end.

(** The eviction branch of [set]: the first key of the [Map], [undefined]
    when the [Map] is empty. *)
Definition evict (st : t) : t :=
  let lruKey := head (JSMap.keys (cache st)) in
  let c := match lruKey with
           | Some k => JSMap.delete k (cache st)
           | None => cache st
           end in
  log EVICTED ("Evicted LRU key " +:+ quoted (default "undefined" lruKey) +:+ " to make room")
      (with_cache c st).

(** [set]: [t_sweep] is read by [cleanupExpired], [now] for [expiresAt]. *)
Definition set (t_sweep now : Z) (key val : string) (ttlMs : option Z) (st : t) : t :=
  let st := cleanupExpired t_sweep st in
  let ttl := default (defaultTTLms (config st)) ttlMs in
  let expiresAt := now + ttl in
  let st := with_cache (JSMap.delete key (cache st)) st in
  let st := if decide (JSMap.size (cache st) >= maxSize (config st)) then evict st else st in
  let st := with_cache (JSMap.set key (mkEntry val expiresAt) (cache st)) st in
  let st := log SET ("Set key " +:+ quoted key +:+ " with TTL " +:+ pretty ttl +:+ "ms") st in
  saveToStorage st.

Definition delete (key : string) (st : t) : bool * t :=
  let deleted := JSMap.has key (cache st) in
  let st := with_cache (JSMap.delete key (cache st)) st in
  if deleted
  then (deleted, saveToStorage (log DELETE ("Deleted key " +:+ quoted key) st))
  else (deleted, st).

Definition clear (st : t) : t :=
  saveToStorage (log CLEAR "Cache cleared" (with_cache [] st)).

Definition getEntries (now : Z) (st : t) : list (string * CacheEntry) * t :=
  let st := cleanupExpired now st in
  (reverse (cache st), st).

Definition getSize (now : Z) (st : t) : Z * t :=
  let st := cleanupExpired now st in
  (JSMap.size (cache st), st).

Definition getKeys (st : t) : list string := reverse (JSMap.keys (cache st)).

Definition has (now : Z) (key : string) (st : t) : bool * t :=
  let st := cleanupExpired now st in
  (JSMap.has key (cache st), st).

(** *** Vocabulary of the statements about v3 *)

(** The event a sweep emits for [key]. *)
Definition expired_event (key : string) : LogEntry :=
  mkLog EXPIRED ("Key " +:+ quoted key +:+ " expired and removed").

(** The live entries without [key]: what [set] holds once it has swept and
    removed the key it is about to write. *)
Definition swept_without (t_sweep : Z) (key : string) (st : t) : list (string * CacheEntry) :=
  JSMap.delete key (filter (λ kv, t_sweep < expiresAt kv.2) (cache st)).

(** What a constructor finds under [storageKey]. *)
Definition stored (cfg : CacheConfig) (b : Browser) : option string :=
  getItem (localStorage b) (storageKey cfg).

End engine.

Arguments t {_}.

End TTLLRUCache.

(** ** [Array.prototype.sort]

    The sort is stable, so for a comparator that orders by a key the result is
    the one arrangement that is sorted and keeps equal elements in their
    original order; insertion from the right computes it.  [cmp a b > 0] puts
    [a] after [b]. *)
Module JSArray.

Section sort.
Context {A : Type} (cmp : A → A → Z).

Fixpoint insert (x : A) (l : list A) : list A :=
  match l with
  | [] => [x]
  | y :: l' => if decide (cmp x y > 0) then y :: insert x l' else x :: y :: l'
  end.

Definition sort (l : list A) : list A := foldr insert [] l.

End sort.

(** The comparator [stamp(b) - stamp(a)], and the order it produces: from
    the newest stamp to the oldest. *)
Definition newest_first {A : Type} (stamp : A → Z) (a b : A) : Z := stamp b - stamp a.

Definition descending {A : Type} (stamp : A → Z) : list A → Prop :=
  StronglySorted (λ a b, stamp b ≤ stamp a).


(** [Array.prototype.slice(start, end)] on integer arguments: a negative
    index counts back from the end, and both ends are clamped to the array;
    an omitted [end] is the length. *)
Definition relative (len i : Z) : Z :=
  if decide (i < 0) then Z.max (len + i) 0 else Z.min i len.

Definition slice {A : Type} (start : Z) (stop : option Z) (l : list A) : list A :=
  let len := Z.of_nat (length l) in
  let k := relative len start in
  let final := match stop with Some e => relative len e | None => len end in
  take (Z.to_nat (final - k)) (drop (Z.to_nat k) l).

End JSArray.

(** JavaScript truthiness of a [string | null]: [null] and the empty string
    are falsy. *)
Definition truthy_key (k : option string) : bool :=
  match k with
  | None => false
  | Some s => bool_decide (s ≠ EmptyString)
  end.

(** JavaScript truthiness of a [number | undefined] or [number | null]. *)
Definition truthy_number (n : option Z) : bool :=
  match n with
  | None => false
  | Some z => bool_decide (z ≠ 0)
  end.

(** ** v2: [class TTLCache] *)
Module TTLCache.

Record CacheEntry : Type := mkEntry {
  value : string;
  expiresAt : Z;
  lastAccessAt : Z;
}.

Inductive LogType : Type :=
| HIT | MISS | EXPIRED | EVICTED | SAVED | LOADED | PARSE_ERROR | SET.

(** [LogEvent] without its [timestamp]. *)
Record LogEvent : Type := mkLog {
  type : LogType;
  message : string;
}.

Section engine.
Context `{LocalStorage} `{JSON CacheEntry}.

Record t : Type := mkEngine {
  cache : list (string * CacheEntry);
  config : CacheConfig;
  logCallback : list LogEvent;
  browser : Browser;
}.

Definition with_cache (c : list (string * CacheEntry)) (st : t) : t :=
  mkEngine c (config st) (logCallback st) (browser st).

Definition with_browser (b : Browser) (st : t) : t :=
  mkEngine (cache st) (config st) (logCallback st) b.

Definition log (ty : LogType) (msg : string) (st : t) : t :=
  mkEngine (cache st) (config st) (logCallback st ++ [mkLog ty msg]) (browser st).

Definition isExpired (now : Z) (entry : CacheEntry) : Prop := now >= expiresAt entry.

#[global] Instance isExpired_dec now entry : Decision (isExpired now entry).
Proof. unfold isExpired. apply _. Defined.

Definition toDelete (now : Z) (c : list (string * CacheEntry)) : list string :=
  (filter (λ kv, isExpired now kv.2) c).*1.

Definition cleanupExpired (now : Z) (st : t) : t :=
  foldl (λ st key,
           log EXPIRED ("Cleaned up expired key: " +:+ key)
               (with_cache (JSMap.delete key (cache st)) st))
        st (toDelete now (cache st)).

Definition saveToStorage (st : t) : t :=
  let data := cache st in
  let serialized := JSON_stringify data in
  let key := storageKey (config st) in
  let made := calls (browser st) ++ [SetItem key serialized] in
  match setItem (localStorage (browser st)) key serialized with
  | Returns s' =>
      log SAVED ("Persisted " +:+ pretty (length data) +:+ " entries to localStorage")
          (with_browser (mkBrowser s' made) st)
  | Throws error =>
      log PARSE_ERROR ("Failed to save: " +:+ error)
          (with_browser (mkBrowser (localStorage (browser st)) made) st)
  end.

Definition load_step (now : Z) (acc : list (string * CacheEntry) * nat * nat)
    (item : string * CacheEntry) : list (string * CacheEntry) * nat * nat :=
  let '(c, loadedCount, expiredCount) := acc in
  if decide (isExpired now item.2)
  then (c, loadedCount, S expiredCount)
  else (JSMap.set item.1 item.2 c, S loadedCount, expiredCount).

Fixpoint load_loop (now : Z) (data : list (Item CacheEntry))
    (acc : list (string * CacheEntry) * nat * nat)
    : list (string * CacheEntry) * nat * nat * option string :=
  match data with
  | [] => (acc, None)
  | Pair item :: rest => load_loop now rest (load_step now acc item)
  | Unreadable error :: _ => (acc, Some error)
  end.

Definition loadFromStorage (now : Z) (st : t) : t :=
  let key := storageKey (config st) in
  let st := with_browser (mkBrowser (localStorage (browser st))
                                    (calls (browser st) ++ [GetItem key])) st in
  match getItem (localStorage (browser st)) key with
  | None => log LOADED "No stored data found, starting fresh" st
  | Some stored =>
      if decide (stored = EmptyString)
      then log LOADED "No stored data found, starting fresh" st
      else match JSON_parse stored with
           | Throws error =>
               with_cache []
                 (log PARSE_ERROR ("Failed to load from storage (" +:+ error
                                     +:+ "), starting fresh") st)
           | Returns data =>
               match load_loop now data (cache st, 0%nat, 0%nat) with
               | (c, loadedCount, expiredCount, None) =>
                   log LOADED ("Loaded " +:+ pretty loadedCount
                                 +:+ " entries from localStorage ("
                                 +:+ pretty expiredCount +:+ " expired entries discarded)")
                       (with_cache c st)
               | (c, _, _, Some error) =>
                   with_cache []
                     (log PARSE_ERROR ("Failed to load from storage (" +:+ error
                                         +:+ "), starting fresh")
                          (with_cache c st))
               end
           end
  end.

Definition new (now : Z) (cfg : CacheConfig) (b : Browser) : t :=
  loadFromStorage now (mkEngine [] cfg [] b).

(** The scan of [set] for the oldest [lastAccessAt]: [oldestAccess] starts at
    [Infinity] ([None]) and [lruKey] at [null]; only a strictly older entry
    replaces the candidate. *)
Definition lru_step (acc : option string * option Z) (item : string * CacheEntry)
    : option string * option Z :=
  let '(lruKey, oldestAccess) := acc in
  match oldestAccess with
  | None => (Some item.1, Some (lastAccessAt item.2))
  | Some oldest =>
      if decide (lastAccessAt item.2 < oldest)
      then (Some item.1, Some (lastAccessAt item.2))
      else (lruKey, oldestAccess)
  end.

Definition find_lru (c : list (string * CacheEntry)) : option string :=
  (foldl lru_step (None, None) c).1.

Definition evict (st : t) : t :=
  let lruKey := find_lru (cache st) in
  if truthy_key lruKey
  then let k := default EmptyString lruKey in
       log EVICTED ("Evicted LRU key: " +:+ k)
           (with_cache (JSMap.delete k (cache st)) st)
  else st.

(** [set]: [t_sweep] is read by [cleanupExpired], [now] right after it. *)
Definition set (t_sweep now : Z) (key val : string) (ttlMs : option Z) (st : t) : t :=
  let st := cleanupExpired t_sweep st in
  let ttl := default (defaultTTLms (config st)) ttlMs in
  let st := if negb (JSMap.has key (cache st))
               && bool_decide (JSMap.size (cache st) >= maxSize (config st))
            then evict st else st in
  let st := with_cache (JSMap.set key (mkEntry val (now + ttl) now) (cache st)) st in
  let st := log SET ("Set key: " +:+ key +:+ ", TTL: " +:+ pretty ttl +:+ "ms") st in
  saveToStorage st.

(** [get]: [now] is read after the lookup.  The assignment to
    [entry.lastAccessAt] changes the object the [Map] holds, so the entry
    keeps its place in the [Map]. *)
Definition get (now : Z) (key : string) (st : t) : option string * t :=
  match JSMap.get key (cache st) with
  | None => (None, log MISS ("Cache miss for key: " +:+ key) st)
  | Some entry =>
      if decide (isExpired now entry)
      then (None,
            saveToStorage
              (log EXPIRED ("Key expired and removed: " +:+ key)
                   (with_cache (JSMap.delete key (cache st)) st)))
      else (Some (value entry),
            log HIT ("Cache hit for key: " +:+ key)
                (with_cache
                   (JSMap.set key (mkEntry (value entry) (expiresAt entry) now) (cache st))
                   st))
  end.

(** [delete(key: string): void]: the value returned is [undefined] on both
    paths, here [tt]. *)
Definition delete (key : string) (st : t) : unit * t :=
  let deleted := JSMap.has key (cache st) in
  let st := with_cache (JSMap.delete key (cache st)) st in
  if deleted
  then (tt, saveToStorage (log SET ("Deleted key: " +:+ key) st))
  else (tt, st).

Definition clear (st : t) : t :=
  saveToStorage (log SET "Cache cleared" (with_cache [] st)).

(** The comparator of [getAll]: [b[1].lastAccessAt - a[1].lastAccessAt]. *)
Definition mru_first (a b : string * CacheEntry) : Z :=
  lastAccessAt b.2 - lastAccessAt a.2.

Definition getAll (st : t) : list (string * CacheEntry) :=
  JSArray.sort mru_first (cache st).

Definition size (st : t) : Z := JSMap.size (cache st).

Definition has (key : string) (st : t) : bool := JSMap.has key (cache st).

Definition updateConfig (cfg : CacheConfig) (st : t) : t :=
  mkEngine (cache st) cfg (logCallback st) (browser st).

(** *** Vocabulary of the statements about v2 *)

Definition expired_event (key : string) : LogEvent :=
  mkLog EXPIRED ("Cleaned up expired key: " +:+ key).

(** The stamp [getAll] sorts by. *)
Definition stamp (kv : string * CacheEntry) : Z := lastAccessAt kv.2.

(** The invariant of the scan of [set]: the candidate is an entry seen so
    far and no entry seen so far is older. *)
Definition oldest_so_far (acc : option string * option Z)
    (seen : list (string * CacheEntry)) : Prop :=
  match acc with
  | (None, None) => seen = []
  | (Some k, Some oldest) =>
      (∃ e, (k, e) ∈ seen ∧ lastAccessAt e = oldest)
      ∧ ∀ k' e', (k', e') ∈ seen → oldest ≤ lastAccessAt e'
  | _ => False
  end.

(** The state [set] works on once the sweep and the eviction are done. *)
Definition after_eviction (t_sweep : Z) (key : string) (st : t) : t :=
  let st := cleanupExpired t_sweep st in
  if negb (JSMap.has key (cache st))
     && bool_decide (JSMap.size (cache st) >= maxSize (config st))
  then evict st else st.

Definition stored (cfg : CacheConfig) (b : Browser) : option string :=
  getItem (localStorage b) (storageKey cfg).

End engine.

Arguments t {_}.

End TTLCache.

(** ** v1: [CacheSystem], the cache kept in React state

    [setCacheValue] and [getCacheValue] read [cacheRef.current] and hand a
    fresh [Map] to [setCache]; each function below takes the [Map] it reads and
    returns the [Map] it hands over ([None] when [setCache] is not called). *)
Module CacheSystem.

Record CacheEntry : Type := mkEntry {
  value : string;
  expiry : option Z;
  lastAccessed : Z;
}.

Inductive LogKind : Type := info | success | error | warning.

(** [LogEntry] without its [timestamp]. *)
Record LogEntry : Type := mkLog {
  action : string;
  details : string;
  type : LogKind;
}.

Definition lru_step (acc : string * option Z) (item : string * CacheEntry)
    : string * option Z :=
  let '(oldestKey, oldestTime) := acc in
  match oldestTime with
  | None => (item.1, Some (lastAccessed item.2))
  | Some oldest =>
      if decide (lastAccessed item.2 < oldest)
      then (item.1, Some (lastAccessed item.2))
      else (oldestKey, oldestTime)
  end.

Definition evictLRU (currentCache : list (string * CacheEntry))
    : list (string * CacheEntry) * list LogEntry :=
  let oldestKey := (foldl lru_step (EmptyString, None) currentCache).1 in
  if truthy_key (Some oldestKey)
  then (JSMap.delete oldestKey currentCache,
        [mkLog "EVICT" ("LRU evicted key: " +:+ oldestKey) warning])
  else (currentCache, []).

(** [setCacheValue]: [t_expiry] is the reading taken for [expiry] (only when
    [ttlMs] is truthy), [t_access] the one stored as [lastAccessed]. *)
Definition setCacheValue (maxSize : Z) (t_expiry t_access : Z)
    (k v : string) (ttlMs : option Z) (current : list (string * CacheEntry))
    : option (list (string * CacheEntry)) * list LogEntry :=
  if negb (truthy_key (Some k))
  then (None, [mkLog "ERROR" "Key cannot be empty" error])
  else
    let '(newCache, evictions) :=
      if negb (JSMap.has k current) && bool_decide (JSMap.size current >= maxSize)
      then evictLRU current else (current, []) in
    let expiry := if truthy_number ttlMs then Some (t_expiry + default 0 ttlMs) else None in
    let newCache := JSMap.set k (mkEntry v expiry t_access) newCache in
    (Some newCache,
     evictions ++
     [mkLog "SET"
        (k +:+ " = " +:+ quoted v +:+
           (if truthy_number ttlMs then " (TTL: " +:+ pretty (default 0 ttlMs) +:+ "ms)"
            else EmptyString))
        success]).

(** [getCacheValue]: [now] is the reading compared with [expiry],
    [t_access] the one stored as [lastAccessed]. *)
Definition getCacheValue (now t_access : Z) (k : string)
    (current : list (string * CacheEntry))
    : option string * option (list (string * CacheEntry)) * list LogEntry :=
  if negb (truthy_key (Some k))
  then (None, None, [mkLog "ERROR" "Key cannot be empty" error])
  else match JSMap.get k current with
       | None => (None, None, [mkLog "GET" ("Key " +:+ quoted k +:+ " not found") error])
       | Some entry =>
           if truthy_number (expiry entry) && bool_decide (now > default 0 (expiry entry))
           then (None, Some (JSMap.delete k current),
                 [mkLog "GET" ("Key " +:+ quoted k +:+ " expired and removed") warning])
           else (Some (value entry),
                 Some (JSMap.set k (mkEntry (value entry) (expiry entry) t_access) current),
                 [mkLog "GET" (k +:+ " = " +:+ quoted (value entry)) success])
       end.


(** [deleteCacheValue]: [setCache] is called only when the key was there. *)
Definition deleteCacheValue (k : string) (current : list (string * CacheEntry))
    : option (list (string * CacheEntry)) * list LogEntry :=
  if negb (truthy_key (Some k))
  then (None, [mkLog "ERROR" "Key cannot be empty" error])
  else if JSMap.has k current
       then (Some (JSMap.delete k current), [mkLog "DELETE" ("Removed key: " +:+ k) success])
       else (None, [mkLog "DELETE" ("Key " +:+ quoted k +:+ " not found") error]).

Definition clearCache : option (list (string * CacheEntry)) * list LogEntry :=
  (Some [], [mkLog "CLEAR" "Cache cleared" info]).

(** [addLog]: the new entry goes last and the log keeps its last twenty. *)
Definition addLog (entry : LogEntry) (logs : list LogEntry) : list LogEntry :=
  JSArray.slice (-20) None (logs ++ [entry]).

(** The [onChange] of the Max Size input,
    [Math.max(1, parseInt(e.target.value) || 1)]; [parsed] is what [parseInt]
    returned, [None] for [NaN]. *)
Definition onMaxSizeChange (parsed : option Z) : Z :=
  Z.max 1 (if truthy_number parsed then default 0 parsed else 1).

(** The component between two renders: the [Map] of [cache], which the effect
    has copied to [cacheRef.current], and the log. *)
Record Component : Type := mkComponent {
  cache : list (string * CacheEntry);
  logs : list LogEntry;
}.

(** The calls the buttons and the test suite make, one per render. *)
Inductive Call : Type :=
| CallSet (t_expiry t_access : Z) (k v : string) (ttlMs : option Z)
| CallGet (now t_access : Z) (k : string)
| CallDelete (k : string)
| CallClear.

(** What a call hands to [setCache] and to [addLog]. *)
Definition handed (maxSize : Z) (call : Call) (current : list (string * CacheEntry))
    : option (list (string * CacheEntry)) * list LogEntry :=
  match call with
  | CallSet t_expiry t_access k v ttlMs =>
      setCacheValue maxSize t_expiry t_access k v ttlMs current
  | CallGet now t_access k =>
      let r := getCacheValue now t_access k current in (r.1.2, r.2)
  | CallDelete k => deleteCacheValue k current
  | CallClear => clearCache
  end.

(** A call followed by the render: the [Map] handed to [setCache], if any,
    becomes the state, and the log entries are added in order. *)
Definition step (maxSize : Z) (call : Call) (c : Component) : Component :=
  let r := handed maxSize call (cache c) in
  mkComponent (default (cache c) r.1) (foldl (λ logs entry, addLog entry logs) (logs c) r.2).

Definition run (maxSize : Z) (calls : list Call) (c : Component) : Component :=
  foldl (λ c call, step maxSize call c) c calls.

(** [useState(new Map())] and [useState<LogEntry[]>([])]. *)
Definition initial : Component := mkComponent [] [].

(** A [Map] the component is meant to hold: unique keys, no empty key, at
    most [maxSize] entries. *)
Definition tidy (maxSize : Z) (c : list (string * CacheEntry)) : Prop :=
  JSMap.wf c ∧ JSMap.has EmptyString c = false ∧ JSMap.size c ≤ maxSize.

End CacheSystem.

(** ** The recency order of the specification

    The specification orders the resident keys from most to least recently
    used, where a use is a [set] or a [get] that returns a value.  [touch]
    moves a key to the front; [spec_order] replays a history of uses.  The
    operations of v3 are run as a list of calls, and [history] collects the
    keys they used, oldest first. *)
Module Recency.

Definition touch (key : string) (order : list string) : list string :=
  key :: filter (λ k, k ≠ key) order.

Definition spec_order (initial : list string) (uses : list string) : list string :=
  foldl (λ order key, touch key order) initial uses.

Inductive Call : Type :=
| CallGet (t_sweep now : Z) (key : string)
| CallSet (t_sweep now : Z) (key val : string) (ttlMs : option Z)
| CallDelete (key : string)
| CallClear
| CallGetEntries (now : Z)
| CallGetSize (now : Z)
| CallHas (now : Z) (key : string).

Section run.
Context `{LocalStorage} `{JSON TTLLRUCache.CacheEntry}.

Definition step (c : Call) (st : TTLLRUCache.t) : TTLLRUCache.t :=
  match c with
  | CallGet t_sweep now key => (TTLLRUCache.get t_sweep now key st).2
  | CallSet t_sweep now key val ttlMs => TTLLRUCache.set t_sweep now key val ttlMs st
  | CallDelete key => (TTLLRUCache.delete key st).2
  | CallClear => TTLLRUCache.clear st
  | CallGetEntries now => (TTLLRUCache.getEntries now st).2
  | CallGetSize now => (TTLLRUCache.getSize now st).2
  | CallHas now key => (TTLLRUCache.has now key st).2
  end.

(** The key a call uses: every [set], and a [get] that returns a value. *)
Definition used (c : Call) (st : TTLLRUCache.t) : option string :=
  match c with
  | CallGet t_sweep now key =>
      match (TTLLRUCache.get t_sweep now key st).1 with
      | Some _ => Some key
      | None => None
      end
  | CallSet _ _ key _ _ => Some key
  | _ => None
  end.

Fixpoint run (cs : list Call) (st : TTLLRUCache.t) : TTLLRUCache.t :=
  match cs with
  | [] => st
  | c :: cs' => run cs' (step c st)
  end.

Fixpoint history (cs : list Call) (st : TTLLRUCache.t) : list string :=
  match cs with
  | [] => []
  | c :: cs' => option_list (used c st) ++ history cs' (step c st)
  end.

(** A call that uses no key only removes entries. *)
Definition shrinks (st st' : TTLLRUCache.t) : Prop :=
  TTLLRUCache.cache st' `sublist_of` TTLLRUCache.cache st.

(** A call that uses [key] removes entries and puts [key] last in the [Map]. *)
Definition moves (key : string) (st st' : TTLLRUCache.t) : Prop :=
  ∃ c'' e, TTLLRUCache.cache st' = c'' ++ [(key, e)]
           ∧ c'' `sublist_of` JSMap.delete key (TTLLRUCache.cache st).

End run.

End Recency.

(** ** A platform to run the engines on

    An in-memory [localStorage] that never refuses a write, and a text codec
    with the two laws of [JSON]: parsed data is numbered through [Countable]
    and the number is written in binary digits. *)
Module Demo.

Fixpoint bits_of_pos (p : positive) : string :=
  match p with
  | xH => "1"
  | xO p' => String "0"%char (bits_of_pos p')
  | xI p' => String "1"%char (bits_of_pos p')
  end.

Fixpoint pos_of_bits (s : string) : option positive :=
  match s with
  | EmptyString => None
  | String c s' =>
      match s' with
      | EmptyString => if decide (c = "1"%char) then Some xH else None
      | _ =>
          match pos_of_bits s' with
          | None => None
          | Some p =>
              if decide (c = "0"%char) then Some (xO p)
              else if decide (c = "1"%char) then Some (xI p)
              else None
          end
      end
  end.

#[global] Instance Item_eq_dec {Entry : Type} `{EqDecision Entry} : EqDecision (Item Entry).
Proof. solve_decision. Defined.

#[global] Instance Item_countable {Entry : Type} `{Countable Entry} : Countable (Item Entry) :=
  inj_countable' (λ item, match item with Pair kv => inl kv | Unreadable error => inr error end)
                 (λ s, match s with inl kv => Pair kv | inr error => Unreadable error end)
                 (λ item, match item with Pair _ => eq_refl | Unreadable _ => eq_refl end).

Section codec.
Context {Entry : Type} `{Countable Entry}.

(** The text that parses to [items]. *)
Definition text_of (items : list (Item Entry)) : string := bits_of_pos (encode items).

Definition stringify (data : list (string * Entry)) : string := text_of (Pair <$> data).

Definition parse (text : string) : outcome (list (Item Entry)) :=
  match pos_of_bits text with
  | None => Throws "SyntaxError: Unexpected token"
  | Some p =>
      match decode p with
      | Some items => Returns items
      | None => Throws "SyntaxError: Unexpected end of JSON input"
      end
  end.

End codec.

End Demo.

(** ** Calls on a v2 engine

    The methods of [TTLCache] as a list of calls, as for v3.  A [get] and a
    [set] stamp [lastAccessAt] with their reading [now]; [ticking] says that
    the clock has moved on between any two stamps: each reading is later than
    every stamp in the [Map] it meets. *)
Module TTLCacheCalls.

Inductive Call : Type :=
| CallGet (now : Z) (key : string)
| CallSet (t_sweep now : Z) (key val : string) (ttlMs : option Z)
| CallDelete (key : string)
| CallClear.

Section run.
Context `{LocalStorage} `{JSON TTLCache.CacheEntry}.

Definition step (c : Call) (st : TTLCache.t) : TTLCache.t :=
  match c with
  | CallGet now key => (TTLCache.get now key st).2
  | CallSet t_sweep now key val ttlMs => TTLCache.set t_sweep now key val ttlMs st
  | CallDelete key => (TTLCache.delete key st).2
  | CallClear => TTLCache.clear st
  end.

(** The key a call uses: every [set], and a [get] that returns a value. *)
Definition used (c : Call) (st : TTLCache.t) : option string :=
  match c with
  | CallGet now key =>
      match (TTLCache.get now key st).1 with
      | Some _ => Some key
      | None => None
      end
  | CallSet _ _ key _ _ => Some key
  | _ => None
  end.

Fixpoint run (cs : list Call) (st : TTLCache.t) : TTLCache.t :=
  match cs with
  | [] => st
  | c :: cs' => run cs' (step c st)
  end.

Fixpoint history (cs : list Call) (st : TTLCache.t) : list string :=
  match cs with
  | [] => []
  | c :: cs' => option_list (used c st) ++ history cs' (step c st)
  end.

(** The reading a call stamps with. *)
Definition reading (c : Call) : option Z :=
  match c with
  | CallGet now _ => Some now
  | CallSet _ now _ _ _ => Some now
  | _ => None
  end.

(** Every stamp in the [Map] is earlier than [now]. *)
Definition ahead (now : Z) (st : TTLCache.t) : Prop :=
  Forall (λ kv, TTLCache.lastAccessAt kv.2 < now) (TTLCache.cache st).

Fixpoint ticking (cs : list Call) (st : TTLCache.t) : Prop :=
  match cs with
  | [] => True
  | c :: cs' =>
      match reading c with Some now => ahead now st | None => True end
      ∧ ticking cs' (step c st)
  end.

(** No two resident entries carry the same stamp. *)
Definition distinct_stamps (st : TTLCache.t) : Prop :=
  NoDup (TTLCache.stamp <$> TTLCache.cache st).

(** The keys as [getAll] lists them. *)
Definition order (st : TTLCache.t) : list string := (TTLCache.getAll st).*1.

(** The calls write no empty key, as the form of the component guarantees. *)
Definition keyed (cs : list Call) : Prop :=
  Forall (λ c, match c with CallSet _ _ key _ _ => key ≠ EmptyString | _ => True end) cs.

End run.

End TTLCacheCalls.

(** ** The logs of the components

    v3's [addLog] appends and the panel shows [logs.slice(-30)]; v2's puts the
    event first and keeps the first hundred. *)
Module CacheDemo.

Definition addLog (entry : TTLLRUCache.LogEntry) (prev : list TTLLRUCache.LogEntry)
    : list TTLLRUCache.LogEntry :=
  prev ++ [entry].

Definition shown (logs : list TTLLRUCache.LogEntry) : list TTLLRUCache.LogEntry :=
  JSArray.slice (-30) None logs.

End CacheDemo.

Module TTLCacheDemo.

Definition addLog (event : TTLCache.LogEvent) (prev : list TTLCache.LogEvent)
    : list TTLCache.LogEvent :=
  JSArray.slice 0 (Some 100) (event :: prev).

(** The clock readings of [runLRUScenario], in the order its calls take
    them: two for each [set] (the sweep, then [now]) and one for the [get]. *)
Record Readings : Type := mkReadings {
  sweepA : Z; nowA : Z;
  sweepB : Z; nowB : Z;
  sweepC : Z; nowC : Z;
  sweepD : Z; nowD : Z;
  nowGet : Z;
  sweepE : Z; nowE : Z;
}.

(** The timers fire one after the other, the clock has moved on between two
    of them, and less than the ttl of a minute passes in all. *)
Definition in_order (r : Readings) : Prop :=
  sweepA r ≤ nowA r ∧ nowA r < sweepB r ∧ sweepB r ≤ nowB r ∧ nowB r < sweepC r
  ∧ sweepC r ≤ nowC r ∧ nowC r < sweepD r ∧ sweepD r ≤ nowD r ∧ nowD r < nowGet r
  ∧ nowGet r < sweepE r ∧ sweepE r ≤ nowE r ∧ nowE r < nowA r + 60000.

Section scenario.
Context `{LocalStorage} `{JSON TTLCache.CacheEntry}.

(** [runLRUScenario] as the calls it makes on the engine it closes over;
    [config] is the configuration the component holds. *)
Definition runLRUScenario (config : CacheConfig) (r : Readings) (cache : TTLCache.t)
    : TTLCache.t :=
  let cache := TTLCache.clear cache in
  let newConfig := mkConfig 3 (defaultTTLms config) (storageKey config) in
  let cache := TTLCache.updateConfig newConfig cache in
  let cache := TTLCache.set (sweepA r) (nowA r) "A" "Apple" (Some 60000) cache in
  let cache := TTLCache.set (sweepB r) (nowB r) "B" "Banana" (Some 60000) cache in
  let cache := TTLCache.set (sweepC r) (nowC r) "C" "Cherry" (Some 60000) cache in
  let cache := TTLCache.set (sweepD r) (nowD r) "D" "Date" (Some 60000) cache in
  let cache := (TTLCache.get (nowGet r) "B" cache).2 in
  TTLCache.set (sweepE r) (nowE r) "E" "Elderberry" (Some 60000) cache.

(** The clock readings of [runTTLScenario]: two for each of its three
    [set]s. *)
Record ShortReadings : Type := mkShortReadings {
  sweep1 : Z; now1 : Z;
  sweep2 : Z; now2 : Z;
  sweep3 : Z; now3 : Z;
}.

(** The timers fire one after the other and the third [set] is made before
    the two seconds of the first entry are over. *)
Definition in_time (r : ShortReadings) : Prop :=
  sweep1 r ≤ now1 r ∧ now1 r < sweep2 r ∧ sweep2 r ≤ now2 r ∧ now2 r < sweep3 r
  ∧ sweep3 r ≤ now3 r ∧ now3 r < now1 r + 2000.

(** [runTTLScenario] as the calls it makes on the engine it closes over. *)
Definition runTTLScenario (r : ShortReadings) (cache : TTLCache.t) : TTLCache.t :=
  let cache := TTLCache.clear cache in
  let cache := TTLCache.set (sweep1 r) (now1 r) "temp1" "Expires in 2s" (Some 2000) cache in
  let cache := TTLCache.set (sweep2 r) (now2 r) "temp2" "Expires in 4s" (Some 4000) cache in
  TTLCache.set (sweep3 r) (now3 r) "permanent" "Lasts 1 minute" (Some 60000) cache.

End scenario.

End TTLCacheDemo.

(** ** The entries a run of calls writes

    [written] is the entry a [set] puts into the [Map] of a v3 engine;
    [all_written] collects them along a run. *)
Module Writes.

Section writes.
Context `{LocalStorage} `{JSON TTLLRUCache.CacheEntry}.

Definition written (c : Recency.Call) (st : TTLLRUCache.t)
    : list (string * TTLLRUCache.CacheEntry) :=
  match c with
  | Recency.CallSet _ now key val ttlMs =>
      [(key, TTLLRUCache.mkEntry val
               (now + default (defaultTTLms (TTLLRUCache.config st)) ttlMs))]
  | _ => []
  end.

Fixpoint all_written (cs : list Recency.Call) (st : TTLLRUCache.t)
    : list (string * TTLLRUCache.CacheEntry) :=
  match cs with
  | [] => []
  | c :: cs' => written c st ++ all_written cs' (Recency.step c st)
  end.

End writes.

End Writes.

(** ** What the panels show for one entry

    [Math.ceil(a / b)] and [Math.round(a / b)] on integers, for [b > 0]. *)
Definition Math_ceil_div (a b : Z) : Z := - ((- a) / b).

Definition Math_round_div (a b : Z) : Z := (2 * a + b) / (2 * b).

Module Rows.

(** The line under an entry of v3: ["EXPIRED"] or ["Expires in <n>s"]. *)
Inductive Line3 : Type :=
| EXPIRED
| ExpiresIn (seconds : Z).

Definition line3 (currentTime : Z) (entry : TTLLRUCache.CacheEntry) : Line3 :=
  let timeLeft := TTLLRUCache.expiresAt entry - currentTime in
  let isExpired := bool_decide (timeLeft ≤ 0) in
  if isExpired then EXPIRED else ExpiresIn (Math_ceil_div timeLeft 1000).

(** The row of an entry of v2: the status badge and the note under the
    expiry date, ["(<n>s left)"] or ["(expired)"]. *)
Inductive Note2 : Type :=
| expired
| SecondsLeft (seconds : Z).

Definition row2 (now : Z) (entry : TTLCache.CacheEntry) : bool * Note2 :=
  let isExpired := bool_decide (now >= TTLCache.expiresAt entry) in
  let timeLeft := Z.max 0 (TTLCache.expiresAt entry - now) in
  (isExpired,
   if decide (timeLeft > 0) then SecondsLeft (Math_round_div timeLeft 1000) else expired).

End Rows.

(** * Facts about the embedding *)

(** ** Parsed data *)
Module ItemFacts.

Section facts.
Context {Entry : Type}.
Implicit Types (data : list (string * Entry)) (items : list (Item Entry)).

Lemma readable_pairs data : readable (Pair <$> data) = data.
Proof. induction data as [|kv data IH]; [done|]. csimpl. by rewrite IH. Qed.

Lemma fault_pairs data : fault (Pair <$> data) = None.
Proof. by induction data. Qed.

(** Without a fault the data is its pairs. *)
Lemma fault_None items : fault items = None → items = Pair <$> readable items.
Proof.
  induction items as [|[kv|error] items IH]; intros Hf; [done| |done].
  csimpl. by rewrite <- IH.
Qed.

(** With one, the data is its pairs, then the element the loop stops at. *)
Lemma fault_Some items error :
  fault items = Some error →
  ∃ rest, items = (Pair <$> readable items) ++ Unreadable error :: rest.
Proof.
  induction items as [|[kv|error'] items IH]; intros Hf; [done| |].
  - destruct (IH Hf) as [rest Hrest]. exists rest. csimpl. by rewrite <- Hrest.
  - injection Hf as ->. by exists items.
Qed.

End facts.
End ItemFacts.

(** ** [JSMap] *)
Module JSMapFacts.

Section facts.
Context {V : Type}.
Implicit Types (m : list (string * V)) (k key : string) (v : V).

Lemma map_get_None m key : JSMap.get key m = None ↔ key ∉ JSMap.keys m.
Proof.
  unfold JSMap.keys. induction m as [|[k v] m IH]; simpl.
  - split; [intros _; apply not_elem_of_nil | done].
  - rewrite not_elem_of_cons. destruct (decide (k = key)) as [->|Hne].
    + split; [done | intros [? _]; done].
    + rewrite IH. split; [intros ?; split; [congruence | done] | intros [_ ?]; done].
Qed.

Lemma map_get_Some_elem m key v : JSMap.get key m = Some v → (key, v) ∈ m.
Proof.
  induction m as [|[k x] m IH]; simpl; [done|].
  destruct (decide (k = key)) as [->|Hne].
  - intros [= ->]. apply list_elem_of_here.
  - intros Hg. apply list_elem_of_further. auto.
Qed.

Lemma map_elem_get_Some m key v : JSMap.wf m → (key, v) ∈ m → JSMap.get key m = Some v.
Proof.
  unfold JSMap.wf, JSMap.keys. induction m as [|[k x] m IH]; simpl.
  - intros _ Hin. by apply elem_of_nil in Hin.
  - intros Hnd Hin. apply NoDup_cons in Hnd as [Hk Hnd].
    apply elem_of_cons in Hin as [[= -> ->]|Hin].
    + by rewrite decide_True.
    + rewrite decide_False; [auto|].
      intros ->. apply Hk. by apply (list_elem_of_fmap_2 fst) in Hin.
Qed.

Lemma map_get_Some_key m key v : JSMap.get key m = Some v → key ∈ JSMap.keys m.
Proof.
  intros Hg. destruct (decide (key ∈ JSMap.keys m)) as [|Hn]; [done|].
  apply map_get_None in Hn. congruence.
Qed.

Lemma map_has_true m key : JSMap.has key m = true ↔ key ∈ JSMap.keys m.
Proof.
  unfold JSMap.has. destruct (JSMap.get key m) eqn:E.
  - split; [intros _; eauto using map_get_Some_key | done].
  - apply map_get_None in E. split; [done | intros ?; done].
Qed.

Lemma map_has_false m key : JSMap.has key m = false ↔ JSMap.get key m = None.
Proof. unfold JSMap.has. destruct (JSMap.get key m); split; done. Qed.

Lemma map_keys_delete m key : JSMap.keys (JSMap.delete key m) = filter (λ k, k ≠ key) (JSMap.keys m).
Proof.
  unfold JSMap.keys, JSMap.delete. induction m as [|[k x] m IH]; [done|].
  rewrite fmap_cons, !filter_cons. simpl.
  destruct (decide (k ≠ key)); csimpl; by rewrite IH.
Qed.

Lemma map_keys_filter (P : string * V → Prop) `{∀ x, Decision (P x)} m :
  JSMap.keys (filter P m) `sublist_of` JSMap.keys m.
Proof. unfold JSMap.keys. apply fmap_sublist, sublist_filter. Qed.

Lemma map_wf_filter (P : string * V → Prop) `{∀ x, Decision (P x)} m :
  JSMap.wf m → JSMap.wf (filter P m).
Proof. unfold JSMap.wf. intros Hnd. eapply sublist_NoDup; [done | apply map_keys_filter]. Qed.

Lemma map_wf_delete m key : JSMap.wf m → JSMap.wf (JSMap.delete key m).
Proof. apply map_wf_filter. Qed.

Lemma map_delete_absent m key : JSMap.get key m = None → JSMap.delete key m = m.
Proof.
  rewrite map_get_None. unfold JSMap.delete, JSMap.keys. induction m as [|[k x] m IH]; [done|].
  simpl. rewrite not_elem_of_cons. intros [Hne Hm].
  rewrite filter_cons. simpl. rewrite decide_True by congruence. f_equal. auto.
Qed.

Lemma map_get_filter (P : string * V → Prop) `{∀ x, Decision (P x)} m key :
  JSMap.wf m →
  JSMap.get key (filter P m) =
    match JSMap.get key m with
    | Some v => if decide (P (key, v)) then Some v else None
    | None => None
    end.
Proof.
  intros Hwf. destruct (JSMap.get key m) as [v|] eqn:E.
  - destruct (decide (P (key, v))) as [HP|HP].
    + apply map_elem_get_Some; [by apply map_wf_filter|].
      apply list_elem_of_filter. eauto using map_get_Some_elem.
    + destruct (JSMap.get key (filter P m)) as [w|] eqn:E'; [|done].
      apply map_get_Some_elem, list_elem_of_filter in E' as [HPw Hin].
      apply (map_elem_get_Some _ _ _ Hwf) in Hin. congruence.
  - apply map_get_None. apply map_get_None in E. intros Hin. apply E.
    eapply elem_of_sublist; [done | apply map_keys_filter].
Qed.

Lemma map_get_delete_eq m key : JSMap.get key (JSMap.delete key m) = None.
Proof.
  apply map_get_None. rewrite map_keys_delete. intros [Hne _]%list_elem_of_filter. done.
Qed.

Lemma map_get_delete_ne m key k : key ≠ k → JSMap.get k (JSMap.delete key m) = JSMap.get k m.
Proof.
  intros Hne. unfold JSMap.delete. induction m as [|[k' x] m IH]; [done|].
  rewrite filter_cons. simpl. destruct (decide (k' ≠ key)) as [Hk|Hk]; simpl.
  - by rewrite IH.
  - apply dec_stable in Hk as ->. by rewrite decide_False.
Qed.

Lemma map_set_absent m key v : JSMap.get key m = None → JSMap.set key v m = m ++ [(key, v)].
Proof.
  induction m as [|[k x] m IH]; simpl; [done|].
  destruct (decide (k = key)); [done|]. intros Hg. by rewrite IH.
Qed.

Lemma map_set_delete m key v :
  JSMap.set key v (JSMap.delete key m) = JSMap.delete key m ++ [(key, v)].
Proof. apply map_set_absent, map_get_delete_eq. Qed.

Lemma map_keys_set_present m key v :
  key ∈ JSMap.keys m → JSMap.keys (JSMap.set key v m) = JSMap.keys m.
Proof.
  unfold JSMap.keys. induction m as [|[k x] m IH]; simpl.
  - intros Hin. by apply elem_of_nil in Hin.
  - intros Hin. destruct (decide (k = key)) as [->|Hne]; [done|].
    simpl. f_equal. apply IH. apply elem_of_cons in Hin as [?|?]; [congruence|done].
Qed.

Lemma map_wf_set m key v : JSMap.wf m → JSMap.wf (JSMap.set key v m).
Proof.
  intros Hwf. destruct (JSMap.get key m) as [w|] eqn:E.
  - unfold JSMap.wf. rewrite map_keys_set_present; eauto using map_get_Some_key.
  - rewrite map_set_absent by done. apply map_get_None in E.
    unfold JSMap.wf, JSMap.keys in *. rewrite fmap_app. simpl.
    apply NoDup_app. split; [done|]. split; [|apply NoDup_singleton].
    intros k Hk ->%list_elem_of_singleton. done.
Qed.

Lemma map_get_set_eq m key v : JSMap.get key (JSMap.set key v m) = Some v.
Proof.
  induction m as [|[k x] m IH]; simpl.
  - by rewrite decide_True.
  - destruct (decide (k = key)) as [->|Hne]; simpl.
    + by rewrite decide_True.
    + by rewrite decide_False.
Qed.

Lemma map_get_set_ne m key k v : key ≠ k → JSMap.get k (JSMap.set key v m) = JSMap.get k m.
Proof.
  intros Hne. induction m as [|[k' x] m IH]; simpl.
  - by rewrite decide_False.
  - destruct (decide (k' = key)) as [->|Hne']; simpl.
    + by rewrite !decide_False.
    + by rewrite IH.
Qed.

Lemma map_elem_set m key v k x :
  (k, x) ∈ JSMap.set key v m → (k, x) = (key, v) ∨ (k, x) ∈ m.
Proof.
  induction m as [|[k' x'] m IH]; simpl.
  - intros ->%list_elem_of_singleton. by left.
  - destruct (decide (k' = key)) as [->|Hne].
    + intros [->|Hin]%elem_of_cons; [by left|]. right. by apply list_elem_of_further.
    + intros [->|Hin]%elem_of_cons; [right; apply list_elem_of_here|].
      destruct (IH Hin) as [?|?]; [by left|]. right. by apply list_elem_of_further.
Qed.

Lemma map_length_set m key v :
  length (JSMap.set key v m) = if JSMap.has key m then length m else S (length m).
Proof.
  unfold JSMap.has. induction m as [|[k x] m IH]; simpl; [done|].
  destruct (decide (k = key)); simpl; [done|].
  rewrite IH. by destruct (JSMap.get key m).
Qed.

Lemma map_length_delete m key : (length (JSMap.delete key m) ≤ length m)%nat.
Proof. apply length_filter. Qed.

Lemma map_length_delete_present m key :
  JSMap.wf m → JSMap.has key m = true → S (length (JSMap.delete key m)) = length m.
Proof.
  unfold JSMap.wf, JSMap.keys, JSMap.delete. intros Hnd Hin%map_has_true.
  induction m as [|[k x] m IH]; simpl in *.
  - by apply elem_of_nil in Hin.
  - apply NoDup_cons in Hnd as [Hk Hnd]. rewrite filter_cons. simpl.
    destruct (decide (k ≠ key)) as [Hne|Heq]; simpl.
    + f_equal. apply IH; [done|].
      apply elem_of_cons in Hin as [?|?]; [congruence|done].
    + apply dec_stable in Heq as ->. f_equal.
      change (length (JSMap.delete key m) = length m). f_equal.
      apply map_delete_absent, map_get_None. done.
Qed.

(** *** Reinserting a stored list *)

Lemma map_set_all_fresh m (data : list (string * V)) :
  JSMap.wf (m ++ data) → JSMap.set_all m data = m ++ data.
Proof.
  unfold JSMap.set_all. revert m. induction data as [|[k e] data IH]; intros m Hwf; simpl.
  - by rewrite app_nil_r.
  - assert (JSMap.get k m = None) as Hk.
    { apply map_get_None. unfold JSMap.wf, JSMap.keys in *.
      rewrite fmap_app in Hwf. apply NoDup_app in Hwf as (_ & Hdisj & _).
      intros Hin. apply (Hdisj _ Hin). csimpl. apply list_elem_of_here. }
    rewrite map_set_absent by done.
    rewrite IH; rewrite <- app_assoc; done.
Qed.

Lemma map_wf_set_all m (data : list (string * V)) :
  JSMap.wf m → JSMap.wf (JSMap.set_all m data).
Proof.
  unfold JSMap.set_all. revert m. induction data as [|[k e] data IH]; intros m Hwf; simpl; [done|].
  apply IH. by apply map_wf_set.
Qed.

(** Every entry kept by the loop was there before or is a stored entry. *)
Lemma map_elem_set_all m (data : list (string * V)) k x :
  (k, x) ∈ JSMap.set_all m data → (k, x) ∈ m ∨ (k, x) ∈ data.
Proof.
  unfold JSMap.set_all. revert m. induction data as [|[k' x'] data IH]; intros m; simpl; [by left|].
  intros [Hin|Hin]%IH.
  - apply map_elem_set in Hin as [[= -> ->]|Hin]; [right; apply list_elem_of_here | by left].
  - right. by apply list_elem_of_further.
Qed.

Lemma map_keys_set m key v k :
  k = key ∨ k ∈ JSMap.keys m → k ∈ JSMap.keys (JSMap.set key v m).
Proof.
  unfold JSMap.keys. induction m as [|[k' x'] m IH]; simpl.
  - intros [->|Hin]; [apply list_elem_of_here|by apply elem_of_nil in Hin].
  - intros Hk. destruct (decide (k' = key)) as [->|Hne]; simpl.
    + destruct Hk as [->|Hin]; [apply list_elem_of_here|done].
    + destruct Hk as [->|[->|Hin]%elem_of_cons].
      * apply list_elem_of_further, IH. by left.
      * apply list_elem_of_here.
      * apply list_elem_of_further, IH. by right.
Qed.

(** Every key of the data, and every key that was there, is a key after the
    loop. *)
Lemma map_keys_set_all m (data : list (string * V)) k :
  k ∈ JSMap.keys m ∨ k ∈ data.*1 → k ∈ JSMap.keys (JSMap.set_all m data).
Proof.
  unfold JSMap.set_all. revert m.
  induction data as [|[k' x'] data IH]; intros m; simpl.
  - intros [Hin|Hin]; [done|by apply elem_of_nil in Hin].
  - intros [Hin|[->|Hin]%elem_of_cons]; apply IH.
    + left. apply map_keys_set. by right.
    + left. apply map_keys_set. by left.
    + by right.
Qed.

End facts.

End JSMapFacts.

(** ** Lists *)

Lemma filter_ext_in {A} (P Q : A → Prop) `{∀ x, Decision (P x)} `{∀ x, Decision (Q x)}
    (l : list A) :
  (∀ x, x ∈ l → P x ↔ Q x) → filter P l = filter Q l.
Proof.
  induction l as [|a l IH]; intros HPQ; [done|].
  rewrite !filter_cons.
  assert (P a ↔ Q a) as Ha by (apply HPQ, list_elem_of_here).
  rewrite IH by (intros x Hx; apply HPQ, list_elem_of_further, Hx).
  destruct (decide (P a)), (decide (Q a)); tauto.
Qed.

Lemma filter_all {A} (P : A → Prop) `{∀ x, Decision (P x)} (l : list A) :
  (∀ x, x ∈ l → P x) → filter P l = l.
Proof.
  induction l as [|a l IH]; intros HP; [done|].
  rewrite filter_cons, decide_True by apply HP, list_elem_of_here.
  f_equal. apply IH. intros x Hx. apply HP, list_elem_of_further, Hx.
Qed.

(** A sublist of a duplicate-free list is what membership in it selects. *)
Lemma filter_elem_of_sublist {A} `{EqDecision A} (l' l : list A) :
  NoDup l → l' `sublist_of` l → filter (λ x, x ∈ l') l = l'.
Proof.
  intros Hnd Hsub. induction Hsub as [|x l1 l2 Hsub IH|x l1 l2 Hsub IH].
  - done.
  - apply NoDup_cons in Hnd as [Hx Hnd].
    rewrite filter_cons, decide_True by apply list_elem_of_here. f_equal.
    transitivity (filter (λ y, y ∈ l1) l2); [|by apply IH].
    apply filter_ext_in. intros y Hy.
    rewrite elem_of_cons. split; [|tauto]. intros [->|?]; [done|done].
  - apply NoDup_cons in Hnd as [Hx Hnd].
    rewrite filter_cons, decide_False; [auto|].
    intros Hin. apply Hx. eapply elem_of_sublist; done.
Qed.

(** ** v3: [TTLLRUCache] *)
Module TTLLRUCacheFacts.
Import TTLLRUCache.

Section facts.
Context `{LocalStorage} `{JSON CacheEntry}.
Implicit Types (st : t) (key k : string) (now : Z).

Lemma cleanup_fold_v3 ks st :
  let st' := foldl (λ st key,
                      log EXPIRED ("Key " +:+ quoted key +:+ " expired and removed")
                          (with_cache (JSMap.delete key (cache st)) st)) st ks in
  cache st' = filter (λ kv, kv.1 ∉ ks) (cache st)
  ∧ config st' = config st
  ∧ browser st' = browser st
  ∧ onLog st' = onLog st ++ (expired_event <$> ks).
Proof.
  revert st. induction ks as [|k ks IH]; intros st; simpl.
  - split_and!; [|done|done|by rewrite app_nil_r].
    symmetry. apply filter_all. intros x _. apply not_elem_of_nil.
  - destruct (IH (log EXPIRED ("Key " +:+ quoted k +:+ " expired and removed")
                      (with_cache (JSMap.delete k (cache st)) st)))
      as (Hc & Hcfg & Hb & Hl).
    split_and!; [|done|done|].
    + rewrite Hc. simpl. unfold JSMap.delete. rewrite list_filter_filter.
      apply filter_ext_in. intros x _. rewrite not_elem_of_cons. tauto.
    + rewrite Hl. simpl. by rewrite <- app_assoc.
Qed.

Lemma same_key_same_entry_v3 (m : list (string * CacheEntry)) k e e' :
  JSMap.wf m → (k, e) ∈ m → (k, e') ∈ m → e = e'.
Proof.
  intros Hwf H1 H2. apply (JSMapFacts.map_elem_get_Some _ _ _ Hwf) in H1, H2. congruence.
Qed.

Lemma cache_cleanupExpired_v3 now st :
  JSMap.wf (cache st) →
  cache (cleanupExpired now st) = filter (λ kv, now < expiresAt kv.2) (cache st).
Proof.
  intros Hwf. unfold cleanupExpired.
  destruct (cleanup_fold_v3 (toDelete now (cache st)) st) as (-> & _).
  apply filter_ext_in. intros [k e] Hin. simpl. unfold toDelete. split.
  - intros Hn. destruct (decide (now < expiresAt e)) as [|Hge]; [done|].
    exfalso. apply Hn. apply list_elem_of_fmap. exists (k, e). split; [done|].
    apply list_elem_of_filter. split; [|done]. unfold isExpired. simpl. lia.
  - intros Hlt [[k' e'] [Hk [Hexp Hin']%list_elem_of_filter]]%list_elem_of_fmap.
    simpl in *. subst k'. rewrite (same_key_same_entry_v3 _ _ _ _ Hwf Hin Hin') in Hlt.
    unfold isExpired in Hexp. lia.
Qed.

Lemma config_cleanupExpired_v3 now st : config (cleanupExpired now st) = config st.
Proof. unfold cleanupExpired. by destruct (cleanup_fold_v3 (toDelete now (cache st)) st) as (_ & -> & _). Qed.

Lemma browser_cleanupExpired_v3 now st : browser (cleanupExpired now st) = browser st.
Proof. unfold cleanupExpired. by destruct (cleanup_fold_v3 (toDelete now (cache st)) st) as (_ & _ & -> & _). Qed.

Lemma onLog_cleanupExpired_v3 now st :
  onLog (cleanupExpired now st) = onLog st ++ (expired_event <$> toDelete now (cache st)).
Proof. unfold cleanupExpired. by destruct (cleanup_fold_v3 (toDelete now (cache st)) st) as (_ & _ & _ & ->). Qed.

Lemma wf_cleanupExpired_v3 now st : JSMap.wf (cache st) → JSMap.wf (cache (cleanupExpired now st)).
Proof. intros Hwf. rewrite cache_cleanupExpired_v3 by done. by apply JSMapFacts.map_wf_filter. Qed.

(** An entry that the sweep removes is named by an [EXPIRED] event. *)
Lemma toDelete_spec_v3 now (c : list (string * CacheEntry)) k :
  k ∈ toDelete now c ↔ ∃ e, (k, e) ∈ c ∧ expiresAt e ≤ now.
Proof.
  unfold toDelete. rewrite list_elem_of_fmap. split.
  - intros [[k' e] [-> [Hexp Hin]%list_elem_of_filter]]. exists e. split; [done|].
    unfold isExpired in Hexp. simpl in *. lia.
  - intros [e [Hin Hle]]. exists (k, e). split; [done|].
    apply list_elem_of_filter. split; [|done]. unfold isExpired. simpl. lia.
Qed.

Lemma cache_saveToStorage_v3 st : cache (saveToStorage st) = cache st.
Proof. unfold saveToStorage. by destruct (setItem _ _ _). Qed.

Lemma config_saveToStorage_v3 st : config (saveToStorage st) = config st.
Proof. unfold saveToStorage. by destruct (setItem _ _ _). Qed.

Lemma calls_saveToStorage_v3 st :
  calls (browser (saveToStorage st)) =
  calls (browser st) ++ [SetItem (storageKey (config st)) (JSON_stringify (cache st))].
Proof. unfold saveToStorage. by destruct (setItem _ _ _). Qed.

End facts.
End TTLLRUCacheFacts.

Module V3Get.
Import TTLLRUCache TTLLRUCacheFacts.

Section get.
Context `{LocalStorage} `{JSON CacheEntry}.
Implicit Types (st : t) (key k : string) (now : Z).

(** What [get] finds after its sweep. *)
Lemma get_after_sweep_v3 t_sweep key st :
  JSMap.wf (cache st) →
  JSMap.get key (cache (cleanupExpired t_sweep st)) =
    match JSMap.get key (cache st) with
    | Some e => if decide (t_sweep < expiresAt e) then Some e else None
    | None => None
    end.
Proof.
  intros Hwf. rewrite cache_cleanupExpired_v3 by done.
  by rewrite (JSMapFacts.map_get_filter (λ kv, t_sweep < expiresAt kv.2)).
Qed.

Lemma get_returns_v3 t_sweep now key st v :
  JSMap.wf (cache st) → t_sweep ≤ now →
  (get t_sweep now key st).1 = Some v ↔
  ∃ e, JSMap.get key (cache st) = Some e ∧ value e = v ∧ now < expiresAt e.
Proof.
  intros Hwf Hle. unfold get. rewrite get_after_sweep_v3 by done.
  destruct (JSMap.get key (cache st)) as [e|]; simpl.
  - destruct (decide (t_sweep < expiresAt e)) as [Hs|Hs]; simpl.
    + destruct (decide (isExpired now e)) as [He|He]; unfold isExpired in He; simpl.
      * split; [done|]. intros (e' & [= <-] & _ & ?). lia.
      * split.
        -- intros [= <-]. exists e. split_and!; [done|done|lia].
        -- by intros (e' & [= <-] & <- & _).
    + split; [done|]. intros (e' & [= <-] & _ & ?). lia.
  - split; [done|]. by intros (e' & ? & _).
Qed.

Lemma get_expired_v3 t_sweep now key st e :
  JSMap.wf (cache st) → t_sweep ≤ now →
  JSMap.get key (cache st) = Some e → expiresAt e ≤ now →
  let r := get t_sweep now key st in
  r.1 = None
  ∧ JSMap.get key (cache r.2) = None
  ∧ ∃ evs, onLog r.2 = onLog st ++ evs
           ∧ (expired_event key ∈ evs
              ∨ mkLog EXPIRED ("Key " +:+ quoted key +:+ " expired on access") ∈ evs).
Proof.
  intros Hwf Hle Hg Hexp. pose proof (get_after_sweep_v3 t_sweep key st Hwf) as Hs.
  unfold get. rewrite Hs, Hg.
  destruct (decide (t_sweep < expiresAt e)) as [Hlive|Hdead]; simpl.
  - rewrite decide_True by (unfold isExpired; lia). simpl.
    split_and!; [done|apply JSMapFacts.map_get_delete_eq|].
    rewrite onLog_cleanupExpired_v3. eexists. rewrite <- app_assoc. split; [done|].
    right. apply elem_of_app. right. apply list_elem_of_here.
  - split_and!; [done|by rewrite Hs, Hg, decide_False|].
    rewrite onLog_cleanupExpired_v3. eexists. rewrite <- app_assoc. split; [done|].
    left. apply elem_of_app. left. apply list_elem_of_fmap_2.
    apply toDelete_spec_v3. exists e. split; [eauto using JSMapFacts.map_get_Some_elem | lia].
Qed.

Lemma get_live_v3 t_sweep now key st e :
  JSMap.wf (cache st) → t_sweep ≤ now →
  JSMap.get key (cache st) = Some e → now < expiresAt e →
  let r := get t_sweep now key st in
  r.1 = Some (value e)
  ∧ cache r.2 = JSMap.delete key (filter (λ kv, t_sweep < expiresAt kv.2) (cache st)) ++ [(key, e)]
  ∧ head (getKeys r.2) = Some key
  ∧ last (onLog r.2) = Some (mkLog HIT ("Cache hit for key " +:+ quoted key)).
Proof.
  intros Hwf Hle Hg Hlive. pose proof (get_after_sweep_v3 t_sweep key st Hwf) as Hs.
  unfold get. rewrite Hs, Hg.
  rewrite decide_True by lia. rewrite decide_False by (unfold isExpired; lia). simpl.
  rewrite JSMapFacts.map_set_delete, cache_cleanupExpired_v3 by done.
  split_and!; [done|done| |by rewrite last_snoc].
  unfold getKeys. simpl. unfold JSMap.keys. by rewrite fmap_app, reverse_app.
Qed.

Lemma get_absent_v3 t_sweep now key st :
  JSMap.wf (cache st) →
  JSMap.get key (cache st) = None →
  let r := get t_sweep now key st in
  r.1 = None
  ∧ last (onLog r.2) = Some (mkLog MISS ("Cache miss for key " +:+ quoted key)).
Proof.
  intros Hwf Hg. pose proof (get_after_sweep_v3 t_sweep key st Hwf) as Hs.
  unfold get. rewrite Hs, Hg. simpl. split; [done|]. by rewrite last_snoc.
Qed.

End get.
End V3Get.

Module V3Set.
Import TTLLRUCache TTLLRUCacheFacts.

Section set.
Context `{LocalStorage} `{JSON CacheEntry}.
Implicit Types (st : t) (key k : string) (now : Z).

Lemma delete_head_v3 (k : string) (e : CacheEntry) rest :
  JSMap.wf ((k, e) :: rest) → JSMap.delete k ((k, e) :: rest) = rest.
Proof.
  unfold JSMap.wf, JSMap.keys. csimpl. intros [Hk _]%NoDup_cons.
  unfold JSMap.delete. rewrite filter_cons. simpl. rewrite decide_False by (intros ?; done).
  apply JSMapFacts.map_delete_absent, JSMapFacts.map_get_None. done.
Qed.

Lemma cache_evict_v3 st :
  JSMap.wf (cache st) → cache (evict st) = tail (cache st).
Proof.
  intros Hwf. unfold evict. destruct (cache st) as [|[k e] rest] eqn:E; simpl; [done|].
  by apply delete_head_v3.
Qed.

Lemma onLog_evict_v3 st :
  onLog (evict st) =
  onLog st ++ [mkLog EVICTED ("Evicted LRU key "
                                +:+ quoted (default "undefined" (head (JSMap.keys (cache st))))
                                +:+ " to make room")].
Proof. done. Qed.

Lemma get_tail_v3 (c : list (string * CacheEntry)) key :
  JSMap.get key c = None → JSMap.get key (tail c) = None.
Proof.
  rewrite !JSMapFacts.map_get_None. intros Hn Hin. apply Hn.
  destruct c as [|kv c]; [done|]. simpl in *. by apply list_elem_of_further.
Qed.

(** The cache that [set] leaves: the live entries without [key], without
    their first one when they fill the cache, then [key] at the end. *)
Lemma cache_set_v3 t_sweep now key val ttlMs st :
  JSMap.wf (cache st) →
  cache (set t_sweep now key val ttlMs st) =
    (if decide (JSMap.size (swept_without t_sweep key st) >= maxSize (config st))
     then tail (swept_without t_sweep key st)
     else swept_without t_sweep key st)
    ++ [(key, mkEntry val (now + default (defaultTTLms (config st)) ttlMs))].
Proof.
  intros Hwf. unfold set, swept_without. rewrite cache_saveToStorage_v3.
  cbn [cache config with_cache log].
  rewrite config_cleanupExpired_v3, cache_cleanupExpired_v3 by done.
  set (c2 := JSMap.delete key (filter _ (cache st))).
  assert (JSMap.wf c2) as Hwf2 by (by apply JSMapFacts.map_wf_delete, JSMapFacts.map_wf_filter).
  assert (JSMap.get key c2 = None) as Hk by apply JSMapFacts.map_get_delete_eq.
  destruct (decide (JSMap.size c2 >= maxSize (config st))).
  - rewrite cache_evict_v3 by done. cbn [cache with_cache].
    by apply JSMapFacts.map_set_absent, get_tail_v3.
  - by apply JSMapFacts.map_set_absent.
Qed.

Lemma config_set_v3 t_sweep now key val ttlMs st :
  config (set t_sweep now key val ttlMs st) = config st.
Proof.
  unfold set. rewrite config_saveToStorage_v3. cbn [cache config with_cache log].
  destruct (decide _); [unfold evict|]; cbn [cache config with_cache log];
    apply config_cleanupExpired_v3.
Qed.

Lemma wf_set_v3 t_sweep now key val ttlMs st :
  JSMap.wf (cache st) → JSMap.wf (cache (set t_sweep now key val ttlMs st)).
Proof.
  intros Hwf. unfold set. rewrite cache_saveToStorage_v3. cbn [cache config with_cache log].
  apply JSMapFacts.map_wf_set.
  assert (JSMap.wf (JSMap.delete key (cache (cleanupExpired t_sweep st)))) as Hwf2
    by (by apply JSMapFacts.map_wf_delete, wf_cleanupExpired_v3).
  destruct (decide _); [|done].
  rewrite cache_evict_v3 by done. cbn [cache with_cache].
  destruct (JSMap.delete key _) as [|kv c]; [done|].
  unfold JSMap.wf, JSMap.keys in *. csimpl in *. by apply NoDup_cons in Hwf2 as [_ ?].
Qed.

(** After [set] the key holds the value with the resolved expiry. *)
Lemma get_set_v3 t_sweep now key val ttlMs st :
  JSMap.wf (cache st) →
  JSMap.get key (cache (set t_sweep now key val ttlMs st)) =
    Some (mkEntry val (now + default (defaultTTLms (config st)) ttlMs)).
Proof.
  intros Hwf. apply JSMapFacts.map_elem_get_Some; [by apply wf_set_v3|].
  rewrite cache_set_v3 by done. apply elem_of_app. right. apply list_elem_of_here.
Qed.

(** The events of [set] after its sweep when it evicts. *)
Lemma onLog_set_evicting_v3 t_sweep now key val ttlMs st :
  let s1 := cleanupExpired t_sweep st in
  JSMap.size (JSMap.delete key (cache s1)) >= maxSize (config st) →
  ∃ ev,
    onLog (set t_sweep now key val ttlMs st) =
    onLog s1
    ++ [mkLog EVICTED ("Evicted LRU key "
                         +:+ quoted (default "undefined"
                                       (head (JSMap.keys (JSMap.delete key (cache s1)))))
                         +:+ " to make room");
        mkLog SET ("Set key " +:+ quoted key +:+ " with TTL "
                     +:+ pretty (default (defaultTTLms (config st)) ttlMs) +:+ "ms");
        ev].
Proof.
  intros s1 Hfull. unfold set. fold s1.
  assert (config s1 = config st) as Hcfg by apply config_cleanupExpired_v3.
  simpl. rewrite Hcfg. rewrite decide_True by done.
  unfold saveToStorage. destruct (setItem _ _ _); simpl; eexists; by rewrite <- !app_assoc.
Qed.

(** [set] never leaves more entries than the larger of [maxSize] and the
    count it found. *)
Lemma size_set_v3 t_sweep now key val ttlMs st :
  JSMap.wf (cache st) → 1 ≤ maxSize (config st) →
  JSMap.size (cache (set t_sweep now key val ttlMs st))
  ≤ Z.max (maxSize (config st)) (JSMap.size (cache st)).
Proof.
  intros Hwf Hmax. rewrite cache_set_v3 by done.
  assert (length (swept_without t_sweep key st) ≤ length (cache st))%nat as Hlen.
  { unfold swept_without. etrans; [apply JSMapFacts.map_length_delete | apply length_filter]. }
  unfold JSMap.size in *. destruct (decide _) as [Hfull|Hroom]; rewrite length_app; simpl.
  - destruct (swept_without t_sweep key st) as [|kv c]; simpl in *; lia.
  - lia.
Qed.

End set.
End V3Set.

Module V3Store.
Import TTLLRUCache TTLLRUCacheFacts.

Section store.
Context `{LocalStorage} `{JSON CacheEntry}.
Implicit Types (st : t) (key k : string) (now : Z) (c data : list (string * CacheEntry)).

Lemma load_loop_v3 now data c loaded expired :
  (foldl (load_step now) (c, loaded, expired) data).1.1
  = JSMap.set_all c (filter (λ kv, now < expiresAt kv.2) data).
Proof.
  revert c loaded expired. induction data as [|[k e] data IH]; intros c loaded expired; [done|].
  rewrite filter_cons. simpl. destruct (decide (now < expiresAt e)); simpl; apply IH.
Qed.

(** The loop does the work of its pairs and ends with the fault, if any. *)
Lemma load_loop_readable_v3 now (items : list (Item CacheEntry)) acc :
  load_loop now items acc = (foldl (load_step now) acc (readable items), fault items).
Proof.
  revert acc. induction items as [|[kv|error] items IH]; intros acc; [done| |done].
  simpl. apply IH.
Qed.

Lemma calls_new_v3 now cfg b :
  calls (browser (new now cfg b)) = calls b ++ [GetItem (storageKey cfg)].
Proof.
  unfold new, loadFromStorage. cbn [config browser with_browser localStorage calls].
  destruct (getItem _ _) as [json|]; [|done].
  destruct (decide _); [done|]. destruct (JSON_parse json); [|done].
  rewrite load_loop_readable_v3. destruct (foldl _ _ _) as [[? ?] ?]. by destruct (fault _).
Qed.

Lemma localStorage_new_v3 now cfg b :
  localStorage (browser (new now cfg b)) = localStorage b.
Proof.
  unfold new, loadFromStorage. cbn [config browser with_browser localStorage calls].
  destruct (getItem _ _) as [json|]; [|done].
  destruct (decide _); [done|]. destruct (JSON_parse json); [|done].
  rewrite load_loop_readable_v3. destruct (foldl _ _ _) as [[? ?] ?]. by destruct (fault _).
Qed.

Lemma config_new_v3 now cfg b : config (new now cfg b) = cfg.
Proof.
  unfold new, loadFromStorage. cbn [config browser with_browser localStorage calls].
  destruct (getItem _ _) as [json|]; [|done].
  destruct (decide _); [done|]. destruct (JSON_parse json); [|done].
  rewrite load_loop_readable_v3. destruct (foldl _ _ _) as [[? ?] ?]. by destruct (fault _).
Qed.

Lemma cache_new_v3 now cfg b :
  cache (new now cfg b) =
    match stored cfg b with
    | None => []
    | Some json =>
        if decide (json = EmptyString) then []
        else match JSON_parse json with
             | Throws _ => []
             | Returns items =>
                 JSMap.set_all [] (filter (λ kv, now < expiresAt kv.2) (readable items))
             end
    end.
Proof.
  unfold new, loadFromStorage, stored. cbn [config browser with_browser localStorage calls].
  destruct (getItem _ _) as [json|]; [|done].
  destruct (decide _); [done|]. destruct (JSON_parse json) as [items|]; [|done].
  cbn [cache with_cache]. rewrite load_loop_readable_v3.
  pose proof (load_loop_v3 now (readable items) [] 0%nat 0%nat) as Hloop.
  destruct (foldl _ _ _) as [[c ?] ?]. destruct (fault _); by cbn in *.
Qed.

Lemma onLog_new_malformed_v3 now cfg b json error :
  stored cfg b = Some json → json ≠ EmptyString → JSON_parse json = Throws error →
  onLog (new now cfg b) = [mkLog PARSE_ERROR ("Failed to parse localStorage: " +:+ error)].
Proof.
  unfold new, loadFromStorage, stored. cbn [config browser with_browser localStorage calls].
  intros -> Hne ->. by rewrite decide_False.
Qed.

Lemma wf_new_v3 now cfg b : JSMap.wf (cache (new now cfg b)).
Proof.
  rewrite cache_new_v3. destruct (stored cfg b) as [json|]; [|apply NoDup_nil_2].
  destruct (decide _); [apply NoDup_nil_2|].
  destruct (JSON_parse json); [|apply NoDup_nil_2].
  apply JSMapFacts.map_wf_set_all, NoDup_nil_2.
Qed.

(** Saving, when [setItem] returns, leaves the snapshot under [storageKey]. *)
Lemma stored_saveToStorage_v3 st cfg s' :
  setItem (localStorage (browser st)) (storageKey (config st)) (JSON_stringify (cache st))
    = Returns s' →
  storageKey cfg = storageKey (config st) →
  stored cfg (browser (saveToStorage st)) = Some (JSON_stringify (cache st)).
Proof.
  intros Hset Hkey. unfold stored, saveToStorage. rewrite Hset, Hkey.
  cbn [browser log with_browser localStorage]. eapply getItem_setItem. done.
Qed.

(** Save, then load in a fresh engine: the entries that are live at the load,
    in the order they had. *)
Lemma cache_reload_v3 t_load st cfg s' :
  JSMap.wf (cache st) →
  setItem (localStorage (browser st)) (storageKey (config st)) (JSON_stringify (cache st))
    = Returns s' →
  storageKey cfg = storageKey (config st) →
  cache (new t_load cfg (browser (saveToStorage st)))
  = filter (λ kv, t_load < expiresAt kv.2) (cache st).
Proof.
  intros Hwf Hset Hkey. rewrite cache_new_v3, (stored_saveToStorage_v3 _ _ s') by done.
  rewrite decide_False by apply JSON_stringify_truthy.
  rewrite JSON_parse_stringify, ItemFacts.readable_pairs.
  apply (JSMapFacts.map_set_all_fresh []). by apply JSMapFacts.map_wf_filter.
Qed.

End store.
End V3Store.

(** ** v1: [CacheSystem] *)
Module CacheSystemFacts.
Import CacheSystem.

Implicit Types (k v : string) (c : list (string * CacheEntry)).

Lemma setCacheValue_entry maxSize t_expiry t_access k v ttlMs c :
  k ≠ EmptyString →
  ∃ newCache,
    (setCacheValue maxSize t_expiry t_access k v ttlMs c).1 = Some newCache
    ∧ JSMap.get k newCache
      = Some (mkEntry v
                (if truthy_number ttlMs then Some (t_expiry + default 0 ttlMs) else None)
                t_access).
Proof.
  intros Hk. unfold setCacheValue.
  assert (truthy_key (Some k) = true) as -> by (simpl; by apply bool_decide_eq_true_2).
  cbn [negb]. destruct (if _ && _ then _ else _) as [newCache evictions].
  eexists. split; [done|]. apply JSMapFacts.map_get_set_eq.
Qed.

Lemma getCacheValue_unlimited now t_access k c e :
  k ≠ EmptyString → JSMap.get k c = Some e → expiry e = None →
  (getCacheValue now t_access k c).1.1 = Some (value e).
Proof.
  intros Hk Hg He. unfold getCacheValue.
  assert (truthy_key (Some k) = true) as -> by (simpl; by apply bool_decide_eq_true_2).
  cbn [negb]. by rewrite Hg, He.
Qed.

Lemma getCacheValue_before now t_access k c e x :
  k ≠ EmptyString → JSMap.get k c = Some e → expiry e = Some x → now ≤ x →
  (getCacheValue now t_access k c).1.1 = Some (value e).
Proof.
  intros Hk Hg He Hlt. unfold getCacheValue.
  assert (truthy_key (Some k) = true) as -> by (simpl; by apply bool_decide_eq_true_2).
  cbn [negb]. rewrite Hg, He. cbn [default from_option id].
  rewrite (bool_decide_eq_false_2 (now > x)) by lia. by rewrite andb_false_r.
Qed.

Lemma getCacheValue_after now t_access k c e x :
  k ≠ EmptyString → JSMap.get k c = Some e → expiry e = Some x → x ≠ 0 → now > x →
  (getCacheValue now t_access k c).1.1 = None.
Proof.
  intros Hk Hg He Hx Hgt. unfold getCacheValue.
  assert (truthy_key (Some k) = true) as -> by (simpl; by apply bool_decide_eq_true_2).
  cbn [negb]. rewrite Hg, He. cbn [default from_option id truthy_number].
  by rewrite !bool_decide_eq_true_2.
Qed.

End CacheSystemFacts.

Module V3Misc.
Import TTLLRUCache TTLLRUCacheFacts.

Section misc.
Context `{LocalStorage} `{JSON CacheEntry}.
Implicit Types (st : t) (key k : string) (now : Z).

Lemma getSize_live_v3 now st :
  JSMap.wf (cache st) →
  (getSize now st).1 = Z.of_nat (length (filter (λ kv, now < expiresAt kv.2) (cache st)))
  ∧ cache (getSize now st).2 = filter (λ kv, now < expiresAt kv.2) (cache st).
Proof. intros Hwf. unfold getSize, JSMap.size. cbn [fst snd]. by rewrite cache_cleanupExpired_v3. Qed.

Lemma has_live_v3 now key st :
  JSMap.wf (cache st) →
  ((has now key st).1 = true ↔ ∃ e, JSMap.get key (cache st) = Some e ∧ now < expiresAt e)
  ∧ cache (has now key st).2 = filter (λ kv, now < expiresAt kv.2) (cache st).
Proof.
  intros Hwf. unfold has. cbn [fst snd]. split; [|by apply cache_cleanupExpired_v3].
  unfold JSMap.has. rewrite V3Get.get_after_sweep_v3 by done.
  destruct (JSMap.get key (cache st)) as [e|].
  - destruct (decide (now < expiresAt e)).
    + split; [intros _; by exists e | done].
    + split; [done|]. intros (e' & [= <-] & ?). done.
  - split; [done|]. by intros (e' & ? & _).
Qed.

Lemma delete_present_v3 key st :
  JSMap.has key (cache st) = true →
  let r := delete key st in
  r.1 = true
  ∧ cache r.2 = JSMap.delete key (cache st)
  ∧ JSMap.get key (cache r.2) = None
  ∧ calls (browser r.2)
    = calls (browser st)
      ++ [SetItem (storageKey (config st)) (JSON_stringify (JSMap.delete key (cache st)))]
  ∧ mkLog DELETE ("Deleted key " +:+ quoted key) ∈ onLog r.2.
Proof.
  intros Hhas. unfold delete. rewrite Hhas. cbn [fst snd].
  rewrite cache_saveToStorage_v3, calls_saveToStorage_v3. cbn [cache config browser log with_cache].
  split_and!; [done|done|apply JSMapFacts.map_get_delete_eq|done|].
  unfold saveToStorage. destruct (setItem _ _ _); cbn [onLog log with_browser];
    rewrite !elem_of_app, !list_elem_of_singleton; tauto.
Qed.

Lemma delete_absent_v3 key st :
  JSMap.get key (cache st) = None → delete key st = (false, st).
Proof.
  intros Hg. unfold delete. rewrite (proj2 (JSMapFacts.map_has_false _ _) Hg).
  rewrite JSMapFacts.map_delete_absent by done. by destruct st.
Qed.

(** After a [delete] the key is gone, so a second [delete] finds nothing. *)
Lemma delete_twice_v3 key st : (delete key (delete key st).2).1 = false.
Proof.
  assert (JSMap.get key (cache (delete key st).2) = None) as Hgone.
  { unfold delete. destruct (JSMap.has key (cache st)); cbn [snd];
      rewrite ?cache_saveToStorage_v3; apply JSMapFacts.map_get_delete_eq. }
  by rewrite delete_absent_v3.
Qed.

End misc.
End V3Misc.

(** ** The order of v3 replays the history of uses *)

Lemma sublist_reverse {A} (l1 l2 : list A) :
  l1 `sublist_of` l2 → reverse l1 `sublist_of` reverse l2.
Proof.
  induction 1 as [|x l1 l2 _ IH|x l1 l2 _ IH]; [done| |].
  - rewrite !reverse_cons. by apply sublist_app.
  - rewrite reverse_cons. by apply sublist_inserts_r.
Qed.

Lemma sublist_filter_mono {A} (P : A → Prop) `{∀ x, Decision (P x)} (l1 l2 : list A) :
  l1 `sublist_of` l2 → filter P l1 `sublist_of` filter P l2.
Proof.
  induction 1 as [|x l1 l2 _ IH|x l1 l2 _ IH]; [done| |].
  - rewrite !filter_cons. destruct (decide (P x)); [by apply sublist_skip | done].
  - rewrite filter_cons. destruct (decide (P x)); [by apply sublist_cons | done].
Qed.

Lemma sublist_tail {A} (l : list A) : tail l `sublist_of` l.
Proof. destruct l; [done|]. by apply sublist_cons. Qed.

Module RecencyFacts.
Import TTLLRUCache TTLLRUCacheFacts Recency.

Lemma spec_order_app initial uses1 uses2 :
  spec_order initial (uses1 ++ uses2) = spec_order (spec_order initial uses1) uses2.
Proof. apply foldl_app. Qed.

(** The replayed order is the uses, latest first, then the untouched keys in
    their initial order. *)
Lemma spec_order_closed initial uses :
  spec_order initial uses = spec_order [] uses ++ filter (λ k, k ∉ uses) initial.
Proof.
  revert initial. induction uses as [|h uses IH]; intros initial.
  - simpl. symmetry. apply filter_all. intros x _. apply not_elem_of_nil.
  - change (spec_order initial (h :: uses)) with (spec_order (touch h initial) uses).
    change (spec_order [] (h :: uses)) with (spec_order (touch h []) uses).
    rewrite (IH (touch h initial)), (IH (touch h [])). unfold touch.
    rewrite <- app_assoc. f_equal.
    rewrite (filter_cons _ h (filter _ initial)), (filter_cons _ h []), filter_nil.
    rewrite list_filter_filter.
    assert (filter (λ a, (a ∉ uses) ∧ a ≠ h) initial = filter (λ k, k ∉ (h :: uses)) initial) as ->.
    { apply filter_ext_in. intros x _. rewrite not_elem_of_cons. tauto. }
    by destruct (decide (h ∉ uses)).
Qed.

Lemma NoDup_touch key order : NoDup order → NoDup (touch key order).
Proof.
  intros Hnd. apply NoDup_cons. split; [|by apply NoDup_filter].
  intros [Hne _]%list_elem_of_filter. done.
Qed.

Section replay.
Context `{LocalStorage} `{JSON CacheEntry}.
Implicit Types (st : t) (key k : string) (call : Call).

Lemma NoDup_getKeys st : JSMap.wf (cache st) → NoDup (getKeys st).
Proof. intros Hwf. unfold getKeys. by rewrite reverse_Permutation. Qed.

Lemma elem_of_getKeys st k : k ∈ getKeys st ↔ k ∈ JSMap.keys (cache st).
Proof. apply elem_of_reverse. Qed.

Lemma sublist_swept t_sweep key st :
  JSMap.delete key (filter (λ kv, t_sweep < expiresAt kv.2) (cache st))
    `sublist_of` JSMap.delete key (cache st).
Proof. apply sublist_filter_mono, sublist_filter. Qed.

Lemma step_effect call st :
  JSMap.wf (cache st) →
  match used call st with
  | Some key => moves key st (step call st)
  | None => shrinks st (step call st)
  end.
Proof.
  intros Hwf. destruct call as [t_sweep now key|t_sweep now key val ttlMs|key| |now|now|now key];
    unfold used, step, shrinks, moves.
  - pose proof (V3Get.get_after_sweep_v3 t_sweep key st Hwf) as Hs.
    unfold get. rewrite Hs. destruct (JSMap.get key (cache st)) as [e|] eqn:Hg.
    + destruct (decide (t_sweep < expiresAt e)).
      * destruct (decide (isExpired now e)); cbn [fst snd cache log with_cache].
        -- rewrite cache_cleanupExpired_v3 by done.
           etrans; apply sublist_filter.
        -- rewrite JSMapFacts.map_set_delete, cache_cleanupExpired_v3 by done.
           eexists _, _. split; [done|]. apply sublist_swept.
      * cbn [fst snd cache log]. rewrite cache_cleanupExpired_v3 by done. apply sublist_filter.
    + cbn [fst snd cache log]. rewrite cache_cleanupExpired_v3 by done. apply sublist_filter.
  - rewrite V3Set.cache_set_v3 by done. eexists _, _. split; [done|].
    destruct (decide _); [etrans; [apply sublist_tail|]|]; apply sublist_swept.
  - unfold delete. destruct (JSMap.has key (cache st)); cbn [fst snd cache log with_cache];
      rewrite ?cache_saveToStorage_v3; apply sublist_filter.
  - unfold clear. rewrite cache_saveToStorage_v3. apply sublist_nil_l.
  - cbn. rewrite cache_cleanupExpired_v3 by done. apply sublist_filter.
  - cbn. rewrite cache_cleanupExpired_v3 by done. apply sublist_filter.
  - cbn. rewrite cache_cleanupExpired_v3 by done. apply sublist_filter.
Qed.

Lemma wf_sublist (m' m : list (string * CacheEntry)) :
  m' `sublist_of` m → JSMap.wf m → JSMap.wf m'.
Proof.
  unfold JSMap.wf, JSMap.keys. intros Hsub Hnd.
  eapply sublist_NoDup; [done|]. by apply fmap_sublist.
Qed.

Lemma wf_moves key st st' : JSMap.wf (cache st) → moves key st st' → JSMap.wf (cache st').
Proof.
  intros Hwf (c'' & e & -> & Hsub).
  assert (JSMap.wf c'') as Hwf'' by (eapply wf_sublist; [done | by apply JSMapFacts.map_wf_delete]).
  unfold JSMap.wf, JSMap.keys in *. rewrite fmap_app. csimpl.
  apply NoDup_app. split_and!; [done| |apply NoDup_singleton].
  intros k Hk ->%list_elem_of_singleton.
  assert (key ∈ JSMap.keys (JSMap.delete key (cache st))) as Hin.
  { eapply elem_of_sublist; [exact Hk | by apply fmap_sublist]. }
  rewrite JSMapFacts.map_keys_delete in Hin. by apply list_elem_of_filter in Hin as [? _].
Qed.

Lemma wf_step call st : JSMap.wf (cache st) → JSMap.wf (cache (step call st)).
Proof.
  intros Hwf. pose proof (step_effect call st Hwf) as Heff.
  destruct (used call st); [by eapply wf_moves | by eapply wf_sublist].
Qed.

Lemma wf_run cs st : JSMap.wf (cache st) → JSMap.wf (cache (run cs st)).
Proof. revert st. induction cs as [|c cs IH]; intros st Hwf; simpl; [done|]. by apply IH, wf_step. Qed.

(** The order after one call is a selection from the order the use predicts. *)
Lemma getKeys_step call st :
  JSMap.wf (cache st) →
  getKeys (step call st) `sublist_of` spec_order (getKeys st) (option_list (used call st)).
Proof.
  intros Hwf. pose proof (step_effect call st Hwf) as Heff. unfold getKeys.
  destruct (used call st) as [key|]; simpl.
  - destruct Heff as (c'' & e & -> & Hsub). unfold touch.
    assert (JSMap.keys (c'' ++ [(key, e)]) = JSMap.keys c'' ++ [key]) as ->
      by (unfold JSMap.keys; by rewrite fmap_app).
    rewrite reverse_app. apply sublist_skip.
    rewrite filter_reverse. apply sublist_reverse.
    rewrite <- JSMapFacts.map_keys_delete. by apply fmap_sublist.
  - by apply sublist_reverse, fmap_sublist.
Qed.

Lemma keys_step call st k :
  JSMap.wf (cache st) →
  k ∈ JSMap.keys (cache (step call st)) →
  k ∈ JSMap.keys (cache st) ∨ used call st = Some k.
Proof.
  intros Hwf Hin. pose proof (step_effect call st Hwf) as Heff.
  destruct (used call st) as [key|].
  - destruct Heff as (c'' & e & Heq & Hsub). rewrite Heq in Hin.
    unfold JSMap.keys in *. rewrite fmap_app in Hin.
    apply elem_of_app in Hin as [Hin|Hin].
    + left. eapply elem_of_sublist; [exact Hin|].
      apply fmap_sublist. etrans; [exact Hsub | apply sublist_filter].
    + right. csimpl in Hin. by apply list_elem_of_singleton in Hin as ->.
  - left. eapply elem_of_sublist; [exact Hin | by apply fmap_sublist].
Qed.

Lemma keys_run cs st k :
  JSMap.wf (cache st) →
  k ∈ JSMap.keys (cache (run cs st)) →
  k ∈ JSMap.keys (cache st) ∨ k ∈ history cs st.
Proof.
  revert st. induction cs as [|c cs IH]; intros st Hwf Hin; simpl in *; [by left|].
  destruct (IH _ (wf_step c st Hwf) Hin) as [Hk|Hk].
  - destruct (keys_step c st k Hwf Hk) as [?|Hu]; [by left|].
    right. rewrite Hu. apply list_elem_of_here.
  - right. apply elem_of_app. by right.
Qed.

Theorem getKeys_run cs st :
  JSMap.wf (cache st) →
  getKeys (run cs st)
  = filter (λ k, k ∈ JSMap.keys (cache (run cs st)))
           (spec_order (getKeys st) (history cs st)).
Proof.
  revert st. induction cs as [|c cs IH]; intros st Hwf.
  - simpl. symmetry. apply filter_all. intros x Hx. by apply elem_of_getKeys.
  - cbn [run history]. rewrite (IH _ (wf_step c st Hwf)), spec_order_app.
    set (Kf := JSMap.keys (cache (run cs (step c st)))).
    set (uses := history cs (step c st)).
    set (B := spec_order (getKeys st) (option_list (used c st))).
    rewrite (spec_order_closed (getKeys (step c st))), (spec_order_closed B).
    rewrite !filter_app. f_equal.
    assert (NoDup B) as HB.
    { unfold B. destruct (used c st); simpl;
        [apply NoDup_touch|]; by apply NoDup_getKeys. }
    rewrite <- (filter_elem_of_sublist (getKeys (step c st)) B HB (getKeys_step c st Hwf)).
    rewrite !list_filter_filter. apply filter_ext_in. intros x _.
    split; [tauto|]. intros [Hf Hu]. split_and!; [done|done|].
    apply elem_of_getKeys.
    destruct (keys_run cs (step c st) x (wf_step c st Hwf) Hf); done.
Qed.

(** *** The bound on the resident count is kept along a run *)

Lemma config_step call st : config (step call st) = config st.
Proof.
  destruct call as [t_sweep now key|t_sweep now key val ttlMs|key| |now|now|now key];
    cbn [step].
  - unfold get. destruct (JSMap.get key _) as [e|]; [destruct (decide _)|];
      cbn [snd config log with_cache]; apply config_cleanupExpired_v3.
  - apply V3Set.config_set_v3.
  - unfold delete. destruct (JSMap.has key _); cbn [snd config with_cache]; [|done].
    by rewrite config_saveToStorage_v3.
  - unfold clear. by rewrite config_saveToStorage_v3.
  - apply config_cleanupExpired_v3.
  - apply config_cleanupExpired_v3.
  - apply config_cleanupExpired_v3.
Qed.

Lemma size_step call st :
  JSMap.wf (cache st) → 1 ≤ maxSize (config st) →
  JSMap.size (cache st) ≤ maxSize (config st) →
  JSMap.size (cache (step call st)) ≤ maxSize (config st).
Proof.
  intros Hwf Hmax Hsize.
  destruct call as [t_sweep now key|t_sweep now key val ttlMs|key| |now|now|now key];
    try (match goal with
         | |- context [step ?c st] => pose proof (step_effect c st Hwf) as Heff
         end;
         cbn [used] in Heff; unfold shrinks in Heff; apply sublist_length in Heff;
         unfold JSMap.size in *; lia).
  - cbn [step]. unfold get.
    pose proof (V3Get.get_after_sweep_v3 t_sweep key st Hwf) as Hs.
    assert (length (cache (cleanupExpired t_sweep st)) ≤ length (cache st))%nat as Hlen
      by (rewrite cache_cleanupExpired_v3 by done; apply length_filter).
    pose proof (JSMapFacts.map_length_delete (cache (cleanupExpired t_sweep st)) key) as Hdel.
    destruct (JSMap.get key (cache (cleanupExpired t_sweep st))) as [e|] eqn:Hg.
    + destruct (decide (isExpired now e)); cbn [snd cache log with_cache]; unfold JSMap.size in *.
      * lia.
      * rewrite JSMapFacts.map_set_delete, length_app. simpl.
        pose proof (JSMapFacts.map_length_delete_present
                      (cache (cleanupExpired t_sweep st)) key
                      (wf_cleanupExpired_v3 _ _ Hwf)) as Hpresent.
        rewrite <- Hpresent in Hlen; [lia|]. unfold JSMap.has. by rewrite Hg.
    + cbn [snd cache log]. unfold JSMap.size in *. lia.
  - cbn [step]. pose proof (V3Set.size_set_v3 t_sweep now key val ttlMs st Hwf Hmax). lia.
Qed.

Lemma bound_kept_by_run cs st :
  JSMap.wf (cache st) → 1 ≤ maxSize (config st) →
  JSMap.size (cache st) ≤ maxSize (config st) →
  JSMap.size (cache (run cs st)) ≤ maxSize (config st).
Proof.
  revert st. induction cs as [|call cs IH]; intros st Hwf Hmax Hsize; [done|].
  cbn [run]. rewrite <- (config_step call st).
  apply IH; [by apply wf_step | by rewrite config_step |].
  rewrite config_step. by apply size_step.
Qed.

End replay.
End RecencyFacts.

(** ** [JSArray.sort] with a comparator [stamp b - stamp a] *)
Module JSArrayFacts.

Section by_stamp.
Context {A : Type} (stamp : A → Z).

#[local] Abbreviation newest_first := (JSArray.newest_first stamp).
#[local] Abbreviation descending := (JSArray.descending stamp).

Lemma insert_Permutation x l : JSArray.insert newest_first x l ≡ₚ x :: l.
Proof.
  induction l as [|y l IH]; simpl; [done|].
  destruct (decide _); [|done]. rewrite IH. apply Permutation_swap.
Qed.

Lemma sort_Permutation l : JSArray.sort newest_first l ≡ₚ l.
Proof.
  induction l as [|x l IH]; simpl; [done|].
  fold (JSArray.sort newest_first l). by rewrite insert_Permutation, IH.
Qed.

Lemma insert_descending x l : descending l → descending (JSArray.insert newest_first x l).
Proof.
  unfold JSArray.descending, JSArray.newest_first. induction l as [|y l IH]; intros Hs; simpl.
  - repeat constructor.
  - apply StronglySorted_inv in Hs as [Hs Hy].
    destruct (decide (stamp y - stamp x > 0)) as [Hgt|Hle].
    + constructor; [by apply IH|].
      apply Forall_forall. intros z Hz.
      fold newest_first in Hz. rewrite insert_Permutation in Hz.
      apply elem_of_cons in Hz as [->|Hz]; [lia|].
      rewrite Forall_forall in Hy. by apply Hy.
    + constructor; [by constructor|].
      constructor; [lia|]. eapply Forall_impl; [exact Hy|]. simpl. intros; lia.
Qed.

Lemma sort_descending l : descending (JSArray.sort newest_first l).
Proof.
  induction l as [|x l IH]; simpl; [constructor|]. by apply insert_descending.
Qed.

(** An element at least as new as all the others goes first. *)
Lemma insert_newest x l :
  (∀ y, y ∈ l → stamp y ≤ stamp x) → JSArray.insert newest_first x l = x :: l.
Proof.
  destruct l as [|y l]; [done|]. intros Hy. simpl.
  rewrite decide_False; [done|]. unfold JSArray.newest_first.
  specialize (Hy y (list_elem_of_here _ _)). lia.
Qed.

Lemma head_sort l1 x l2 :
  (∀ y, y ∈ l1 ++ l2 → stamp y < stamp x) →
  head (JSArray.sort newest_first (l1 ++ x :: l2)) = Some x.
Proof.
  induction l1 as [|a l1 IH]; intros Hnew; simpl.
  - fold (JSArray.sort newest_first l2). rewrite insert_newest; [done|].
    intros y Hy. rewrite sort_Permutation in Hy. specialize (Hnew y Hy). lia.
  - fold (JSArray.sort newest_first (l1 ++ x :: l2)).
    specialize (IH (λ y Hy, Hnew y (list_elem_of_further _ _ _ Hy))).
    destruct (JSArray.sort newest_first (l1 ++ x :: l2)) as [|z s]; [done|].
    simpl in IH. injection IH as ->. simpl.
    rewrite decide_True; [done|]. unfold JSArray.newest_first.
    specialize (Hnew a (list_elem_of_here _ _)). lia.
Qed.

(** Removing elements commutes with sorting: the order of the others stays. *)
Lemma filter_insert (P : A → Prop) `{∀ x, Decision (P x)} x l :
  descending l →
  filter P (JSArray.insert newest_first x l)
  = if decide (P x) then JSArray.insert newest_first x (filter P l) else filter P l.
Proof.
  unfold JSArray.descending. induction l as [|y l IH]; intros Hs; simpl.
  - rewrite filter_cons, filter_nil. by destruct (decide (P x)).
  - apply StronglySorted_inv in Hs as [Hs Hy].
    destruct (decide (newest_first x y > 0)) as [Hgt|Hle].
    + rewrite !filter_cons, (IH Hs).
      destruct (decide (P y)), (decide (P x)); simpl; try done.
      by rewrite decide_True.
    + rewrite filter_cons. destruct (decide (P x)); [|done].
      rewrite insert_newest; [done|]. intros z [_ Hz]%list_elem_of_filter.
      unfold JSArray.newest_first in Hle. apply elem_of_cons in Hz as [->|Hz]; [lia|].
      rewrite Forall_forall in Hy. specialize (Hy z Hz). lia.
Qed.

Lemma filter_sort (P : A → Prop) `{∀ x, Decision (P x)} l :
  filter P (JSArray.sort newest_first l) = JSArray.sort newest_first (filter P l).
Proof.
  induction l as [|x l IH]; [done|].
  simpl. fold (JSArray.sort newest_first l).
  rewrite filter_insert by apply sort_descending. rewrite filter_cons, IH.
  by destruct (decide (P x)).
Qed.

(** Entries that share a stamp are not moved past each other. *)
Lemma sort_one_stamp (s : Z) l :
  Forall (λ x, stamp x = s) l → JSArray.sort newest_first l = l.
Proof.
  induction l as [|x l IH]; intros Hl; [done|].
  apply Forall_cons in Hl as [Hx Hl]. simpl. fold (JSArray.sort newest_first l).
  rewrite (IH Hl). destruct l as [|y l']; [done|].
  apply Forall_cons in Hl as [Hy _]. simpl.
  rewrite decide_False; [done|]. unfold JSArray.newest_first. lia.
Qed.

Lemma sort_stable (s : Z) l :
  filter (λ x, stamp x = s) (JSArray.sort newest_first l) = filter (λ x, stamp x = s) l.
Proof.
  rewrite filter_sort. apply (sort_one_stamp s).
  apply Forall_forall. intros x Hx. by apply list_elem_of_filter in Hx as [Hx _].
Qed.

End by_stamp.
End JSArrayFacts.

(** ** v2: [TTLCache] *)
Module TTLCacheFacts.
Import TTLCache.

Section facts.
Context `{LocalStorage} `{JSON CacheEntry}.
Implicit Types (st : t) (key k : string) (now : Z) (c : list (string * CacheEntry)).

Lemma cleanup_fold_v2 ks st :
  let st' := foldl (λ st key,
                      log EXPIRED ("Cleaned up expired key: " +:+ key)
                          (with_cache (JSMap.delete key (cache st)) st)) st ks in
  cache st' = filter (λ kv, kv.1 ∉ ks) (cache st)
  ∧ config st' = config st
  ∧ browser st' = browser st
  ∧ logCallback st' = logCallback st ++ (expired_event <$> ks).
Proof.
  revert st. induction ks as [|k ks IH]; intros st; simpl.
  - split_and!; [|done|done|by rewrite app_nil_r].
    symmetry. apply filter_all. intros x _. apply not_elem_of_nil.
  - destruct (IH (log EXPIRED ("Cleaned up expired key: " +:+ k)
                      (with_cache (JSMap.delete k (cache st)) st)))
      as (Hc & Hcfg & Hb & Hl).
    split_and!; [|done|done|].
    + rewrite Hc. simpl. unfold JSMap.delete. rewrite list_filter_filter.
      apply filter_ext_in. intros x _. rewrite not_elem_of_cons. tauto.
    + rewrite Hl. simpl. by rewrite <- app_assoc.
Qed.

Lemma cache_cleanupExpired_v2 now st :
  JSMap.wf (cache st) →
  cache (cleanupExpired now st) = filter (λ kv, now < expiresAt kv.2) (cache st).
Proof.
  intros Hwf. unfold cleanupExpired.
  destruct (cleanup_fold_v2 (toDelete now (cache st)) st) as (-> & _).
  apply filter_ext_in. intros [k e] Hin. simpl. unfold toDelete. split.
  - intros Hn. destruct (decide (now < expiresAt e)) as [|Hge]; [done|].
    exfalso. apply Hn. apply list_elem_of_fmap. exists (k, e). split; [done|].
    apply list_elem_of_filter. split; [|done]. unfold isExpired. simpl. lia.
  - intros Hlt [[k' e'] [Hk [Hexp Hin']%list_elem_of_filter]]%list_elem_of_fmap.
    simpl in *. subst k'.
    apply (JSMapFacts.map_elem_get_Some _ _ _ Hwf) in Hin, Hin'.
    assert (e = e') as <- by congruence. unfold isExpired in Hexp. lia.
Qed.

Lemma config_cleanupExpired_v2 now st : config (cleanupExpired now st) = config st.
Proof. unfold cleanupExpired. by destruct (cleanup_fold_v2 (toDelete now (cache st)) st) as (_ & -> & _). Qed.

Lemma logCallback_cleanupExpired_v2 now st :
  logCallback (cleanupExpired now st)
  = logCallback st ++ (expired_event <$> toDelete now (cache st)).
Proof. unfold cleanupExpired. by destruct (cleanup_fold_v2 (toDelete now (cache st)) st) as (_ & _ & _ & ->). Qed.

Lemma wf_cleanupExpired_v2 now st : JSMap.wf (cache st) → JSMap.wf (cache (cleanupExpired now st)).
Proof. intros Hwf. rewrite cache_cleanupExpired_v2 by done. by apply JSMapFacts.map_wf_filter. Qed.

Lemma cache_saveToStorage_v2 st : cache (saveToStorage st) = cache st.
Proof. unfold saveToStorage. by destruct (setItem _ _ _). Qed.

Lemma config_saveToStorage_v2 st : config (saveToStorage st) = config st.
Proof. unfold saveToStorage. by destruct (setItem _ _ _). Qed.

Lemma calls_saveToStorage_v2 st :
  calls (browser (saveToStorage st)) =
  calls (browser st) ++ [SetItem (storageKey (config st)) (JSON_stringify (cache st))].
Proof. unfold saveToStorage. by destruct (setItem _ _ _). Qed.

Lemma logCallback_saveToStorage_v2 st :
  ∃ ev, logCallback (saveToStorage st) = logCallback st ++ [ev].
Proof. unfold saveToStorage. destruct (setItem _ _ _); by eexists. Qed.

(** *** [get] *)

Lemma get_returns_v2 now key st v :
  (get now key st).1 = Some v ↔
  ∃ e, JSMap.get key (cache st) = Some e ∧ value e = v ∧ now < expiresAt e.
Proof.
  unfold get. destruct (JSMap.get key (cache st)) as [e|]; simpl.
  - destruct (decide (isExpired now e)) as [He|He]; unfold isExpired in He; simpl.
    + split; [done|]. intros (e' & [= <-] & _ & ?). lia.
    + split.
      * intros [= <-]. exists e. split_and!; [done|done|lia].
      * by intros (e' & [= <-] & <- & _).
  - split; [done|]. by intros (e' & ? & _).
Qed.

Lemma get_expired_v2 now key st e :
  JSMap.get key (cache st) = Some e → expiresAt e ≤ now →
  let r := get now key st in
  r.1 = None
  ∧ cache r.2 = JSMap.delete key (cache st)
  ∧ ∃ ev, logCallback r.2
          = logCallback st ++ [mkLog EXPIRED ("Key expired and removed: " +:+ key); ev].
Proof.
  intros Hg Hexp. unfold get. rewrite Hg.
  rewrite decide_True by (unfold isExpired; lia). cbn [fst snd].
  rewrite cache_saveToStorage_v2. split_and!; [done|done|].
  destruct (logCallback_saveToStorage_v2
              (log EXPIRED ("Key expired and removed: " +:+ key)
                   (with_cache (JSMap.delete key (cache st)) st))) as [ev ->].
  exists ev. cbn. by rewrite <- app_assoc.
Qed.

Lemma getAll_sort_v2 st : getAll st = JSArray.sort (JSArray.newest_first stamp) (cache st).
Proof. done. Qed.

Lemma getAll_Permutation_v2 st : getAll st ≡ₚ cache st.
Proof. rewrite getAll_sort_v2. apply JSArrayFacts.sort_Permutation. Qed.

Lemma getAll_descending_v2 st : JSArray.descending stamp (getAll st).
Proof. rewrite getAll_sort_v2. apply JSArrayFacts.sort_descending. Qed.

(** Replacing the entry of a resident key keeps the [Map] around it. *)
Lemma set_split_v2 c key e v :
  JSMap.wf c → JSMap.get key c = Some e →
  ∃ l1 l2, c = l1 ++ (key, e) :: l2 ∧ JSMap.set key v c = l1 ++ (key, v) :: l2
           ∧ key ∉ JSMap.keys (l1 ++ l2).
Proof.
  unfold JSMap.wf, JSMap.keys. induction c as [|[k x] c IH]; simpl; [done|].
  intros [Hk Hnd]%NoDup_cons. destruct (decide (k = key)) as [->|Hne].
  - intros [= ->]. by exists [], c.
  - intros Hg. destruct (IH Hnd Hg) as (l1 & l2 & -> & -> & Hn).
    exists ((k, x) :: l1), l2. split_and!; [done|done|].
    csimpl. rewrite not_elem_of_cons. done.
Qed.

Lemma get_live_v2 now key st e :
  JSMap.wf (cache st) →
  JSMap.get key (cache st) = Some e → now < expiresAt e →
  let r := get now key st in
  r.1 = Some (value e)
  ∧ cache r.2 = JSMap.set key (mkEntry (value e) (expiresAt e) now) (cache st)
  ∧ last (logCallback r.2) = Some (mkLog HIT ("Cache hit for key: " +:+ key))
  ∧ ((∀ k' e', (k', e') ∈ cache st → k' ≠ key → lastAccessAt e' < now) →
     head (getAll r.2).*1 = Some key).
Proof.
  intros Hwf Hg Hlive. unfold get. rewrite Hg.
  rewrite decide_False by (unfold isExpired; lia). cbn [fst snd].
  split_and!; [done|done|by cbn; rewrite last_snoc|].
  intros Hold. rewrite getAll_sort_v2. cbn [cache log with_cache].
  destruct (set_split_v2 _ _ _ (mkEntry (value e) (expiresAt e) now) Hwf Hg)
    as (l1 & l2 & Hc & -> & Hn).
  assert (head (JSArray.sort (JSArray.newest_first stamp)
                  (l1 ++ (key, mkEntry (value e) (expiresAt e) now) :: l2))
          = Some (key, mkEntry (value e) (expiresAt e) now)) as Hhead.
  { apply JSArrayFacts.head_sort.
    intros [k' e'] Hin. unfold stamp. simpl. apply (Hold k' e').
    - rewrite Hc. apply elem_of_app in Hin as [?|?]; apply elem_of_app; [by left|].
      right. by apply list_elem_of_further.
    - intros ->. apply Hn. by apply (list_elem_of_fmap_2 fst) in Hin. }
  destruct (JSArray.sort _ _) as [|first others]; [done|].
  simpl in Hhead. by injection Hhead as ->.
Qed.

Lemma get_absent_v2 now key st :
  JSMap.get key (cache st) = None →
  get now key st = (None, log MISS ("Cache miss for key: " +:+ key) st).
Proof. intros Hg. unfold get. by rewrite Hg. Qed.

(** *** The scan for the oldest entry *)

Lemma lru_fold_v2 acc seen rest :
  oldest_so_far acc seen → oldest_so_far (foldl lru_step acc rest) (seen ++ rest).
Proof.
  revert acc seen. induction rest as [|[k e] rest IH]; intros acc seen Hacc; simpl.
  - by rewrite app_nil_r.
  - replace (seen ++ (k, e) :: rest) with ((seen ++ [(k, e)]) ++ rest)
      by (by rewrite <- app_assoc).
    apply IH. destruct acc as [[lk|] [oldest|]]; simpl in *; try done.
    + destruct Hacc as [(e0 & Hin & Ho) Hmin].
      destruct (decide (lastAccessAt e < oldest)); simpl.
      * split; [exists e; split; [apply elem_of_app; right; apply list_elem_of_here | done]|].
        intros k' e' [Hin'|Heq%list_elem_of_singleton]%elem_of_app;
          [|injection Heq as -> ->; lia].
        specialize (Hmin _ _ Hin'). lia.
      * split; [exists e0; split; [apply elem_of_app; by left | done]|].
        intros k' e' [Hin'|Heq%list_elem_of_singleton]%elem_of_app;
          [eauto | injection Heq as -> ->; lia].
    + subst seen. simpl. split; [exists e; split; [apply list_elem_of_here | done]|].
      intros k' e' Heq%list_elem_of_singleton. injection Heq as -> ->. lia.
Qed.

(** On a non-empty [Map] the scan returns a resident key whose stamp no other
    entry undercuts. *)
Lemma find_lru_oldest_v2 c :
  c ≠ [] →
  ∃ k e, find_lru c = Some k ∧ (k, e) ∈ c
         ∧ ∀ k' e', (k', e') ∈ c → lastAccessAt e ≤ lastAccessAt e'.
Proof.
  intros Hne. unfold find_lru.
  pose proof (lru_fold_v2 (None, None) [] c eq_refl) as Hfold. simpl in Hfold.
  destruct (foldl lru_step (None, None) c) as [[k|] [oldest|]]; simpl in *; try done.
  destruct Hfold as [(e & Hin & <-) Hmin]. by exists k, e.
Qed.

End facts.
End TTLCacheFacts.

Module V2Set.
Import TTLCache TTLCacheFacts.

Section set.
Context `{LocalStorage} `{JSON CacheEntry}.
Implicit Types (st : t) (key k : string) (now : Z) (c : list (string * CacheEntry)).

Lemma truthy_key_Some_v2 k : truthy_key (Some k) = true ↔ k ≠ EmptyString.
Proof. simpl. apply bool_decide_eq_true. Qed.

Lemma set_eq_v2 t_sweep now key val ttlMs st :
  set t_sweep now key val ttlMs st
  = let ae := after_eviction t_sweep key st in
    let ttl := default (defaultTTLms (config st)) ttlMs in
    saveToStorage
      (log SET ("Set key: " +:+ key +:+ ", TTL: " +:+ pretty ttl +:+ "ms")
           (with_cache (JSMap.set key (mkEntry val (now + ttl) now) (cache ae)) ae)).
Proof. unfold set, after_eviction. by rewrite config_cleanupExpired_v2. Qed.

Lemma cache_set_v2 t_sweep now key val ttlMs st :
  cache (set t_sweep now key val ttlMs st)
  = JSMap.set key (mkEntry val (now + default (defaultTTLms (config st)) ttlMs) now)
              (cache (after_eviction t_sweep key st)).
Proof.
  unfold set, after_eviction. rewrite cache_saveToStorage_v2. cbn [cache config with_cache log].
  by rewrite config_cleanupExpired_v2.
Qed.

Lemma config_evict_v2 st : config (evict st) = config st.
Proof. unfold evict. by destruct (truthy_key _). Qed.

Lemma cache_evict_sublist_v2 st : cache (evict st) `sublist_of` cache st.
Proof. unfold evict. destruct (truthy_key _); [apply sublist_filter | done]. Qed.

Lemma after_eviction_sublist_v2 t_sweep key st :
  JSMap.wf (cache st) → cache (after_eviction t_sweep key st) `sublist_of` cache st.
Proof.
  intros Hwf. unfold after_eviction.
  assert (cache (cleanupExpired t_sweep st) `sublist_of` cache st) as Hs
    by (rewrite cache_cleanupExpired_v2 by done; apply sublist_filter).
  destruct (_ && _); [|done]. etrans; [apply cache_evict_sublist_v2 | done].
Qed.

Lemma wf_sublist_v2 (m' m : list (string * CacheEntry)) :
  m' `sublist_of` m → JSMap.wf m → JSMap.wf m'.
Proof.
  unfold JSMap.wf, JSMap.keys. intros Hsub Hnd.
  eapply sublist_NoDup; [done|]. by apply fmap_sublist.
Qed.

Lemma wf_set_v2 t_sweep now key val ttlMs st :
  JSMap.wf (cache st) → JSMap.wf (cache (set t_sweep now key val ttlMs st)).
Proof.
  intros Hwf. rewrite cache_set_v2. apply JSMapFacts.map_wf_set.
  eapply wf_sublist_v2; [by apply after_eviction_sublist_v2 | done].
Qed.

Lemma get_set_v2 t_sweep now key val ttlMs st :
  JSMap.get key (cache (set t_sweep now key val ttlMs st))
  = Some (mkEntry val (now + default (defaultTTLms (config st)) ttlMs) now).
Proof. rewrite cache_set_v2. apply JSMapFacts.map_get_set_eq. Qed.

(** When [set] has to make room: the scan names a resident key with the
    oldest stamp, and unless that key is the empty string it is the one entry
    removed and the one an [EVICTED] event names. *)
Lemma set_evicting_v2 t_sweep now key val ttlMs st :
  JSMap.wf (cache st) → 1 ≤ maxSize (config st) →
  let s1 := cleanupExpired t_sweep st in
  JSMap.has key (cache s1) = false →
  JSMap.size (cache s1) >= maxSize (config st) →
  ∃ lruKey lruEntry,
    (lruKey, lruEntry) ∈ cache s1
    ∧ (∀ k' e', (k', e') ∈ cache s1 → lastAccessAt lruEntry ≤ lastAccessAt e')
    ∧ (lruKey ≠ EmptyString →
       cache (set t_sweep now key val ttlMs st)
       = JSMap.delete lruKey (cache s1)
         ++ [(key, mkEntry val (now + default (defaultTTLms (config st)) ttlMs) now)]
       ∧ ∃ ev, logCallback (set t_sweep now key val ttlMs st)
               = logCallback s1
                 ++ [mkLog EVICTED ("Evicted LRU key: " +:+ lruKey);
                     mkLog SET ("Set key: " +:+ key +:+ ", TTL: "
                                  +:+ pretty (default (defaultTTLms (config st)) ttlMs)
                                  +:+ "ms");
                     ev]).
Proof.
  intros Hwf Hmax s1 Hhas Hfull.
  assert (config s1 = config st) as Hcfg by apply config_cleanupExpired_v2.
  assert (cache s1 ≠ []) as Hne.
  { intros Hnil. rewrite Hnil in Hfull. unfold JSMap.size in Hfull. simpl in Hfull. lia. }
  destruct (find_lru_oldest_v2 (cache s1) Hne) as (k & e & Hlru & Hin & Hmin).
  exists k, e. split_and!; [done|done|]. intros Hk.
  assert (after_eviction t_sweep key st
          = log EVICTED ("Evicted LRU key: " +:+ k)
                (with_cache (JSMap.delete k (cache s1)) s1)) as Hev.
  { unfold after_eviction. fold s1. rewrite Hhas, Hcfg.
    rewrite bool_decide_eq_true_2 by done. cbn [negb andb].
    unfold evict. rewrite Hlru. by rewrite (proj2 (truthy_key_Some_v2 k) Hk). }
  split.
  - rewrite cache_set_v2, Hev. cbn [cache log with_cache].
    apply JSMapFacts.map_set_absent. rewrite JSMapFacts.map_get_delete_ne.
    + by apply JSMapFacts.map_has_false.
    + intros ->. apply JSMapFacts.map_has_false in Hhas.
      apply JSMapFacts.map_get_None in Hhas. apply Hhas.
      by apply (list_elem_of_fmap_2 fst) in Hin.
  - rewrite set_eq_v2. cbn zeta. rewrite Hev.
    unfold saveToStorage. destruct (setItem _ _ _); cbn; eexists; by rewrite <- !app_assoc.
Qed.

(** With the empty key not resident, [set] never leaves more entries than
    the larger of [maxSize] and the count it found. *)
Lemma size_set_v2 t_sweep now key val ttlMs st :
  JSMap.wf (cache st) → 1 ≤ maxSize (config st) →
  JSMap.has EmptyString (cache st) = false →
  JSMap.size (cache (set t_sweep now key val ttlMs st))
  ≤ Z.max (maxSize (config st)) (JSMap.size (cache st)).
Proof.
  intros Hwf Hmax Hempty. rewrite cache_set_v2. unfold JSMap.size.
  rewrite JSMapFacts.map_length_set. unfold after_eviction.
  set (s1 := cleanupExpired t_sweep st).
  assert (config s1 = config st) as Hcfg by apply config_cleanupExpired_v2.
  assert (cache s1 = filter (λ kv, t_sweep < expiresAt kv.2) (cache st)) as Hc1
    by (by apply cache_cleanupExpired_v2).
  assert (length (cache s1) ≤ length (cache st))%nat as Hlen
    by (rewrite Hc1; apply length_filter).
  assert (JSMap.wf (cache s1)) as Hwf1 by (by apply wf_cleanupExpired_v2).
  destruct (JSMap.has key (cache s1)) eqn:Hhas; cbn [negb andb].
  - rewrite Hhas. lia.
  - rewrite Hcfg. destruct (bool_decide (JSMap.size (cache s1) >= maxSize (config st))) eqn:Hfull.
    + apply bool_decide_eq_true in Hfull. unfold JSMap.size in Hfull.
      assert (cache s1 ≠ []) as Hne.
      { intros Hnil. rewrite Hnil in Hfull. simpl in Hfull. lia. }
      destruct (find_lru_oldest_v2 (cache s1) Hne) as (k & e & Hlru & Hin & _).
      assert (k ≠ EmptyString) as Hk.
      { intros ->. apply JSMapFacts.map_has_false, JSMapFacts.map_get_None in Hempty.
        apply Hempty. apply (list_elem_of_fmap_2 fst) in Hin.
        eapply elem_of_sublist; [exact Hin|]. rewrite Hc1. apply JSMapFacts.map_keys_filter. }
      unfold evict. rewrite Hlru, (proj2 (truthy_key_Some_v2 k) Hk). cbn [cache log with_cache].
      assert (JSMap.has k (cache s1) = true) as Hk1
        by (apply JSMapFacts.map_has_true; by apply (list_elem_of_fmap_2 fst) in Hin).
      pose proof (JSMapFacts.map_length_delete_present _ k Hwf1 Hk1) as Hdel.
      change (default EmptyString (Some k)) with k.
      destruct (JSMap.has key (JSMap.delete k (cache s1))); lia.
    + apply bool_decide_eq_false in Hfull. unfold JSMap.size in Hfull.
      rewrite Hhas. lia.
Qed.

(** A [set] at a reading later than every other stamp puts its key first in
    [getAll]. *)
Lemma set_head_getAll_v2 t_sweep now key val ttlMs st :
  JSMap.wf (cache st) →
  (∀ k' e', (k', e') ∈ cache st → k' ≠ key → lastAccessAt e' < now) →
  head (getAll (set t_sweep now key val ttlMs st)).*1 = Some key.
Proof.
  intros Hwf Hold. rewrite getAll_sort_v2, cache_set_v2.
  set (c2 := cache (after_eviction t_sweep key st)).
  set (entry := mkEntry val _ now).
  assert (c2 `sublist_of` cache st) as Hsub by (by apply after_eviction_sublist_v2).
  assert (JSMap.wf c2) as Hwf2 by (by eapply wf_sublist_v2).
  assert (∃ l1 l2, JSMap.set key entry c2 = l1 ++ (key, entry) :: l2
                   ∧ ∀ kv, kv ∈ l1 ++ l2 → kv ∈ c2 ∧ kv.1 ≠ key) as (l1 & l2 & -> & Hrest).
  { destruct (JSMap.get key c2) as [e|] eqn:Hg.
    - destruct (set_split_v2 c2 key e entry Hwf2 Hg) as (l1 & l2 & Hc & Hs & Hn).
      exists l1, l2. split; [done|]. intros kv Hkv. split.
      + rewrite Hc. apply elem_of_app in Hkv as [?|?]; apply elem_of_app; [by left|].
        right. by apply list_elem_of_further.
      + intros <-. apply Hn. by apply (list_elem_of_fmap_2 fst) in Hkv.
    - exists c2, []. rewrite app_nil_r. split; [by apply JSMapFacts.map_set_absent|].
      intros kv Hkv. split; [done|]. intros <-.
      apply JSMapFacts.map_get_None in Hg. apply Hg. by apply (list_elem_of_fmap_2 fst) in Hkv. }
  assert (head (JSArray.sort (JSArray.newest_first stamp) (l1 ++ (key, entry) :: l2))
          = Some (key, entry)) as Hhead.
  { apply JSArrayFacts.head_sort. intros [k' e'] Hin.
    destruct (Hrest _ Hin) as [Hin2 Hne]. unfold stamp. simpl in *.
    apply (Hold k' e'); [|done]. eapply elem_of_sublist; done. }
  destruct (JSArray.sort _ _) as [|first others]; [done|].
  simpl in Hhead. by injection Hhead as ->.
Qed.

(** *** [delete] *)

Lemma delete_absent_v2 key st :
  JSMap.get key (cache st) = None → delete key st = (tt, st).
Proof.
  intros Hg. unfold delete. rewrite (proj2 (JSMapFacts.map_has_false _ _) Hg).
  rewrite JSMapFacts.map_delete_absent by done. by destruct st.
Qed.

Lemma delete_present_v2 key st :
  JSMap.has key (cache st) = true →
  cache (delete key st).2 = JSMap.delete key (cache st)
  ∧ calls (browser (delete key st).2)
    = calls (browser st)
      ++ [SetItem (storageKey (config st)) (JSON_stringify (JSMap.delete key (cache st)))].
Proof.
  intros Hhas. unfold delete. rewrite Hhas. cbn [snd].
  by rewrite cache_saveToStorage_v2, calls_saveToStorage_v2.
Qed.

End set.
End V2Set.

Module V2Store.
Import TTLCache TTLCacheFacts.

Section store.
Context `{LocalStorage} `{JSON CacheEntry}.
Implicit Types (st : t) (key k : string) (now : Z) (c data : list (string * CacheEntry)).

Lemma load_loop_v2 now data c loaded expired :
  (foldl (load_step now) (c, loaded, expired) data).1.1
  = JSMap.set_all c (filter (λ kv, now < expiresAt kv.2) data).
Proof.
  revert c loaded expired. induction data as [|[k e] data IH]; intros c loaded expired; [done|].
  rewrite filter_cons. simpl. unfold isExpired.
  destruct (decide (now >= expiresAt e)), (decide (now < expiresAt e)); try lia; apply IH.
Qed.

Lemma load_loop_readable_v2 now (items : list (Item CacheEntry)) acc :
  load_loop now items acc = (foldl (load_step now) acc (readable items), fault items).
Proof.
  revert acc. induction items as [|[kv|error] items IH]; intros acc; [done| |done].
  simpl. apply IH.
Qed.

Lemma calls_new_v2 now cfg b :
  calls (browser (new now cfg b)) = calls b ++ [GetItem (storageKey cfg)].
Proof.
  unfold new, loadFromStorage. cbn [config browser with_browser localStorage calls].
  destruct (getItem _ _) as [json|]; [|done].
  destruct (decide _); [done|]. destruct (JSON_parse json); [|done].
  rewrite load_loop_readable_v2. destruct (foldl _ _ _) as [[? ?] ?]. by destruct (fault _).
Qed.

Lemma cache_new_v2 now cfg b :
  cache (new now cfg b) =
    match stored cfg b with
    | None => []
    | Some json =>
        if decide (json = EmptyString) then []
        else match JSON_parse json with
             | Throws _ => []
             | Returns items =>
                 match fault items with
                 | Some _ => []
                 | None =>
                     JSMap.set_all [] (filter (λ kv, now < expiresAt kv.2) (readable items))
                 end
             end
    end.
Proof.
  unfold new, loadFromStorage, stored. cbn [config browser with_browser localStorage calls].
  destruct (getItem _ _) as [json|]; [|done].
  destruct (decide _); [done|]. destruct (JSON_parse json) as [items|]; [|done].
  cbn [cache with_cache]. rewrite load_loop_readable_v2.
  pose proof (load_loop_v2 now (readable items) [] 0%nat 0%nat) as Hloop.
  destruct (foldl _ _ _) as [[c ?] ?]. destruct (fault _); by cbn in *.
Qed.

Lemma logCallback_new_malformed_v2 now cfg b json error :
  stored cfg b = Some json → json ≠ EmptyString → JSON_parse json = Throws error →
  logCallback (new now cfg b)
  = [mkLog PARSE_ERROR ("Failed to load from storage (" +:+ error +:+ "), starting fresh")].
Proof.
  unfold new, loadFromStorage, stored. cbn [config browser with_browser localStorage calls].
  intros -> Hne ->. by rewrite decide_False.
Qed.

Lemma wf_new_v2 now cfg b : JSMap.wf (cache (new now cfg b)).
Proof.
  rewrite cache_new_v2. destruct (stored cfg b) as [json|]; [|apply NoDup_nil_2].
  destruct (decide _); [apply NoDup_nil_2|].
  destruct (JSON_parse json) as [items|]; [|apply NoDup_nil_2].
  destruct (fault items); [apply NoDup_nil_2|].
  apply JSMapFacts.map_wf_set_all, NoDup_nil_2.
Qed.

End store.
End V2Store.

(** * The claims *)

(** ** Two more facts about lists *)

Lemma filter_none {A} (P : A → Prop) `{∀ x, Decision (P x)} (l : list A) :
  (∀ x, x ∈ l → ¬ P x) → filter P l = [].
Proof.
  induction l as [|x l IH]; intros Hl; [done|].
  rewrite filter_cons_False by (apply Hl; left).
  apply IH. intros y Hy. apply Hl. by right.
Qed.

Lemma length_set_all {V} (m data : list (string * V)) :
  (length (JSMap.set_all m data) ≤ length m + length data)%nat.
Proof.
  revert m. induction data as [|[k v] data IH]; intros m; [cbn; lia|].
  unfold JSMap.set_all in *. cbn [foldl fst snd length].
  etransitivity; [apply IH|]. rewrite JSMapFacts.map_length_set.
  destruct (JSMap.has k m); lia.
Qed.

Lemma length_filter_split {A} (P Q : A → Prop) `{∀ x, Decision (P x)} `{∀ x, Decision (Q x)}
    (l : list A) :
  (∀ x, P x ↔ ¬ Q x) → (length (filter P l) + length (filter Q l) = length l)%nat.
Proof.
  intros HPQ. induction l as [|x l IH]; [done|].
  destruct (decide (P x)) as [HP|HP].
  - rewrite filter_cons_True by done. rewrite filter_cons_False by (by apply HPQ).
    cbn [length]. lia.
  - rewrite filter_cons_False by done.
    rewrite filter_cons_True by (destruct (decide (Q x)); [done|by apply HPQ in n]).
    cbn [length]. lia.
Qed.

(** ** What the engines write to the store, and when *)
Module V3Effects.
Import TTLLRUCache TTLLRUCacheFacts.

Section effects.
Context `{LocalStorage} `{JSON CacheEntry}.
Implicit Types (st : t) (key k : string) (now : Z).

Lemma browser_log st ty msg : browser (log ty msg st) = browser st.
Proof. done. Qed.

Lemma saveToStorage_returns st store' :
  setItem (localStorage (browser st)) (storageKey (config st)) (JSON_stringify (cache st))
    = Returns store' →
  saveToStorage st
  = log SAVED ("Persisted " +:+ pretty (length (cache st)) +:+ " entries to localStorage")
        (with_browser
           (mkBrowser store'
              (calls (browser st)
                 ++ [SetItem (storageKey (config st)) (JSON_stringify (cache st))])) st).
Proof. intros Hs. unfold saveToStorage. by rewrite Hs. Qed.

Lemma saveToStorage_throws st error :
  setItem (localStorage (browser st)) (storageKey (config st)) (JSON_stringify (cache st))
    = Throws error →
  saveToStorage st
  = log PARSE_ERROR ("Failed to save: " +:+ error)
        (with_browser
           (mkBrowser (localStorage (browser st))
              (calls (browser st)
                 ++ [SetItem (storageKey (config st)) (JSON_stringify (cache st))])) st).
Proof. intros Hs. unfold saveToStorage. by rewrite Hs. Qed.

(** The state [set] hands to [saveToStorage]. *)
Lemma set_saves t_sweep now key val ttlMs st :
  ∃ pre,
    set t_sweep now key val ttlMs st = saveToStorage pre
    ∧ browser pre = browser st
    ∧ config pre = config st
    ∧ last (onLog pre)
      = Some (mkLog SET ("Set key " +:+ quoted key +:+ " with TTL "
                           +:+ pretty (default (defaultTTLms (config st)) ttlMs) +:+ "ms")).
Proof.
  eexists. split; [reflexivity|].
  rewrite config_cleanupExpired_v3.
  split_and!.
  - cbn [browser log with_cache]. destruct (decide _); cbn [browser evict log with_cache];
      apply browser_cleanupExpired_v3.
  - cbn [config log with_cache]. destruct (decide _); cbn [config evict log with_cache];
      apply config_cleanupExpired_v3.
  - cbn [onLog log]. by rewrite last_snoc.
Qed.

Lemma toDelete_live now (c : list (string * CacheEntry)) :
  toDelete now (filter (λ kv, now < expiresAt kv.2) c) = [].
Proof.
  unfold toDelete. rewrite filter_none; [done|].
  intros [k e] [Hlive _]%list_elem_of_filter. unfold isExpired. simpl in *. lia.
Qed.

Lemma cleanupExpired_twice now st :
  JSMap.wf (cache st) → cleanupExpired now (cleanupExpired now st) = cleanupExpired now st.
Proof.
  intros Hwf. unfold cleanupExpired at 1.
  by rewrite (cache_cleanupExpired_v3 now st Hwf), toDelete_live.
Qed.

Lemma onLog_saveToStorage st : ∃ ev, onLog (saveToStorage st) = onLog st ++ [ev].
Proof. unfold saveToStorage. destruct (setItem _ _ _); by eexists. Qed.

Lemma load_counters now (data c : list (string * CacheEntry)) (loaded expired : nat) :
  foldl (load_step now) (c, loaded, expired) data
  = (JSMap.set_all c (filter (λ kv, now < expiresAt kv.2) data),
     (loaded + length (filter (λ kv, (now < expiresAt kv.2)%Z) data))%nat,
     (expired + length (filter (λ kv, (expiresAt kv.2 ≤ now)%Z) data))%nat).
Proof.
  revert c loaded expired. induction data as [|[k e] data IH]; intros c loaded expired.
  - cbn. by rewrite !Nat.add_0_r.
  - cbn [foldl]. unfold load_step at 2. cbn [fst snd].
    destruct (decide (now < expiresAt e)) as [Hlt|Hge].
    + rewrite IH, filter_cons_True by done. rewrite filter_cons_False by (simpl; lia).
      cbn [length]. unfold JSMap.set_all. cbn [foldl fst snd]. by rewrite Nat.add_succ_comm.
    + rewrite IH, filter_cons_False by done. rewrite filter_cons_True by (simpl; lia).
      cbn [length]. by rewrite Nat.add_succ_comm.
Qed.

Lemma onLog_new now cfg b :
  onLog (new now cfg b) =
    match stored cfg b with
    | None => []
    | Some json =>
        if decide (json = EmptyString) then []
        else match JSON_parse json with
             | Throws error =>
                 [mkLog PARSE_ERROR ("Failed to parse localStorage: " +:+ error)]
             | Returns items =>
                 match fault items with
                 | Some error =>
                     [mkLog PARSE_ERROR ("Failed to parse localStorage: " +:+ error)]
                 | None =>
                     let data := readable items in
                     [mkLog LOADED
                        ("Loaded "
                           +:+ pretty (length (filter (λ kv, now < expiresAt kv.2) data))
                           +:+ " entries from localStorage ("
                           +:+ pretty (length (filter (λ kv, expiresAt kv.2 ≤ now) data))
                           +:+ " expired)")]
                 end
             end
    end.
Proof.
  unfold new, loadFromStorage, stored.
  cbn [browser config with_browser localStorage cache].
  destruct (getItem _ _) as [json|]; [|done].
  destruct (decide _); [done|].
  destruct (JSON_parse json) as [items|error]; [|done].
  rewrite V3Store.load_loop_readable_v3, load_counters. by destruct (fault items).
Qed.

Lemma cache_stored now cfg b (c : list (string * CacheEntry)) :
  JSMap.wf c → stored cfg b = Some (JSON_stringify c) →
  cache (new now cfg b) = filter (λ kv, now < expiresAt kv.2) c.
Proof.
  intros Hwf Hst. rewrite V3Store.cache_new_v3, Hst.
  destruct (decide _) as [He|_]; [by apply JSON_stringify_truthy in He|].
  rewrite JSON_parse_stringify, ?ItemFacts.fault_pairs, ItemFacts.readable_pairs.
  apply JSMapFacts.map_set_all_fresh.
  rewrite app_nil_l. by apply JSMapFacts.map_wf_filter.
Qed.

End effects.
End V3Effects.

Module V2Effects.
Import TTLCache TTLCacheFacts.

Section effects.
Context `{LocalStorage} `{JSON CacheEntry}.
Implicit Types (st : t) (key k : string) (now : Z).

Lemma browser_cleanupExpired_v2 now st : browser (cleanupExpired now st) = browser st.
Proof. apply (cleanup_fold_v2 (toDelete now (cache st)) st). Qed.

Lemma saveToStorage_returns_v2 st store' :
  setItem (localStorage (browser st)) (storageKey (config st)) (JSON_stringify (cache st))
    = Returns store' →
  saveToStorage st
  = log SAVED ("Persisted " +:+ pretty (length (cache st)) +:+ " entries to localStorage")
        (with_browser
           (mkBrowser store'
              (calls (browser st)
                 ++ [SetItem (storageKey (config st)) (JSON_stringify (cache st))])) st).
Proof. intros Hs. unfold saveToStorage. by rewrite Hs. Qed.

Lemma saveToStorage_throws_v2 st error :
  setItem (localStorage (browser st)) (storageKey (config st)) (JSON_stringify (cache st))
    = Throws error →
  saveToStorage st
  = log PARSE_ERROR ("Failed to save: " +:+ error)
        (with_browser
           (mkBrowser (localStorage (browser st))
              (calls (browser st)
                 ++ [SetItem (storageKey (config st)) (JSON_stringify (cache st))])) st).
Proof. intros Hs. unfold saveToStorage. by rewrite Hs. Qed.

Lemma browser_evict_v2 st : browser (evict st) = browser st.
Proof. unfold evict. by destruct (truthy_key _). Qed.

Lemma browser_after_eviction_v2 t_sweep key st :
  browser (after_eviction t_sweep key st) = browser st.
Proof.
  unfold after_eviction. destruct (_ && _); [rewrite browser_evict_v2|];
    apply browser_cleanupExpired_v2.
Qed.

Lemma config_after_eviction_v2 t_sweep key st :
  config (after_eviction t_sweep key st) = config st.
Proof.
  unfold after_eviction. destruct (_ && _); [rewrite V2Set.config_evict_v2|];
    apply config_cleanupExpired_v2.
Qed.

Lemma set_saves_v2 t_sweep now key val ttlMs st :
  ∃ pre,
    set t_sweep now key val ttlMs st = saveToStorage pre
    ∧ browser pre = browser st
    ∧ config pre = config st
    ∧ last (logCallback pre)
      = Some (mkLog SET ("Set key: " +:+ key +:+ ", TTL: "
                           +:+ pretty (default (defaultTTLms (config st)) ttlMs) +:+ "ms")).
Proof.
  eexists. split; [apply V2Set.set_eq_v2|]. cbn zeta. split_and!.
  - cbn [browser log with_cache]. apply browser_after_eviction_v2.
  - cbn [config log with_cache]. apply config_after_eviction_v2.
  - cbn [logCallback log]. by rewrite last_snoc.
Qed.

Lemma toDelete_live_v2 now (c : list (string * CacheEntry)) :
  toDelete now (filter (λ kv, now < expiresAt kv.2) c) = [].
Proof.
  unfold toDelete. rewrite filter_none; [done|].
  intros [k e] [Hlive _]%list_elem_of_filter. unfold isExpired. simpl in *. lia.
Qed.

Lemma cleanupExpired_twice_v2 now st :
  JSMap.wf (cache st) → cleanupExpired now (cleanupExpired now st) = cleanupExpired now st.
Proof.
  intros Hwf. unfold cleanupExpired at 1.
  by rewrite (cache_cleanupExpired_v2 now st Hwf), toDelete_live_v2.
Qed.

Lemma load_counters_v2 now (data c : list (string * CacheEntry)) (loaded expired : nat) :
  foldl (load_step now) (c, loaded, expired) data
  = (JSMap.set_all c (filter (λ kv, now < expiresAt kv.2) data),
     (loaded + length (filter (λ kv, (now < expiresAt kv.2)%Z) data))%nat,
     (expired + length (filter (λ kv, (expiresAt kv.2 ≤ now)%Z) data))%nat).
Proof.
  revert c loaded expired. induction data as [|[k e] data IH]; intros c loaded expired.
  - cbn. by rewrite !Nat.add_0_r.
  - cbn [foldl]. unfold load_step at 2. cbn [fst snd].
    destruct (decide (isExpired now e)) as [Hge|Hlt]; unfold isExpired in *.
    + rewrite IH, filter_cons_False by (simpl; lia). rewrite filter_cons_True by (simpl; lia).
      cbn [length]. by rewrite Nat.add_succ_comm.
    + rewrite IH, filter_cons_True by (simpl; lia). rewrite filter_cons_False by (simpl; lia).
      cbn [length]. unfold JSMap.set_all. cbn [foldl fst snd]. by rewrite Nat.add_succ_comm.
Qed.

Lemma logCallback_new_v2 now cfg b :
  logCallback (new now cfg b) =
    match stored cfg b with
    | None => [mkLog LOADED "No stored data found, starting fresh"]
    | Some json =>
        if decide (json = EmptyString)
        then [mkLog LOADED "No stored data found, starting fresh"]
        else match JSON_parse json with
             | Throws error =>
                 [mkLog PARSE_ERROR
                    ("Failed to load from storage (" +:+ error +:+ "), starting fresh")]
             | Returns items =>
                 match fault items with
                 | Some error =>
                     [mkLog PARSE_ERROR
                        ("Failed to load from storage (" +:+ error +:+ "), starting fresh")]
                 | None =>
                     let data := readable items in
                     [mkLog LOADED
                        ("Loaded "
                           +:+ pretty (length (filter (λ kv, now < expiresAt kv.2) data))
                           +:+ " entries from localStorage ("
                           +:+ pretty (length (filter (λ kv, expiresAt kv.2 ≤ now) data))
                           +:+ " expired entries discarded)")]
                 end
             end
    end.
Proof.
  unfold new, loadFromStorage, stored.
  cbn [browser config with_browser localStorage cache].
  destruct (getItem _ _) as [json|]; [|done].
  destruct (decide _); [done|].
  destruct (JSON_parse json) as [items|error]; [|done].
  rewrite V2Store.load_loop_readable_v2, load_counters_v2. by destruct (fault items).
Qed.

Lemma stored_saveToStorage_v2 st cfg store' :
  setItem (localStorage (browser st)) (storageKey (config st)) (JSON_stringify (cache st))
    = Returns store' →
  storageKey cfg = storageKey (config st) →
  stored cfg (browser (saveToStorage st)) = Some (JSON_stringify (cache st)).
Proof.
  intros Hs Hk. unfold stored. rewrite (saveToStorage_returns_v2 st store' Hs), Hk.
  cbn [browser log with_browser localStorage]. by apply (getItem_setItem _ _ _ _ Hs).
Qed.

Lemma cache_stored_v2 now cfg b c :
  JSMap.wf c → stored cfg b = Some (JSON_stringify c) →
  cache (new now cfg b) = filter (λ kv, now < expiresAt kv.2) c.
Proof.
  intros Hwf Hst. rewrite V2Store.cache_new_v2, Hst.
  destruct (decide _) as [He|_]; [by apply JSON_stringify_truthy in He|].
  rewrite JSON_parse_stringify, ?ItemFacts.fault_pairs, ItemFacts.readable_pairs.
  apply JSMapFacts.map_set_all_fresh.
  rewrite app_nil_l. by apply JSMapFacts.map_wf_filter.
Qed.

End effects.
End V2Effects.

(** ** The stable sort and the newest stamp *)
Module JSArrayMore.

Section by_stamp.
Context {A : Type} (stamp : A → Z).

#[local] Abbreviation sort := (JSArray.sort (JSArray.newest_first stamp)).

(** An element newer than all those before it and no older than those after
    it comes out first. *)
Lemma sort_newest_inside l1 x l2 :
  (∀ y, y ∈ l1 → stamp y < stamp x) → (∀ y, y ∈ l2 → stamp y ≤ stamp x) →
  sort (l1 ++ x :: l2) = x :: sort (l1 ++ l2).
Proof.
  intros H1 H2. induction l1 as [|y l1 IH].
  - cbn [app]. change (sort (x :: l2)) with (JSArray.insert (JSArray.newest_first stamp) x (sort l2)).
    apply JSArrayFacts.insert_newest. intros y Hy. apply H2.
    by rewrite <- (JSArrayFacts.sort_Permutation stamp l2).
  - cbn [app].
    change (sort (y :: l1 ++ x :: l2))
      with (JSArray.insert (JSArray.newest_first stamp) y (sort (l1 ++ x :: l2))).
    rewrite IH by (intros z Hz; apply H1; by right).
    cbn [JSArray.insert]. rewrite decide_True; [done|].
    unfold JSArray.newest_first. specialize (H1 y (list_elem_of_here _ _)). lia.
Qed.

Lemma descending_last l x :
  JSArray.descending stamp l → last l = Some x → ∀ y, y ∈ l → stamp x ≤ stamp y.
Proof.
  unfold JSArray.descending. induction 1 as [|a l Hs IH Hall]; intros Hlast y Hy; [done|].
  destruct l as [|b l].
  - injection Hlast as <-. by apply list_elem_of_singleton in Hy as ->.
  - change (last (a :: b :: l)) with (last (b :: l)) in Hlast.
    apply elem_of_cons in Hy as [->|Hy]; [|by apply IH].
    rewrite Forall_forall in Hall. apply Hall.
    destruct (last_Some (b :: l) x) as [[l' Hl'] _]; [done|]. rewrite Hl'.
    apply elem_of_app. right. apply list_elem_of_here.
Qed.

End by_stamp.
End JSArrayMore.

Lemma set_Permutation {V} (c : list (string * V)) key v :
  JSMap.wf c → JSMap.set key v c ≡ₚ (key, v) :: JSMap.delete key c.
Proof.
  induction c as [|[k x] c IH]; intros Hwf; [done|].
  unfold JSMap.wf, JSMap.keys in Hwf. csimpl in Hwf. apply NoDup_cons in Hwf as [Hk Hwf].
  cbn [JSMap.set]. destruct (decide (k = key)) as [->|Hne].
  - unfold JSMap.delete. rewrite filter_cons_False by (simpl; by intros ?).
    fold (JSMap.delete key c). rewrite JSMapFacts.map_delete_absent; [done|].
    by apply JSMapFacts.map_get_None.
  - unfold JSMap.delete. rewrite filter_cons_True by done. fold (JSMap.delete key c).
    rewrite (IH Hwf). apply perm_swap.
Qed.

(** ** Runs of calls on a v2 engine *)
Module TTLCacheCallsFacts.
Import TTLCache TTLCacheFacts TTLCacheCalls.

Section replay.
Context `{LocalStorage} `{JSON CacheEntry}.
Implicit Types (st : t) (key k : string) (call : Call) (c : list (string * CacheEntry)).

#[local] Abbreviation sort := (JSArray.sort (JSArray.newest_first stamp)).

Lemma delete_split c1 key (e : CacheEntry) c2 :
  key ∉ JSMap.keys (c1 ++ c2) → JSMap.delete key (c1 ++ (key, e) :: c2) = c1 ++ c2.
Proof.
  intros Hk. unfold JSMap.delete. rewrite filter_app, filter_cons_False by (simpl; by intros ?).
  rewrite <- filter_app. apply filter_all. intros [k x] Hin. simpl. intros ->.
  apply Hk. unfold JSMap.keys. apply list_elem_of_fmap. by exists (key, x).
Qed.

(** Writing an entry with a stamp newer than every resident one puts it first
    in the sorted view and leaves the other entries in their order. *)
Lemma sort_set_newest c key e :
  JSMap.wf c → (∀ kv, kv ∈ c → stamp kv < lastAccessAt e) →
  sort (JSMap.set key e c) = (key, e) :: sort (JSMap.delete key c).
Proof.
  intros Hwf Hold. destruct (JSMap.get key c) as [e0|] eqn:Hg.
  - destruct (set_split_v2 c key e0 e Hwf Hg) as (l1 & l2 & Hc & -> & Hk).
    rewrite Hc, delete_split by done.
    apply JSArrayMore.sort_newest_inside.
    + intros y Hy. apply Hold. rewrite Hc. apply elem_of_app. by left.
    + intros y Hy. apply Z.lt_le_incl, Hold. rewrite Hc. apply elem_of_app. right. by right.
  - rewrite JSMapFacts.map_set_absent, JSMapFacts.map_delete_absent by done.
    rewrite <- (app_nil_r c) at 2.
    apply JSArrayMore.sort_newest_inside; [done|]. by intros y ?%elem_of_nil.
Qed.

Lemma order_Permutation st : order st ≡ₚ JSMap.keys (cache st).
Proof. unfold order, JSMap.keys. by rewrite getAll_Permutation_v2. Qed.

Lemma NoDup_order st : JSMap.wf (cache st) → NoDup (order st).
Proof. intros Hwf. by rewrite order_Permutation. Qed.

Lemma elem_of_order st k : k ∈ order st ↔ k ∈ JSMap.keys (cache st).
Proof. by rewrite order_Permutation. Qed.

(** The shape of one call: a call that uses a key writes that key with the
    stamp of its reading into a selection of the [Map]; any other call leaves
    a selection of the [Map]. *)
Lemma step_shape call st :
  JSMap.wf (cache st) →
  match used call st with
  | Some key =>
      ∃ now e (P : string * CacheEntry → Prop) (HP : ∀ x, Decision (P x)),
        reading call = Some now ∧ lastAccessAt e = now
        ∧ cache (step call st) = JSMap.set key e (filter P (cache st))
  | None =>
      ∃ (P : string * CacheEntry → Prop) (HP : ∀ x, Decision (P x)),
        cache (step call st) = filter P (cache st)
  end.
Proof.
  intros Hwf. destruct call as [now key|t_sweep now key val ttlMs|key|]; unfold used, step.
  - unfold get. destruct (JSMap.get key (cache st)) as [e|] eqn:Hg.
    + destruct (decide (isExpired now e)); cbn [fst snd].
      * rewrite cache_saveToStorage_v2. cbn [cache log with_cache].
        by exists (λ kv, kv.1 ≠ key), _.
      * exists now, (mkEntry (value e) (expiresAt e) now), (λ _, True), _.
        split_and!; [done|done|]. cbn [cache log with_cache].
        by rewrite filter_all.
    + cbn [fst snd cache log]. exists (λ _, True), _. by rewrite filter_all.
  - exists now, (mkEntry val (now + default (defaultTTLms (config st)) ttlMs) now).
    rewrite V2Set.cache_set_v2. unfold after_eviction.
    rewrite (cache_cleanupExpired_v2 t_sweep st Hwf).
    destruct (_ && _).
    + unfold evict. destruct (truthy_key _).
      * cbn [cache log with_cache]. rewrite (cache_cleanupExpired_v2 t_sweep st Hwf).
        unfold JSMap.delete. rewrite list_filter_filter. by eexists _, _.
      * rewrite (cache_cleanupExpired_v2 t_sweep st Hwf). by eexists _, _.
    + rewrite (cache_cleanupExpired_v2 t_sweep st Hwf). by eexists _, _.
  - unfold delete. destruct (JSMap.has key (cache st)); cbn [fst snd].
    + rewrite cache_saveToStorage_v2. cbn [cache log with_cache].
      by exists (λ kv, kv.1 ≠ key), _.
    + cbn [cache with_cache]. by exists (λ kv, kv.1 ≠ key), _.
  - unfold clear. rewrite cache_saveToStorage_v2. cbn [cache log with_cache].
    exists (λ _, False), _. symmetry. apply filter_none. by intros ? _ ?.
Qed.

Lemma wf_step_v2 call st : JSMap.wf (cache st) → JSMap.wf (cache (step call st)).
Proof.
  intros Hwf. pose proof (step_shape call st Hwf) as Hs.
  destruct (used call st).
  - destruct Hs as (now & e & P & HP & _ & _ & ->).
    by apply JSMapFacts.map_wf_set, JSMapFacts.map_wf_filter.
  - destruct Hs as (P & HP & ->). by apply JSMapFacts.map_wf_filter.
Qed.

Lemma distinct_stamps_step call st :
  JSMap.wf (cache st) → distinct_stamps st →
  match reading call with Some now => ahead now st | None => True end →
  distinct_stamps (step call st).
Proof.
  intros Hwf Hd Hahead. pose proof (step_shape call st Hwf) as Hs. unfold distinct_stamps in *.
  destruct (used call st).
  - destruct Hs as (now & e & P & HP & Hr & He & ->). rewrite Hr in Hahead.
    rewrite (set_Permutation _ _ _ (JSMapFacts.map_wf_filter P _ Hwf)). csimpl.
    apply NoDup_cons. split.
    + intros (kv & Hst & Hin)%list_elem_of_fmap.
      apply list_elem_of_filter in Hin as [_ Hin]. apply list_elem_of_filter in Hin as [_ Hin].
      unfold ahead in Hahead. rewrite Forall_forall in Hahead. specialize (Hahead kv Hin).
      unfold stamp in Hst. simpl in Hst. lia.
    + eapply sublist_NoDup; [exact Hd|]. apply fmap_sublist.
      etrans; apply sublist_filter.
  - destruct Hs as (P & HP & ->).
    eapply sublist_NoDup; [exact Hd|]. apply fmap_sublist, sublist_filter.
Qed.

Lemma order_filter (P : string * CacheEntry → Prop) `{∀ x, Decision (P x)} c :
  (sort (filter P c)).*1 `sublist_of` (sort c).*1.
Proof. rewrite <- JSArrayFacts.filter_sort. apply fmap_sublist, sublist_filter. Qed.

Lemma order_step call st :
  JSMap.wf (cache st) →
  match reading call with Some now => ahead now st | None => True end →
  order (step call st)
    `sublist_of` Recency.spec_order (order st) (option_list (used call st)).
Proof.
  intros Hwf Hahead. pose proof (step_shape call st Hwf) as Hs.
  unfold order. rewrite !getAll_sort_v2.
  destruct (used call st) as [key|]; simpl.
  - destruct Hs as (now & e & P & HP & Hr & He & ->). rewrite Hr in Hahead.
    rewrite sort_set_newest.
    + csimpl. unfold Recency.touch. apply sublist_skip.
      unfold JSMap.delete. rewrite <- JSArrayFacts.filter_sort.
      fold (JSMap.delete key (sort (filter P (cache st)))).
      change ((JSMap.delete key (sort (filter P (cache st)))).*1)
        with (JSMap.keys (JSMap.delete key (sort (filter P (cache st))))).
      rewrite JSMapFacts.map_keys_delete. apply sublist_filter_mono.
      apply order_filter.
    + by apply JSMapFacts.map_wf_filter.
    + intros kv [_ Hin]%list_elem_of_filter. rewrite He.
      unfold ahead in Hahead. rewrite Forall_forall in Hahead. by apply Hahead.
  - destruct Hs as (P & HP & ->). apply order_filter.
Qed.

Lemma keys_step_v2 call st k :
  JSMap.wf (cache st) →
  k ∈ JSMap.keys (cache (step call st)) →
  k ∈ JSMap.keys (cache st) ∨ used call st = Some k.
Proof.
  intros Hwf Hin. pose proof (step_shape call st Hwf) as Hs.
  destruct (used call st) as [key|].
  - destruct Hs as (now & e & P & HP & _ & _ & Heq). rewrite Heq in Hin.
    unfold JSMap.keys in Hin. apply list_elem_of_fmap in Hin as ([k' x] & -> & Hin).
    apply JSMapFacts.map_elem_set in Hin as [[= -> ->]|Hin]; [by right|]. left.
    apply list_elem_of_filter in Hin as [_ Hin].
    unfold JSMap.keys. apply list_elem_of_fmap. by exists (k', x).
  - destruct Hs as (P & HP & Heq). rewrite Heq in Hin. left.
    eapply elem_of_sublist; [exact Hin|]. apply JSMapFacts.map_keys_filter.
Qed.

Lemma wf_run_v2 cs st : JSMap.wf (cache st) → JSMap.wf (cache (run cs st)).
Proof. revert st. induction cs as [|c cs IH]; intros st Hwf; simpl; [done|]. by apply IH, wf_step_v2. Qed.

Lemma distinct_stamps_run cs st :
  JSMap.wf (cache st) → distinct_stamps st → ticking cs st → distinct_stamps (run cs st).
Proof.
  revert st. induction cs as [|c cs IH]; intros st Hwf Hd Ht; simpl; [done|].
  destruct Ht as [Ha Ht]. apply IH; [by apply wf_step_v2|by apply distinct_stamps_step|done].
Qed.

Lemma keys_run_v2 cs st k :
  JSMap.wf (cache st) →
  k ∈ JSMap.keys (cache (run cs st)) →
  k ∈ JSMap.keys (cache st) ∨ k ∈ history cs st.
Proof.
  revert st. induction cs as [|c cs IH]; intros st Hwf Hin; simpl in *; [by left|].
  destruct (IH _ (wf_step_v2 c st Hwf) Hin) as [Hk|Hk].
  - destruct (keys_step_v2 c st k Hwf Hk) as [?|Hu]; [by left|].
    right. rewrite Hu. apply list_elem_of_here.
  - right. apply elem_of_app. by right.
Qed.

Theorem order_run cs st :
  JSMap.wf (cache st) → ticking cs st →
  order (run cs st)
  = filter (λ k, k ∈ JSMap.keys (cache (run cs st)))
           (Recency.spec_order (order st) (history cs st)).
Proof.
  revert st. induction cs as [|c cs IH]; intros st Hwf Ht.
  - simpl. symmetry. apply filter_all. intros x Hx. by apply elem_of_order.
  - destruct Ht as [Ha Ht]. cbn [run history].
    rewrite (IH _ (wf_step_v2 c st Hwf) Ht), RecencyFacts.spec_order_app.
    set (Kf := JSMap.keys (cache (run cs (step c st)))).
    set (uses := history cs (step c st)).
    set (B := Recency.spec_order (order st) (option_list (used c st))).
    rewrite (RecencyFacts.spec_order_closed (order (step c st))),
            (RecencyFacts.spec_order_closed B).
    rewrite !filter_app. f_equal.
    assert (NoDup B) as HB.
    { unfold B. destruct (used c st); simpl;
        [apply RecencyFacts.NoDup_touch|]; by apply NoDup_order. }
    rewrite <- (filter_elem_of_sublist (order (step c st)) B HB (order_step c st Hwf Ha)).
    rewrite !list_filter_filter. apply filter_ext_in. intros x _.
    split; [tauto|]. intros [Hf Hu]. split_and!; [done|done|].
    apply elem_of_order.
    destruct (keys_run_v2 cs (step c st) x (wf_step_v2 c st Hwf) Hf); done.
Qed.

(** *** Which entry the scan of [set] picks *)

Lemma lru_fold_stays k (m : Z) (rest : list (string * CacheEntry)) :
  (∀ kv, kv ∈ rest → m ≤ stamp kv) →
  foldl lru_step (Some k, Some m) rest = (Some k, Some m).
Proof.
  induction rest as [|kv rest IH]; intros Hall; [done|].
  cbn [foldl lru_step]. rewrite decide_False.
  - apply IH. intros x Hx. apply Hall. by right.
  - specialize (Hall kv (list_elem_of_here _ _)). unfold stamp in Hall. lia.
Qed.

Lemma find_lru_first_min l1 k (e : CacheEntry) l2 :
  (∀ kv, kv ∈ l1 → lastAccessAt e < stamp kv) →
  (∀ kv, kv ∈ l2 → lastAccessAt e ≤ stamp kv) →
  find_lru (l1 ++ (k, e) :: l2) = Some k.
Proof.
  intros H1 H2. unfold find_lru. rewrite foldl_app. cbn [foldl].
  pose proof (lru_fold_v2 (None, None) [] l1 eq_refl) as Hacc. rewrite app_nil_l in Hacc.
  destruct (foldl lru_step (None, None) l1) as [[k'|] [m|]]; try done.
  - destruct Hacc as [(e' & Hin & Hm) _]. specialize (H1 _ Hin). unfold stamp in H1.
    cbn [lru_step fst snd]. simpl in H1. rewrite decide_True by lia.
    by rewrite lru_fold_stays.
  - cbn [lru_step fst snd]. by rewrite lru_fold_stays.
Qed.

Lemma stamp_inj c (x y : string * CacheEntry) :
  NoDup (stamp <$> c) → x ∈ c → y ∈ c → stamp x = stamp y → x = y.
Proof.
  induction c as [|z c IH]; intros Hnd Hx Hy Heq; [by apply elem_of_nil in Hx|].
  csimpl in Hnd. apply NoDup_cons in Hnd as [Hz Hnd].
  apply elem_of_cons in Hx as [->|Hx]; apply elem_of_cons in Hy as [->|Hy].
  - done.
  - exfalso. apply Hz. rewrite Heq. by apply list_elem_of_fmap_2.
  - exfalso. apply Hz. rewrite <- Heq. by apply list_elem_of_fmap_2.
  - by apply IH.
Qed.

(** With no two stamps equal, the scan picks the last key of [getAll]. *)
Lemma find_lru_last c :
  NoDup (stamp <$> c) → c ≠ [] → find_lru c = last (sort c).*1.
Proof.
  intros Hnd Hne. destruct (find_lru_oldest_v2 c Hne) as (k & e & -> & Hin & Hmin).
  rewrite fmap_last.
  destruct (last (sort c)) as [x|] eqn:Hlast.
  - assert (x ∈ c) as Hx.
    { rewrite <- (JSArrayFacts.sort_Permutation stamp c).
      destruct (last_Some (sort c) x) as [[l' Hl'] _]; [done|]. rewrite Hl'.
      apply elem_of_app. right. apply list_elem_of_here. }
    pose proof (JSArrayMore.descending_last stamp (sort c) x
                  (JSArrayFacts.sort_descending stamp c) Hlast (k, e)) as Hle.
    rewrite (JSArrayFacts.sort_Permutation stamp c) in Hle. specialize (Hle Hin).
    destruct x as [k' e']. specialize (Hmin k' e' Hx). unfold stamp in Hle. simpl in Hle.
    assert ((k, e) = (k', e')) as [= -> ->]; [|done].
    apply (stamp_inj c); [done..|]. unfold stamp. simpl. lia.
  - exfalso. apply last_None in Hlast.
    apply Hne, Permutation_nil_r. by rewrite <- Hlast, JSArrayFacts.sort_Permutation.
Qed.

(** *** One [set] on a [Map] whose entries are all live *)

Lemma sweep_of_live t_sweep st :
  JSMap.wf (cache st) → (∀ kv, kv ∈ cache st → t_sweep < expiresAt kv.2) →
  cache (cleanupExpired t_sweep st) = cache st.
Proof. intros Hwf Hlive. rewrite cache_cleanupExpired_v2 by done. by apply filter_all. Qed.

Lemma log_kept_by_set t_sweep now key val ttlMs st x :
  x ∈ logCallback st → x ∈ logCallback (set t_sweep now key val ttlMs st).
Proof.
  intros Hx. rewrite V2Set.set_eq_v2. cbn zeta.
  match goal with
  | |- context [saveToStorage ?pre] => destruct (logCallback_saveToStorage_v2 pre) as [ev ->]
  end.
  cbn [logCallback log with_cache]. apply elem_of_app. left. apply elem_of_app. left.
  unfold after_eviction. destruct (_ && _).
  - unfold evict. destruct (truthy_key _); cbn [logCallback log with_cache];
      rewrite logCallback_cleanupExpired_v2; [apply elem_of_app; left|]; apply elem_of_app; by left.
  - rewrite logCallback_cleanupExpired_v2. apply elem_of_app. by left.
Qed.

Lemma log_kept_by_get now key st x :
  x ∈ logCallback st → x ∈ logCallback (get now key st).2.
Proof.
  intros Hx. unfold get. destruct (JSMap.get key (cache st)); [destruct (decide _)|];
    cbn [snd].
  - match goal with
    | |- context [saveToStorage ?pre] => destruct (logCallback_saveToStorage_v2 pre) as [ev ->]
    end.
    cbn [logCallback log with_cache]. apply elem_of_app. left. apply elem_of_app. by left.
  - cbn [logCallback log with_cache]. apply elem_of_app. by left.
  - cbn [logCallback log]. apply elem_of_app. by left.
Qed.

Lemma set_with_room t_sweep now key val ttlMs st :
  JSMap.wf (cache st) → (∀ kv, kv ∈ cache st → t_sweep < expiresAt kv.2) →
  JSMap.has key (cache st) = false → JSMap.size (cache st) < maxSize (config st) →
  cache (set t_sweep now key val ttlMs st)
  = cache st ++ [(key, mkEntry val (now + default (defaultTTLms (config st)) ttlMs) now)].
Proof.
  intros Hwf Hlive Hnew Hroom. rewrite V2Set.cache_set_v2. unfold after_eviction.
  rewrite config_cleanupExpired_v2, (sweep_of_live t_sweep st Hwf Hlive), Hnew.
  rewrite bool_decide_eq_false_2 by lia. cbn [negb andb].
  rewrite (sweep_of_live t_sweep st Hwf Hlive).
  apply JSMapFacts.map_set_absent. by apply JSMapFacts.map_has_false.
Qed.

Lemma set_evicts_first_min t_sweep now key val ttlMs st l1 k e l2 :
  JSMap.wf (cache st) →
  JSMap.has key (cache (cleanupExpired t_sweep st)) = false →
  JSMap.size (cache (cleanupExpired t_sweep st)) >= maxSize (config st) →
  cache (cleanupExpired t_sweep st) = l1 ++ (k, e) :: l2 →
  (∀ kv, kv ∈ l1 → lastAccessAt e < stamp kv) →
  (∀ kv, kv ∈ l2 → lastAccessAt e ≤ stamp kv) →
  k ≠ EmptyString →
  cache (set t_sweep now key val ttlMs st)
  = (l1 ++ l2) ++ [(key, mkEntry val (now + default (defaultTTLms (config st)) ttlMs) now)]
  ∧ mkLog EVICTED ("Evicted LRU key: " +:+ k) ∈ logCallback (set t_sweep now key val ttlMs st).
Proof.
  intros Hwf Hnew Hfull Hc H1 H2 Hk.
  pose proof (wf_cleanupExpired_v2 t_sweep st Hwf) as Hwf1.
  assert (find_lru (cache (cleanupExpired t_sweep st)) = Some k) as Hlru
    by (rewrite Hc; by apply find_lru_first_min).
  assert (k ∉ JSMap.keys (l1 ++ l2)) as Hk12.
  { unfold JSMap.wf, JSMap.keys in Hwf1. rewrite Hc, fmap_app in Hwf1. csimpl in Hwf1.
    apply NoDup_app in Hwf1 as (_ & Hdis & [Hk2 _]%NoDup_cons).
    unfold JSMap.keys. rewrite fmap_app. intros [Hin|Hin]%elem_of_app; [|done].
    apply (Hdis k Hin). apply list_elem_of_here. }
  assert (after_eviction t_sweep key st
          = log EVICTED ("Evicted LRU key: " +:+ k)
              (with_cache (l1 ++ l2) (cleanupExpired t_sweep st))) as Hae.
  { unfold after_eviction. rewrite Hnew, config_cleanupExpired_v2.
    rewrite bool_decide_eq_true_2 by done. cbn [negb andb].
    unfold evict. rewrite Hlru.
    assert (truthy_key (Some k) = true) as -> by (by apply bool_decide_eq_true_2).
    cbn [default from_option id]. rewrite Hc at 1.
    by rewrite delete_split. }
  split.
  - rewrite V2Set.cache_set_v2, Hae. cbn [cache log with_cache].
    apply JSMapFacts.map_set_absent.
    apply JSMapFacts.map_has_false in Hnew. apply JSMapFacts.map_get_None in Hnew.
    apply JSMapFacts.map_get_None. intros Hin. apply Hnew. rewrite Hc.
    unfold JSMap.keys in *. rewrite fmap_app in *. csimpl.
    apply elem_of_app in Hin as [Hin|Hin]; apply elem_of_app; [by left|right; by right].
  - rewrite V2Set.set_eq_v2. cbn zeta.
    match goal with
    | |- context [saveToStorage ?pre] =>
        destruct (logCallback_saveToStorage_v2 pre) as [ev ->]
    end.
    rewrite Hae. cbn [logCallback log with_cache].
    apply elem_of_app. left. apply elem_of_app. left. apply elem_of_app. right.
    apply list_elem_of_here.
Qed.

(** *** The bound along a run *)

Lemma config_step_v2 call st : config (step call st) = config st.
Proof.
  destruct call as [now key|t_sweep now key val ttlMs|key|]; unfold step.
  - unfold get. destruct (JSMap.get _ _); [destruct (decide _)|]; cbn [snd];
      by rewrite ?config_saveToStorage_v2.
  - rewrite V2Set.set_eq_v2. cbn zeta. rewrite config_saveToStorage_v2.
    cbn [config log with_cache]. apply V2Effects.config_after_eviction_v2.
  - unfold delete. destruct (JSMap.has _ _); cbn [snd]; by rewrite ?config_saveToStorage_v2.
  - unfold clear. by rewrite config_saveToStorage_v2.
Qed.

Lemma config_set_v2 t_sweep now key val ttlMs st :
  config (set t_sweep now key val ttlMs st) = config st.
Proof. apply (config_step_v2 (CallSet t_sweep now key val ttlMs) st). Qed.

Lemma config_get_v2 now key st : config (get now key st).2 = config st.
Proof. apply (config_step_v2 (CallGet now key) st). Qed.

Lemma bound_step call st :
  JSMap.wf (cache st) → 1 ≤ maxSize (config st) →
  JSMap.has EmptyString (cache st) = false →
  JSMap.size (cache st) ≤ maxSize (config st) →
  keyed [call] →
  JSMap.size (cache (step call st)) ≤ maxSize (config st)
  ∧ JSMap.has EmptyString (cache (step call st)) = false.
Proof.
  intros Hwf Hmax Hempty Hsize Hkeyed. split.
  - destruct call as [now key|t_sweep now key val ttlMs|key|]; unfold step.
    + unfold get. destruct (JSMap.get key (cache st)) as [e|] eqn:Hg;
        [destruct (decide _)|]; cbn [snd]; rewrite ?cache_saveToStorage_v2;
        cbn [cache log with_cache]; [| |done].
      * pose proof (JSMapFacts.map_length_delete (cache st) key). unfold JSMap.size in *. lia.
      * unfold JSMap.size in *. rewrite JSMapFacts.map_length_set.
        unfold JSMap.has. by rewrite Hg.
    + pose proof (V2Set.size_set_v2 t_sweep now key val ttlMs st Hwf Hmax Hempty). lia.
    + unfold delete. destruct (JSMap.has key (cache st)); cbn [snd];
        rewrite ?cache_saveToStorage_v2; cbn [cache log with_cache];
        pose proof (JSMapFacts.map_length_delete (cache st) key); unfold JSMap.size in *; lia.
    + unfold clear. rewrite cache_saveToStorage_v2. cbn [cache log with_cache].
      unfold JSMap.size. cbn [length]. lia.
  - apply JSMapFacts.map_has_false, JSMapFacts.map_get_None. intros Hin.
    apply keys_step_v2 in Hin as [Hin|Hu]; [| |done].
    + apply JSMapFacts.map_has_false, JSMapFacts.map_get_None in Hempty. done.
    + unfold keyed in Hkeyed. rewrite Forall_singleton in Hkeyed.
      apply JSMapFacts.map_has_false in Hempty.
      destruct call as [now key|t_sweep now key val ttlMs|key|]; simpl in Hu; try done.
      * destruct (get now key st).1 as [v|] eqn:Hv; [|done]. injection Hu as ->.
        apply get_returns_v2 in Hv as (e & He & _). congruence.
      * simpl in Hkeyed. congruence.
Qed.

End replay.
End TTLCacheCallsFacts.

(** ** [slice] and the logs of the components *)
Module LogFacts.

Section slices.
Context {A : Type}.
Implicit Types (l : list A).

Lemma slice_last (n : nat) l :
  JSArray.slice (- Z.of_nat (S n)) None l = drop (length l - S n) l.
Proof.
  unfold JSArray.slice, JSArray.relative. rewrite decide_True by lia.
  assert (Z.to_nat (Z.max (Z.of_nat (length l) + - Z.of_nat (S n)) 0) = (length l - S n)%nat)
    as -> by lia.
  apply take_ge. rewrite length_drop. lia.
Qed.

Lemma slice_first (n : nat) l : JSArray.slice 0 (Some (Z.of_nat n)) l = take n l.
Proof.
  unfold JSArray.slice, JSArray.relative. rewrite !decide_False by lia.
  replace (Z.to_nat (0 `min` Z.of_nat (length l))) with 0%nat by lia. cbn [drop].
  destruct (decide (n ≤ length l)%nat).
  - f_equal. lia.
  - rewrite (take_ge l n) by lia. apply take_ge. lia.
Qed.

(** Feeding entries one by one to a log that keeps its last [S n]. *)
Lemma keep_last_fold (n : nat) (l0 es : list A) :
  (length l0 ≤ S n)%nat →
  foldl (λ logs e, JSArray.slice (- Z.of_nat (S n)) None (logs ++ [e])) l0 es
  = drop (length (l0 ++ es) - S n) (l0 ++ es).
Proof.
  intros Hl0. induction es as [|e es IH] using rev_ind.
  - rewrite app_nil_r. cbn [foldl]. by replace (length l0 - S n)%nat with 0%nat by lia.
  - rewrite foldl_app. cbn [foldl]. rewrite IH, slice_last.
    rewrite length_app, length_drop. cbn [length].
    set (L := l0 ++ es). rewrite (assoc_L (++)). fold L.
    rewrite length_app. cbn [length].
    destruct (decide (length L < S n)%nat) as [Hlt|Hge].
    + replace (length L - S n)%nat with 0%nat by lia.
      replace (length L - 0 + 1 - S n)%nat with 0%nat by lia.
      by replace (length L + 1 - S n)%nat with 0%nat by lia.
    + replace (length L - (length L - S n) + 1 - S n)%nat with 1%nat by lia.
      rewrite drop_app_le by (rewrite length_drop; lia).
      rewrite drop_drop. rewrite drop_app_le by lia. do 2 f_equal. lia.
Qed.

Lemma take_app_take (n : nat) (l1 l2 : list A) :
  take n (l1 ++ take n l2) = take n (l1 ++ l2).
Proof.
  rewrite !take_app. f_equal. rewrite take_take. f_equal. lia.
Qed.

(** Feeding events one by one to a log that puts the newest first and keeps
    [n]. *)
Lemma keep_first_fold (n : nat) (l0 es : list A) :
  (length l0 ≤ n)%nat →
  foldl (λ logs e, JSArray.slice 0 (Some (Z.of_nat n)) (e :: logs)) l0 es
  = take n (reverse es ++ l0).
Proof.
  revert l0. induction es as [|e es IH]; intros l0 Hl0.
  - cbn. by rewrite take_ge.
  - cbn [foldl]. rewrite IH by (rewrite slice_first, length_take; lia).
    rewrite slice_first, take_app_take, reverse_cons, <- (assoc_L (++)). done.
Qed.

End slices.
End LogFacts.

(** ** v1: eviction, and the calls of the component *)
Module CacheSystemRuns.
Import CacheSystem.

Implicit Types (k : string) (c : list (string * CacheEntry)).

Lemma lru_stays k (m : Z) c :
  (∀ kv, kv ∈ c → m ≤ lastAccessed kv.2) →
  foldl lru_step (k, Some m) c = (k, Some m).
Proof.
  induction c as [|kv c IH]; intros Hall; [done|].
  cbn [foldl lru_step]. rewrite decide_False.
  - apply IH. intros x Hx. apply Hall. by right.
  - specialize (Hall kv (list_elem_of_here _ _)). lia.
Qed.

Lemma lru_above (s : Z) c acc :
  (∀ kv, kv ∈ c → s < lastAccessed kv.2) →
  match acc.2 with Some m => s < m | None => True end →
  match (foldl lru_step acc c).2 with Some m => s < m | None => True end.
Proof.
  revert acc. induction c as [|kv c IH]; intros [k0 t0] Hall Hacc; [done|].
  cbn [foldl]. apply IH; [intros x Hx; apply Hall; by right|].
  specialize (Hall kv (list_elem_of_here _ _)).
  unfold lru_step. destruct t0 as [m|]; [destruct (decide _)|]; done.
Qed.

(** The scan of [evictLRU] picks the first entry, in the order of the [Map],
    among those with the smallest [lastAccessed]. *)
Lemma lru_first_min l1 k (e : CacheEntry) l2 :
  (∀ kv, kv ∈ l1 → lastAccessed e < lastAccessed kv.2) →
  (∀ kv, kv ∈ l2 → lastAccessed e ≤ lastAccessed kv.2) →
  (foldl lru_step (EmptyString, None) (l1 ++ (k, e) :: l2)).1 = k.
Proof.
  intros H1 H2. rewrite foldl_app. cbn [foldl].
  pose proof (lru_above (lastAccessed e) l1 (EmptyString, None) H1 I) as Hacc.
  destruct (foldl lru_step (EmptyString, None) l1) as [k' [m|]]; cbn [snd] in Hacc.
  - cbn [lru_step fst snd]. rewrite decide_True by done. by rewrite lru_stays.
  - cbn [lru_step fst snd]. by rewrite lru_stays.
Qed.

(** A non-empty [Map] has such an entry. *)
Lemma first_min_exists c :
  c ≠ [] →
  ∃ l1 k e l2, c = l1 ++ (k, e) :: l2
               ∧ (∀ kv, kv ∈ l1 → lastAccessed e < lastAccessed kv.2)
               ∧ (∀ kv, kv ∈ l2 → lastAccessed e ≤ lastAccessed kv.2).
Proof.
  induction c as [|[k e] c IH]; intros Hne; [done|].
  destruct c as [|y c'].
  - exists [], k, e, []. split_and!; [done|by intros ? ?%elem_of_nil..].
  - destruct IH as (l1 & k' & e' & l2 & Hc & H1 & H2); [done|].
    destruct (decide (lastAccessed e ≤ lastAccessed e')) as [Hle|Hgt].
    + exists [], k, e, (y :: c'). split_and!; [done|by intros ? ?%elem_of_nil|].
      intros kv Hkv. rewrite Hc in Hkv.
      apply elem_of_app in Hkv as [Hkv|Hkv]; [specialize (H1 kv Hkv); lia|].
      apply elem_of_cons in Hkv as [->|Hkv]; [done|]. specialize (H2 kv Hkv). lia.
    + exists ((k, e) :: l1), k', e', l2. rewrite Hc. split_and!; [done| |done].
      intros kv [->|Hkv]%elem_of_cons; [simpl; lia|by apply H1].
Qed.

Lemma delete_split_v1 l1 k (e : CacheEntry) l2 :
  k ∉ JSMap.keys (l1 ++ l2) → JSMap.delete k (l1 ++ (k, e) :: l2) = l1 ++ l2.
Proof.
  intros Hk. unfold JSMap.delete. rewrite filter_app, filter_cons_False by (simpl; by intros ?).
  rewrite <- filter_app. apply filter_all. intros [k' x] Hin. simpl. intros ->.
  apply Hk. unfold JSMap.keys. apply list_elem_of_fmap. by exists (k, x).
Qed.

Lemma wf_split l1 k (e : CacheEntry) l2 :
  JSMap.wf (l1 ++ (k, e) :: l2) → k ∉ JSMap.keys (l1 ++ l2).
Proof.
  unfold JSMap.wf, JSMap.keys. rewrite !fmap_app. csimpl.
  intros (_ & Hdis & [Hk2 _]%NoDup_cons)%NoDup_app.
  intros [Hin|Hin]%elem_of_app; [|done]. apply (Hdis k Hin). apply list_elem_of_here.
Qed.

Lemma evictLRU_first_min l1 k (e : CacheEntry) l2 :
  JSMap.wf (l1 ++ (k, e) :: l2) → k ≠ EmptyString →
  (∀ kv, kv ∈ l1 → lastAccessed e < lastAccessed kv.2) →
  (∀ kv, kv ∈ l2 → lastAccessed e ≤ lastAccessed kv.2) →
  evictLRU (l1 ++ (k, e) :: l2)
  = (l1 ++ l2, [mkLog "EVICT" ("LRU evicted key: " +:+ k) warning]).
Proof.
  intros Hwf Hk H1 H2. unfold evictLRU. rewrite lru_first_min by done.
  assert (truthy_key (Some k) = true) as -> by (by apply bool_decide_eq_true_2).
  by rewrite (delete_split_v1 l1 k e l2) by (by apply (wf_split l1 k e l2)).
Qed.

(** *** The invariant of the component *)

Lemma has_empty_sublist c' c :
  JSMap.keys c' ⊆ JSMap.keys c → JSMap.has EmptyString c = false →
  JSMap.has EmptyString c' = false.
Proof.
  intros Hsub Hc. apply JSMapFacts.map_has_false, JSMapFacts.map_get_None.
  apply JSMapFacts.map_has_false, JSMapFacts.map_get_None in Hc. intros Hin. by apply Hc, Hsub.
Qed.

Lemma keys_delete_subseteq c k : JSMap.keys (JSMap.delete k c) ⊆ JSMap.keys c.
Proof.
  intros x Hx. rewrite JSMapFacts.map_keys_delete in Hx.
  by apply list_elem_of_filter in Hx as [_ ?].
Qed.

Lemma has_set_other c k (v : CacheEntry) k' :
  k ≠ k' → JSMap.has k' (JSMap.set k v c) = JSMap.has k' c.
Proof. intros Hne. unfold JSMap.has. by rewrite JSMapFacts.map_get_set_ne. Qed.

Lemma tidy_delete maxSize c k : tidy maxSize c → tidy maxSize (JSMap.delete k c).
Proof.
  intros (Hwf & He & Hs). split_and!.
  - by apply JSMapFacts.map_wf_delete.
  - apply (has_empty_sublist _ c); [apply keys_delete_subseteq|done].
  - pose proof (JSMapFacts.map_length_delete c k). unfold JSMap.size in *. lia.
Qed.

(** On a tidy, non-empty [Map], [evictLRU] removes exactly one entry. *)
Lemma evictLRU_tidy maxSize c :
  tidy maxSize c → c ≠ [] →
  ∃ k, JSMap.has k c = true ∧ k ≠ EmptyString
       ∧ evictLRU c = (JSMap.delete k c, [mkLog "EVICT" ("LRU evicted key: " +:+ k) warning])
       ∧ S (length (JSMap.delete k c)) = length c.
Proof.
  intros (Hwf & He & Hs) Hne.
  destruct (first_min_exists c Hne) as (l1 & k & e & l2 & Hc & H1 & H2).
  assert (JSMap.has k c = true) as Hk.
  { apply JSMapFacts.map_has_true. rewrite Hc. unfold JSMap.keys. rewrite fmap_app. csimpl.
    apply elem_of_app. right. apply list_elem_of_here. }
  assert (k ≠ EmptyString) as Hkne by (intros ->; congruence).
  exists k. split_and!; [done|done| |by apply JSMapFacts.map_length_delete_present].
  rewrite Hc in Hwf |- *. rewrite (evictLRU_first_min l1 k e l2 Hwf Hkne H1 H2).
  by rewrite (delete_split_v1 l1 k e l2) by (by apply (wf_split l1 k e l2)).
Qed.

Lemma evictLRU_oldest maxSize c :
  tidy maxSize c → c ≠ [] →
  ∃ k e, (k, e) ∈ c ∧ k ≠ EmptyString
         ∧ (∀ kv, kv ∈ c → lastAccessed e ≤ lastAccessed kv.2)
         ∧ evictLRU c
           = (JSMap.delete k c, [mkLog "EVICT" ("LRU evicted key: " +:+ k) warning])
         ∧ S (length (JSMap.delete k c)) = length c.
Proof.
  intros (Hwf & He & Hs) Hne.
  destruct (first_min_exists c Hne) as (l1 & k & e & l2 & Hc & H1 & H2).
  assert ((k, e) ∈ c) as Hin
    by (rewrite Hc; apply elem_of_app; right; apply list_elem_of_here).
  assert (JSMap.has k c = true) as Hk.
  { apply JSMapFacts.map_has_true. unfold JSMap.keys. apply list_elem_of_fmap.
    by exists (k, e). }
  assert (k ≠ EmptyString) as Hkne by (intros ->; congruence).
  exists k, e. split_and!; [done|done| | |by apply JSMapFacts.map_length_delete_present].
  - intros kv Hkv. rewrite Hc in Hkv. apply elem_of_app in Hkv as [Hkv|Hkv].
    + specialize (H1 kv Hkv). lia.
    + apply elem_of_cons in Hkv as [->|Hkv]; [done|by apply H2].
  - rewrite Hc in Hwf |- *. rewrite (evictLRU_first_min l1 k e l2 Hwf Hkne H1 H2).
    by rewrite (delete_split_v1 l1 k e l2) by (by apply (wf_split l1 k e l2)).
Qed.

Lemma tidy_setCacheValue maxSize t_expiry t_access k v ttlMs c :
  1 ≤ maxSize → tidy maxSize c →
  tidy maxSize (default c (setCacheValue maxSize t_expiry t_access k v ttlMs c).1).
Proof.
  intros Hmax Htidy. unfold setCacheValue.
  destruct (truthy_key (Some k)) eqn:Hk; cbn [negb]; [|done].
  apply bool_decide_eq_true_1 in Hk.
  destruct (negb (JSMap.has k c) && bool_decide (JSMap.size c >= maxSize)) eqn:Hfull.
  - apply andb_true_iff in Hfull as [Hnew Hge]. apply negb_true_iff in Hnew.
    apply bool_decide_eq_true_1 in Hge.
    assert (c ≠ []) as Hne by (intros ->; unfold JSMap.size in Hge; cbn in Hge; lia).
    destruct (evictLRU_tidy maxSize c Htidy Hne) as (k0 & Hk0 & Hk0ne & -> & Hlen).
    cbn [default from_option id fst].
    destruct (tidy_delete maxSize c k0 Htidy) as (Hwf' & He' & Hs').
    destruct Htidy as (Hwf & He & Hs). split_and!.
    + by apply JSMapFacts.map_wf_set.
    + by rewrite has_set_other.
    + unfold JSMap.size in *. rewrite JSMapFacts.map_length_set.
      destruct (JSMap.has k (JSMap.delete k0 c)); lia.
  - cbn [default from_option id fst]. destruct Htidy as (Hwf & He & Hs). split_and!.
    + by apply JSMapFacts.map_wf_set.
    + by rewrite has_set_other.
    + unfold JSMap.size in *. rewrite JSMapFacts.map_length_set.
      apply andb_false_iff in Hfull as [Hres|Hroom].
      * apply negb_false_iff in Hres. rewrite Hres. lia.
      * apply bool_decide_eq_false_1 in Hroom. destruct (JSMap.has k c); lia.
Qed.

Lemma tidy_handed maxSize call c :
  1 ≤ maxSize → tidy maxSize c → tidy maxSize (default c (handed maxSize call c).1).
Proof.
  intros Hmax Htidy. destruct call as [t_expiry t_access k v ttlMs|now t_access k|k|];
    unfold handed.
  - by apply tidy_setCacheValue.
  - unfold getCacheValue. destruct (truthy_key (Some k)) eqn:Hk; cbn [negb]; [|done].
    apply bool_decide_eq_true_1 in Hk.
    destruct (JSMap.get k c) as [e|] eqn:Hg; [|done].
    destruct (_ && _); cbn [fst snd default from_option id]; [by apply tidy_delete|].
    destruct Htidy as (Hwf & He & Hs). split_and!.
    + by apply JSMapFacts.map_wf_set.
    + by rewrite has_set_other.
    + unfold JSMap.size in *. rewrite JSMapFacts.map_length_set. unfold JSMap.has.
      by rewrite Hg.
  - unfold deleteCacheValue. destruct (truthy_key (Some k)); cbn [negb]; [|done].
    destruct (JSMap.has k c); cbn [fst default from_option id]; [by apply tidy_delete|done].
  - cbn. split_and!; [apply NoDup_nil_2|done|unfold JSMap.size; cbn; lia].
Qed.

Lemma tidy_run maxSize calls comp :
  1 ≤ maxSize → tidy maxSize (cache comp) → (length (logs comp) ≤ 20)%nat →
  tidy maxSize (cache (run maxSize calls comp))
  ∧ (length (logs (run maxSize calls comp)) ≤ 20)%nat.
Proof.
  intros Hmax. unfold run. revert comp.
  induction calls as [|call calls IH]; intros comp Htidy Hlogs; [done|].
  cbn [foldl]. apply IH.
  - unfold step. cbn [cache]. by apply tidy_handed.
  - unfold step. cbn [logs].
    rewrite (LogFacts.keep_last_fold 19 (logs comp) _ Hlogs), length_drop. lia.
Qed.

Lemma logs_bounded (l0 es : list LogEntry) :
  (length l0 ≤ 20)%nat →
  foldl (λ logs entry, addLog entry logs) l0 es
  = drop (length (l0 ++ es) - 20) (l0 ++ es).
Proof. intros Hl0. by apply (LogFacts.keep_last_fold 19). Qed.

End CacheSystemRuns.

(** ** Where the entries of a v3 engine come from *)
Module WritesFacts.
Import TTLLRUCache TTLLRUCacheFacts Recency Writes.

Section writes.
Context `{LocalStorage} `{JSON CacheEntry}.
Implicit Types (st : t) (key k : string) (call : Call).

Lemma entries_step call st k e :
  JSMap.wf (cache st) →
  (k, e) ∈ cache (step call st) → (k, e) ∈ cache st ∨ (k, e) ∈ written call st.
Proof.
  intros Hwf Hin.
  destruct call as [t_sweep now key|t_sweep now key val ttlMs|key| |now|now|now key].
  - left. unfold step, get in Hin.
    rewrite (V3Get.get_after_sweep_v3 t_sweep key st Hwf) in Hin.
    pose proof (cache_cleanupExpired_v3 t_sweep st Hwf) as Hsw.
    destruct (JSMap.get key (cache st)) as [e0|] eqn:Hg.
    + destruct (decide (t_sweep < expiresAt e0)).
      * destruct (decide (isExpired now e0)); cbn [snd cache log with_cache] in Hin.
        -- rewrite Hsw in Hin. apply list_elem_of_filter in Hin as [_ Hin].
           by apply list_elem_of_filter in Hin as [_ Hin].
        -- rewrite JSMapFacts.map_set_delete, Hsw in Hin.
           apply elem_of_app in Hin as [Hin|Hin].
           ++ apply list_elem_of_filter in Hin as [_ Hin].
              by apply list_elem_of_filter in Hin as [_ Hin].
           ++ apply list_elem_of_singleton in Hin as [= -> ->].
              by apply JSMapFacts.map_get_Some_elem.
      * cbn [snd cache log] in Hin. rewrite Hsw in Hin.
        by apply list_elem_of_filter in Hin as [_ Hin].
    + cbn [snd cache log] in Hin. rewrite Hsw in Hin.
      by apply list_elem_of_filter in Hin as [_ Hin].
  - unfold step in Hin. rewrite (V3Set.cache_set_v3 _ _ _ _ _ _ Hwf) in Hin.
    apply elem_of_app in Hin as [Hin|Hin].
    + left. assert ((k, e) ∈ swept_without t_sweep key st) as Hsw.
      { destruct (decide _); [|done].
        eapply elem_of_sublist; [exact Hin|apply sublist_tail]. }
      unfold swept_without in Hsw. apply list_elem_of_filter in Hsw as [_ Hsw].
      by apply list_elem_of_filter in Hsw as [_ Hsw].
    + right. done.
  - left. pose proof (RecencyFacts.step_effect (CallDelete key) st Hwf) as Heff.
    cbn [used] in Heff. eapply elem_of_sublist; [exact Hin|exact Heff].
  - left. pose proof (RecencyFacts.step_effect CallClear st Hwf) as Heff.
    cbn [used] in Heff. eapply elem_of_sublist; [exact Hin|exact Heff].
  - left. pose proof (RecencyFacts.step_effect (CallGetEntries now) st Hwf) as Heff.
    cbn [used] in Heff. eapply elem_of_sublist; [exact Hin|exact Heff].
  - left. pose proof (RecencyFacts.step_effect (CallGetSize now) st Hwf) as Heff.
    cbn [used] in Heff. eapply elem_of_sublist; [exact Hin|exact Heff].
  - left. pose proof (RecencyFacts.step_effect (CallHas now key) st Hwf) as Heff.
    cbn [used] in Heff. eapply elem_of_sublist; [exact Hin|exact Heff].
Qed.

Lemma entries_run cs st k e :
  JSMap.wf (cache st) →
  (k, e) ∈ cache (run cs st) → (k, e) ∈ cache st ∨ (k, e) ∈ all_written cs st.
Proof.
  revert st. induction cs as [|c cs IH]; intros st Hwf Hin; [by left|].
  cbn [run all_written] in *.
  destruct (IH _ (RecencyFacts.wf_step c st Hwf) Hin) as [Hk|Hk].
  - destruct (entries_step c st k e Hwf Hk) as [?|?]; [by left|].
    right. apply elem_of_app. by left.
  - right. apply elem_of_app. by right.
Qed.

End writes.
End WritesFacts.

Section eviction.
Context `{LocalStorage}.
Context {J3 : JSON TTLLRUCache.CacheEntry} {J2 : JSON TTLCache.CacheEntry}.

(** C1 (amended).  Let [s1] be the state [set] works on after its sweep, and
    let [maxSize ≥ 1].  In [TTLLRUCache], when the key is not resident in [s1]
    and [s1] holds at least [maxSize] entries, [set] removes exactly the first
    entry of the [Map], which is the tail of [getKeys], appends the new entry,
    and emits [evicted] naming the removed key, then [set] and the outcome of
    the save.  In [TTLCache], with the empty key not resident, the same call
    removes exactly one entry, one whose [lastAccessAt] no resident entry
    undercuts, and emits [evicted] naming it.  In both engines a [set] that
    starts with at most [maxSize] resident entries returns with at most
    [maxSize]. *)
Theorem C1_set_evicts_one_and_keeps_bound (t_sweep now : Z) (key val : string)
    (ttlMs : option Z) (st3 : TTLLRUCache.t) (st2 : TTLCache.t) :
  JSMap.wf (TTLLRUCache.cache st3) → 1 ≤ maxSize (TTLLRUCache.config st3) →
  JSMap.wf (TTLCache.cache st2) → 1 ≤ maxSize (TTLCache.config st2) →
  JSMap.has EmptyString (TTLCache.cache st2) = false →
  (let s1 := TTLLRUCache.cleanupExpired t_sweep st3 in
   let s' := TTLLRUCache.set t_sweep now key val ttlMs st3 in
   let ttl := default (defaultTTLms (TTLLRUCache.config st3)) ttlMs in
   (JSMap.has key (TTLLRUCache.cache s1) = false →
    JSMap.size (TTLLRUCache.cache s1) >= maxSize (TTLLRUCache.config st3) →
    ∃ lruKey lruEntry rest ev,
      TTLLRUCache.cache s1 = (lruKey, lruEntry) :: rest
      ∧ last (TTLLRUCache.getKeys s1) = Some lruKey
      ∧ TTLLRUCache.cache s' = rest ++ [(key, TTLLRUCache.mkEntry val (now + ttl))]
      ∧ TTLLRUCache.onLog s'
        = TTLLRUCache.onLog s1
          ++ [TTLLRUCache.mkLog TTLLRUCache.EVICTED
                ("Evicted LRU key " +:+ quoted lruKey +:+ " to make room");
              TTLLRUCache.mkLog TTLLRUCache.SET
                ("Set key " +:+ quoted key +:+ " with TTL " +:+ pretty ttl +:+ "ms");
              ev])
   ∧ (JSMap.size (TTLLRUCache.cache st3) ≤ maxSize (TTLLRUCache.config st3) →
      JSMap.size (TTLLRUCache.cache s') ≤ maxSize (TTLLRUCache.config st3)))
  ∧ (let s1 := TTLCache.cleanupExpired t_sweep st2 in
     let s' := TTLCache.set t_sweep now key val ttlMs st2 in
     let ttl := default (defaultTTLms (TTLCache.config st2)) ttlMs in
     (JSMap.has key (TTLCache.cache s1) = false →
      JSMap.size (TTLCache.cache s1) >= maxSize (TTLCache.config st2) →
      ∃ lruKey lruEntry ev,
        (lruKey, lruEntry) ∈ TTLCache.cache s1
        ∧ (∀ k' e', (k', e') ∈ TTLCache.cache s1 →
                    TTLCache.lastAccessAt lruEntry ≤ TTLCache.lastAccessAt e')
        ∧ TTLCache.cache s'
          = JSMap.delete lruKey (TTLCache.cache s1)
            ++ [(key, TTLCache.mkEntry val (now + ttl) now)]
        ∧ S (length (JSMap.delete lruKey (TTLCache.cache s1))) = length (TTLCache.cache s1)
        ∧ TTLCache.logCallback s'
          = TTLCache.logCallback s1
            ++ [TTLCache.mkLog TTLCache.EVICTED ("Evicted LRU key: " +:+ lruKey);
                TTLCache.mkLog TTLCache.SET
                  ("Set key: " +:+ key +:+ ", TTL: " +:+ pretty ttl +:+ "ms");
                ev])
     ∧ (JSMap.size (TTLCache.cache st2) ≤ maxSize (TTLCache.config st2) →
        JSMap.size (TTLCache.cache s') ≤ maxSize (TTLCache.config st2))).
Proof.
  intros Hwf3 Hmax3 Hwf2 Hmax2 Hempty. split.
  - intros s1 s' ttl. split.
    + intros Hhas Hfull.
      assert (TTLLRUCache.cache s1
              = filter (λ kv, t_sweep < TTLLRUCache.expiresAt kv.2) (TTLLRUCache.cache st3))
        as Hc1 by (by apply TTLLRUCacheFacts.cache_cleanupExpired_v3).
      assert (JSMap.delete key (TTLLRUCache.cache s1) = TTLLRUCache.cache s1) as Hdel
        by (by apply JSMapFacts.map_delete_absent, JSMapFacts.map_has_false).
      assert (TTLLRUCache.swept_without t_sweep key st3 = TTLLRUCache.cache s1) as Hsw
        by (unfold TTLLRUCache.swept_without; by rewrite <- Hc1).
      destruct (V3Set.onLog_set_evicting_v3 t_sweep now key val ttlMs st3) as [ev Hlog].
      { fold s1. by rewrite Hdel. }
      fold s1 s' ttl in Hlog. rewrite Hdel in Hlog.
      pose proof (V3Set.cache_set_v3 t_sweep now key val ttlMs st3 Hwf3) as Hcache.
      fold s' ttl in Hcache. rewrite Hsw, decide_True in Hcache by done.
      destruct (TTLLRUCache.cache s1) as [|[lruKey lruEntry] rest] eqn:Hs1.
      { unfold JSMap.size in Hfull. simpl in Hfull. lia. }
      exists lruKey, lruEntry, rest, ev. split_and!; [done| |done|done].
      unfold TTLLRUCache.getKeys. rewrite Hs1. by rewrite last_reverse.
    + intros Hsize. pose proof (V3Set.size_set_v3 t_sweep now key val ttlMs st3 Hwf3 Hmax3).
      unfold s'. lia.
  - intros s1 s' ttl. split.
    + intros Hhas Hfull.
      destruct (V2Set.set_evicting_v2 t_sweep now key val ttlMs st2 Hwf2 Hmax2 Hhas Hfull)
        as (lruKey & lruEntry & Hin & Hmin & Hrest).
      assert (JSMap.wf (TTLCache.cache s1)) as Hwf1 by (by apply TTLCacheFacts.wf_cleanupExpired_v2).
      assert (lruKey ∈ JSMap.keys (TTLCache.cache s1)) as Hk
        by (by apply (list_elem_of_fmap_2 fst) in Hin).
      assert (lruKey ≠ EmptyString) as Hne.
      { intros ->. apply JSMapFacts.map_has_false, JSMapFacts.map_get_None in Hempty. apply Hempty.
        eapply elem_of_sublist; [exact Hk|]. unfold s1.
        rewrite TTLCacheFacts.cache_cleanupExpired_v2 by done. apply JSMapFacts.map_keys_filter. }
      destruct (Hrest Hne) as (Hcache & ev & Hlog).
      exists lruKey, lruEntry, ev. split_and!; [done|done|done| |done].
      apply JSMapFacts.map_length_delete_present; [done | by apply JSMapFacts.map_has_true].
    + intros Hsize.
      pose proof (V2Set.size_set_v2 t_sweep now key val ttlMs st2 Hwf2 Hmax2 Hempty).
      unfold s'. lia.
Qed.

End eviction.

Section lookup.
Context `{LocalStorage}.
Context {J3 : JSON TTLLRUCache.CacheEntry} {J2 : JSON TTLCache.CacheEntry}.

(** C2 (amended).  In both engines [get(key)] returns the stored value exactly
    when the key is resident with [now < expiresAt]; on a resident key with
    [expiresAt ≤ now] it returns nothing, the entry is gone afterwards and an
    [expired] event was emitted for it; on an absent key it returns nothing and
    emits [miss]; on a live key it emits [hit].  [TTLLRUCache.get] then moves
    the key to the head of [getKeys].  [TTLCache.get] stamps the entry with
    [lastAccessAt = now] where it stands, which makes the key the head of
    [getAll] when every other resident entry carries an older stamp. *)
Theorem C2_get_live_value_or_absent (t_sweep now : Z) (key : string)
    (st3 : TTLLRUCache.t) (st2 : TTLCache.t) :
  JSMap.wf (TTLLRUCache.cache st3) → JSMap.wf (TTLCache.cache st2) → t_sweep ≤ now →
  let r3 := TTLLRUCache.get t_sweep now key st3 in
  let r2 := TTLCache.get now key st2 in
  ((∀ v, r3.1 = Some v
         ↔ ∃ e, JSMap.get key (TTLLRUCache.cache st3) = Some e
                ∧ TTLLRUCache.value e = v ∧ now < TTLLRUCache.expiresAt e)
   ∧ (∀ e, JSMap.get key (TTLLRUCache.cache st3) = Some e → TTLLRUCache.expiresAt e ≤ now →
        r3.1 = None
        ∧ JSMap.get key (TTLLRUCache.cache r3.2) = None
        ∧ ∃ evs, TTLLRUCache.onLog r3.2 = TTLLRUCache.onLog st3 ++ evs
                 ∧ (TTLLRUCache.expired_event key ∈ evs
                    ∨ TTLLRUCache.mkLog TTLLRUCache.EXPIRED
                        ("Key " +:+ quoted key +:+ " expired on access") ∈ evs))
   ∧ (∀ e, JSMap.get key (TTLLRUCache.cache st3) = Some e → now < TTLLRUCache.expiresAt e →
        head (TTLLRUCache.getKeys r3.2) = Some key
        ∧ last (TTLLRUCache.onLog r3.2)
          = Some (TTLLRUCache.mkLog TTLLRUCache.HIT ("Cache hit for key " +:+ quoted key)))
   ∧ (JSMap.get key (TTLLRUCache.cache st3) = None →
        r3.1 = None
        ∧ last (TTLLRUCache.onLog r3.2)
          = Some (TTLLRUCache.mkLog TTLLRUCache.MISS ("Cache miss for key " +:+ quoted key))))
  ∧ ((∀ v, r2.1 = Some v
           ↔ ∃ e, JSMap.get key (TTLCache.cache st2) = Some e
                  ∧ TTLCache.value e = v ∧ now < TTLCache.expiresAt e)
     ∧ (∀ e, JSMap.get key (TTLCache.cache st2) = Some e → TTLCache.expiresAt e ≤ now →
          r2.1 = None
          ∧ JSMap.get key (TTLCache.cache r2.2) = None
          ∧ ∃ ev, TTLCache.logCallback r2.2
                  = TTLCache.logCallback st2
                    ++ [TTLCache.mkLog TTLCache.EXPIRED ("Key expired and removed: " +:+ key); ev])
     ∧ (∀ e, JSMap.get key (TTLCache.cache st2) = Some e → now < TTLCache.expiresAt e →
          JSMap.get key (TTLCache.cache r2.2)
          = Some (TTLCache.mkEntry (TTLCache.value e) (TTLCache.expiresAt e) now)
          ∧ JSMap.keys (TTLCache.cache r2.2) = JSMap.keys (TTLCache.cache st2)
          ∧ last (TTLCache.logCallback r2.2)
            = Some (TTLCache.mkLog TTLCache.HIT ("Cache hit for key: " +:+ key))
          ∧ ((∀ k' e', (k', e') ∈ TTLCache.cache st2 → k' ≠ key →
                       TTLCache.lastAccessAt e' < now) →
             head (TTLCache.getAll r2.2).*1 = Some key))
     ∧ (JSMap.get key (TTLCache.cache st2) = None →
          r2 = (None, TTLCache.log TTLCache.MISS ("Cache miss for key: " +:+ key) st2))).
Proof.
  intros Hwf3 Hwf2 Hle r3 r2. split; split_and!.
  - intros v. by apply V3Get.get_returns_v3.
  - intros e Hg Hexp. exact (V3Get.get_expired_v3 t_sweep now key st3 e Hwf3 Hle Hg Hexp).
  - intros e Hg Hlive.
    destruct (V3Get.get_live_v3 t_sweep now key st3 e Hwf3 Hle Hg Hlive) as (_ & _ & ? & ?).
    done.
  - intros Hg. exact (V3Get.get_absent_v3 t_sweep now key st3 Hwf3 Hg).
  - intros v. apply TTLCacheFacts.get_returns_v2.
  - intros e Hg Hexp.
    destruct (TTLCacheFacts.get_expired_v2 now key st2 e Hg Hexp) as (? & Hc & ?).
    split_and!; [done| |done]. unfold r2. rewrite Hc. apply JSMapFacts.map_get_delete_eq.
  - intros e Hg Hlive.
    destruct (TTLCacheFacts.get_live_v2 now key st2 e Hwf2 Hg Hlive) as (_ & Hc & ? & ?).
    unfold r2. split_and!; [|  |done|done].
    + rewrite Hc. apply JSMapFacts.map_get_set_eq.
    + rewrite Hc. apply JSMapFacts.map_keys_set_present. eauto using JSMapFacts.map_get_Some_key.
  - intros Hg. by apply TTLCacheFacts.get_absent_v2.
Qed.

End lookup.

Section order.
Context `{LocalStorage}.
Context {J3 : JSON TTLLRUCache.CacheEntry} {J2 : JSON TTLCache.CacheEntry}.

(** C3 (amended).  In [TTLLRUCache], after any sequence of calls on a freshly
    constructed engine, [getKeys] lists every resident key once, and it is the
    order obtained by replaying the uses (each [set], each [get] that returned
    a value) as moves to the front over the order found at construction, cut
    down to the resident keys; one more call that uses a key puts it first, and
    one that uses none (a [get] that returns nothing among them) only removes
    keys; [getEntries] shows the same order cut down to the live entries.
    In [TTLCache], [getAll] is the resident entries sorted by [lastAccessAt]
    from newest to oldest, the entries that share a stamp standing in the
    order the [Map] has them; a [set] or a [get] that returns a value puts its
    key first when every other resident entry carries an older stamp, and a
    [get] that returns nothing leaves the order of the other keys as it was. *)
Theorem C3_order_replays_the_uses (now : Z) (cfg : CacheConfig) (b : Browser)
    (cs : list Recency.Call) (call : Recency.Call)
    (t t_sweep now' : Z) (key val : string) (ttlMs : option Z) (st2 : TTLCache.t) :
  JSMap.wf (TTLCache.cache st2) →
  (let st0 := TTLLRUCache.new now cfg b in
   let st := Recency.run cs st0 in
   NoDup (TTLLRUCache.getKeys st)
   ∧ (∀ k, k ∈ TTLLRUCache.getKeys st ↔ JSMap.has k (TTLLRUCache.cache st) = true)
   ∧ TTLLRUCache.getKeys st
     = filter (λ k, k ∈ JSMap.keys (TTLLRUCache.cache st))
              (Recency.spec_order (TTLLRUCache.getKeys st0) (Recency.history cs st0))
   ∧ match Recency.used call st with
     | Some k => head (TTLLRUCache.getKeys (Recency.step call st)) = Some k
     | None =>
         TTLLRUCache.getKeys (Recency.step call st) `sublist_of` TTLLRUCache.getKeys st
     end
   ∧ (TTLLRUCache.getEntries t st).1
     = filter (λ kv, t < TTLLRUCache.expiresAt kv.2) (reverse (TTLLRUCache.cache st))
   ∧ (reverse (TTLLRUCache.cache st)).*1 = TTLLRUCache.getKeys st)
  ∧ (TTLCache.getAll st2 ≡ₚ TTLCache.cache st2
     ∧ JSArray.descending TTLCache.stamp (TTLCache.getAll st2)
     ∧ (∀ s, filter (λ kv, TTLCache.stamp kv = s) (TTLCache.getAll st2)
             = filter (λ kv, TTLCache.stamp kv = s) (TTLCache.cache st2))
     ∧ ((∀ k' e', (k', e') ∈ TTLCache.cache st2 → k' ≠ key →
                  TTLCache.lastAccessAt e' < now') →
        head (TTLCache.getAll (TTLCache.set t_sweep now' key val ttlMs st2)).*1 = Some key
        ∧ ((TTLCache.get now' key st2).1 ≠ None →
           head (TTLCache.getAll (TTLCache.get now' key st2).2).*1 = Some key))
     ∧ ((TTLCache.get now' key st2).1 = None →
        TTLCache.getAll (TTLCache.get now' key st2).2
        = filter (λ kv, kv.1 ≠ key) (TTLCache.getAll st2))).
Proof.
  intros Hwf2. split.
  - intros st0 st.
    assert (JSMap.wf (TTLLRUCache.cache st)) as Hwf
      by apply RecencyFacts.wf_run, V3Store.wf_new_v3.
    split_and!.
    + by apply RecencyFacts.NoDup_getKeys.
    + intros k. by rewrite RecencyFacts.elem_of_getKeys, JSMapFacts.map_has_true.
    + apply RecencyFacts.getKeys_run, V3Store.wf_new_v3.
    + pose proof (RecencyFacts.getKeys_step call st Hwf) as Hstep.
      pose proof (RecencyFacts.step_effect call st Hwf) as Heff.
      destruct (Recency.used call st) as [k|]; [|done].
      destruct Heff as (c'' & e & Hcache & _). unfold TTLLRUCache.getKeys, JSMap.keys.
      by rewrite Hcache, fmap_app, reverse_app.
    + unfold TTLLRUCache.getEntries. cbn [fst].
      by rewrite TTLLRUCacheFacts.cache_cleanupExpired_v3, filter_reverse.
    + unfold TTLLRUCache.getKeys, JSMap.keys. by rewrite fmap_reverse.
  - split_and!.
    + apply TTLCacheFacts.getAll_Permutation_v2.
    + apply TTLCacheFacts.getAll_descending_v2.
    + intros s. rewrite TTLCacheFacts.getAll_sort_v2. apply JSArrayFacts.sort_stable.
    + intros Hold. split; [by apply V2Set.set_head_getAll_v2|].
      intros Hsome. destruct (TTLCache.get now' key st2).1 as [v|] eqn:Hv; [|done].
      apply TTLCacheFacts.get_returns_v2 in Hv as (e & Hg & _ & Hlive).
      by destruct (TTLCacheFacts.get_live_v2 now' key st2 e Hwf2 Hg Hlive) as (_ & _ & _ & ->).
    + intros Hnone. rewrite !TTLCacheFacts.getAll_sort_v2.
      rewrite JSArrayFacts.filter_sort. f_equal.
      unfold TTLCache.get in *. destruct (JSMap.get key (TTLCache.cache st2)) as [e|] eqn:Hg.
      * destruct (decide (TTLCache.isExpired now' e)); [|done].
        cbn [snd]. by rewrite TTLCacheFacts.cache_saveToStorage_v2.
      * cbn [snd TTLCache.cache TTLCache.log]. symmetry.
        by apply JSMapFacts.map_delete_absent.
Qed.

End order.

Section size.
Context `{LocalStorage}.
Context {J3 : JSON TTLLRUCache.CacheEntry} {J2 : JSON TTLCache.CacheEntry}.

(** C4 (amended).  [TTLLRUCache.getSize()] sweeps first and reports the
    number of resident entries with [now < expiresAt]; the state it leaves
    holds exactly those entries.  [TTLCache.size()] does not sweep: it reports
    every resident entry, the live ones and the expired ones that no [get] or
    [set] has removed yet. *)
Theorem C4_size_of_live_entries (now : Z) (st3 : TTLLRUCache.t) (st2 : TTLCache.t) :
  JSMap.wf (TTLLRUCache.cache st3) →
  ((TTLLRUCache.getSize now st3).1
   = Z.of_nat (length (filter (λ kv, now < TTLLRUCache.expiresAt kv.2)
                              (TTLLRUCache.cache st3)))
   ∧ TTLLRUCache.cache (TTLLRUCache.getSize now st3).2
     = filter (λ kv, now < TTLLRUCache.expiresAt kv.2) (TTLLRUCache.cache st3))
  ∧ TTLCache.size st2
    = Z.of_nat (length (filter (λ kv, now < TTLCache.expiresAt kv.2) (TTLCache.cache st2)))
      + Z.of_nat (length (filter (λ kv, TTLCache.expiresAt kv.2 ≤ now) (TTLCache.cache st2))).
Proof.
  intros Hwf. split; [by apply V3Misc.getSize_live_v3|].
  unfold TTLCache.size, JSMap.size. rewrite <- Nat2Z.inj_add. f_equal.
  induction (TTLCache.cache st2) as [|[k e] c IH]; [done|].
  rewrite !filter_cons. simpl.
  destruct (decide (now < TTLCache.expiresAt e)), (decide (TTLCache.expiresAt e ≤ now));
    simpl; lia.
Qed.

End size.

Section expiry.
Context `{LocalStorage}.
Context {J3 : JSON TTLLRUCache.CacheEntry} {J2 : JSON TTLCache.CacheEntry}.

(** C5 (amended).  [TTLLRUCache.set] and [TTLCache.set] store
    [expiresAt = now + ttl] when a ttl is given, an explicit [0] included, and
    [now + config.defaultTTLms] when it is omitted; a later [get] returns the
    value exactly while its reading is below that [expiresAt], so an entry
    written with ttl [0] is never returned.  [CacheSystem.setCacheValue] (v1)
    has no default ttl: with the ttl omitted the entry has no expiry and
    [getCacheValue] returns it at every reading; with a non-zero ttl the expiry
    is [now + ttl], and [getCacheValue] returns the value at a reading up to
    and including the expiry and nothing at a reading above it. *)
Theorem C5_expiry_from_ttl (t_sweep now t_get_sweep t_get t_access : Z)
    (key val : string) (ttlMs : option Z)
    (st3 : TTLLRUCache.t) (st2 : TTLCache.t)
    (maxSize1 : Z) (current : list (string * CacheSystem.CacheEntry)) :
  JSMap.wf (TTLLRUCache.cache st3) → t_get_sweep ≤ t_get → key ≠ EmptyString →
  (let ttl := default (defaultTTLms (TTLLRUCache.config st3)) ttlMs in
   let s' := TTLLRUCache.set t_sweep now key val ttlMs st3 in
   JSMap.get key (TTLLRUCache.cache s') = Some (TTLLRUCache.mkEntry val (now + ttl))
   ∧ ((TTLLRUCache.get t_get_sweep t_get key s').1 = Some val ↔ t_get < now + ttl))
  ∧ (let ttl := default (defaultTTLms (TTLCache.config st2)) ttlMs in
     let s' := TTLCache.set t_sweep now key val ttlMs st2 in
     JSMap.get key (TTLCache.cache s') = Some (TTLCache.mkEntry val (now + ttl) now)
     ∧ ((TTLCache.get t_get key s').1 = Some val ↔ t_get < now + ttl))
  ∧ (∃ newCache,
       (CacheSystem.setCacheValue maxSize1 now t_access key val ttlMs current).1 = Some newCache
       ∧ match ttlMs with
         | None =>
             JSMap.get key newCache = Some (CacheSystem.mkEntry val None t_access)
             ∧ ∀ t t', (CacheSystem.getCacheValue t t' key newCache).1.1 = Some val
         | Some n =>
             n ≠ 0 →
             JSMap.get key newCache = Some (CacheSystem.mkEntry val (Some (now + n)) t_access)
             ∧ (t_get ≤ now + n →
                (CacheSystem.getCacheValue t_get t_access key newCache).1.1 = Some val)
             ∧ (now + n ≠ 0 → t_get > now + n →
                (CacheSystem.getCacheValue t_get t_access key newCache).1.1 = None)
         end).
Proof.
  intros Hwf Hle Hkey. split_and!.
  - cbn zeta. pose proof (V3Set.get_set_v3 t_sweep now key val ttlMs st3 Hwf) as Hg.
    split; [done|].
    rewrite (V3Get.get_returns_v3 t_get_sweep t_get key _ val (V3Set.wf_set_v3 _ _ _ _ _ _ Hwf) Hle).
    rewrite Hg. split.
    + by intros (e & [= <-] & _ & Hlt).
    + intros Hlt. eexists. split_and!; [done|done|done].
  - cbn zeta. pose proof (V2Set.get_set_v2 t_sweep now key val ttlMs st2) as Hg.
    split; [done|]. rewrite TTLCacheFacts.get_returns_v2, Hg. split.
    + by intros (e & [= <-] & _ & Hlt).
    + intros Hlt. eexists. split_and!; [done|done|done].
  - destruct (CacheSystemFacts.setCacheValue_entry maxSize1 now t_access key val ttlMs current Hkey)
      as (newCache & Hset & Hg).
    exists newCache. split; [done|]. destruct ttlMs as [n|].
    + intros Hn. assert (truthy_number (Some n) = true) as Ht
        by (simpl; by apply bool_decide_eq_true_2).
      rewrite Ht in Hg. cbn [default from_option id] in Hg. split_and!; [done| |].
      * intros Hlt. by apply (CacheSystemFacts.getCacheValue_before _ _ _ _ _ (now + n) Hkey Hg).
      * intros Hz Hgt. by apply (CacheSystemFacts.getCacheValue_after _ _ _ _ _ (now + n) Hkey Hg).
    + cbn in Hg. split; [done|]. intros t t'.
      by apply (CacheSystemFacts.getCacheValue_unlimited _ _ _ _ _ Hkey Hg).
Qed.

End expiry.

Section construction.
Context `{LocalStorage}.
Context {J3 : JSON TTLLRUCache.CacheEntry} {J2 : JSON TTLCache.CacheEntry}.

(** The constructors of both engines make one call on the store, the
    [getItem] under [storageKey].  With nothing stored (or the empty string,
    which the code takes for nothing) the cache starts empty; with a text that
    [JSON.parse] rejects the cache starts empty and the one event is a
    [parse-error]; with a text that parses, the loop runs over the pairs it can
    read: v3 ends with the live ones among them, also when the loop threw,
    and v2 ends with the live ones when the loop got through and with nothing
    when it threw. *)
Lemma constructors_load_once (now : Z) (cfg : CacheConfig) (b : Browser) :
  let st3 := TTLLRUCache.new now cfg b in
  let st2 := TTLCache.new now cfg b in
  calls (TTLLRUCache.browser st3) = calls b ++ [GetItem (storageKey cfg)]
  ∧ calls (TTLCache.browser st2) = calls b ++ [GetItem (storageKey cfg)]
  ∧ match getItem (localStorage b) (storageKey cfg) with
    | None => TTLLRUCache.cache st3 = [] ∧ TTLCache.cache st2 = []
    | Some json =>
        if decide (json = EmptyString)
        then TTLLRUCache.cache st3 = [] ∧ TTLCache.cache st2 = []
        else
          match @JSON_parse TTLLRUCache.CacheEntry J3 json with
          | Throws error =>
              TTLLRUCache.cache st3 = []
              ∧ TTLLRUCache.onLog st3
                = [TTLLRUCache.mkLog TTLLRUCache.PARSE_ERROR
                     ("Failed to parse localStorage: " +:+ error)]
          | Returns items =>
              TTLLRUCache.cache st3
              = JSMap.set_all [] (filter (λ kv, now < TTLLRUCache.expiresAt kv.2)
                                         (readable items))
              ∧ ∀ k e, (k, e) ∈ TTLLRUCache.cache st3 →
                       (k, e) ∈ readable items ∧ now < TTLLRUCache.expiresAt e
          end
          ∧ match @JSON_parse TTLCache.CacheEntry J2 json with
            | Throws error =>
                TTLCache.cache st2 = []
                ∧ TTLCache.logCallback st2
                  = [TTLCache.mkLog TTLCache.PARSE_ERROR
                       ("Failed to load from storage (" +:+ error +:+ "), starting fresh")]
            | Returns items =>
                match fault items with
                | Some error =>
                    TTLCache.cache st2 = []
                    ∧ TTLCache.logCallback st2
                      = [TTLCache.mkLog TTLCache.PARSE_ERROR
                           ("Failed to load from storage (" +:+ error
                              +:+ "), starting fresh")]
                | None =>
                    TTLCache.cache st2
                    = JSMap.set_all [] (filter (λ kv, now < TTLCache.expiresAt kv.2)
                                               (readable items))
                    ∧ ∀ k e, (k, e) ∈ TTLCache.cache st2 →
                             (k, e) ∈ readable items ∧ now < TTLCache.expiresAt e
                end
            end
    end.
Proof.
  intros st3 st2. split_and!; [apply V3Store.calls_new_v3 | apply V2Store.calls_new_v2 |].
  pose proof (V3Store.cache_new_v3 now cfg b) as Hc3.
  pose proof (V2Store.cache_new_v2 now cfg b) as Hc2.
  pose proof (V3Store.onLog_new_malformed_v3 now cfg b) as Hl3.
  pose proof (V2Effects.logCallback_new_v2 now cfg b) as Hl2.
  unfold TTLLRUCache.stored, TTLCache.stored in *. fold st3 in Hc3, Hl3. fold st2 in Hc2, Hl2.
  destruct (getItem (localStorage b) (storageKey cfg)) as [json|]; [|done].
  destruct (decide (json = EmptyString)) as [|Hne]; [done|]. split.
  - destruct (@JSON_parse _ J3 json) as [items|error] eqn:Hp;
      [|split; [done | by apply (Hl3 json error)]].
    split; [done|]. intros k e Hin. rewrite Hc3 in Hin.
    apply JSMapFacts.map_elem_set_all in Hin as [Hin|Hin]; [by apply elem_of_nil in Hin|].
    rewrite list_elem_of_filter in Hin. by destruct Hin.
  - destruct (@JSON_parse _ J2 json) as [items|error] eqn:Hp; [|done].
    destruct (fault items) as [error|]; [done|].
    split; [done|]. intros k e Hin. rewrite Hc2 in Hin.
    apply JSMapFacts.map_elem_set_all in Hin as [Hin|Hin]; [by apply elem_of_nil in Hin|].
    rewrite list_elem_of_filter in Hin. by destruct Hin.
Qed.

(** C6.  A stored text that [JSON.parse] accepts and that is no snapshot: the
    load loop throws at the first element that is no [[key, entry]] pair.
    Both engines catch what is thrown and log a [parse-error] as their one
    event.  v2 clears its [Map] in the [catch] and starts empty.  v3 does
    not: it starts with the entries the loop had put in before it threw, so
    every live pair that stands before the faulty element is resident in an
    engine that has reported a failed parse. *)
Theorem C6_failed_load_leaves_entries_in_v3 (now : Z) (cfg : CacheConfig)
    (b3 b2 : Browser) (json3 json2 : string)
    (items3 : list (Item TTLLRUCache.CacheEntry)) (items2 : list (Item TTLCache.CacheEntry))
    (error3 error2 : string) :
  getItem (localStorage b3) (storageKey cfg) = Some json3 → json3 ≠ EmptyString →
  @JSON_parse TTLLRUCache.CacheEntry J3 json3 = Returns items3 →
  fault items3 = Some error3 →
  getItem (localStorage b2) (storageKey cfg) = Some json2 → json2 ≠ EmptyString →
  @JSON_parse TTLCache.CacheEntry J2 json2 = Returns items2 →
  fault items2 = Some error2 →
  let st3 := TTLLRUCache.new now cfg b3 in
  let st2 := TTLCache.new now cfg b2 in
  TTLLRUCache.onLog st3
  = [TTLLRUCache.mkLog TTLLRUCache.PARSE_ERROR ("Failed to parse localStorage: " +:+ error3)]
  ∧ TTLLRUCache.cache st3
    = JSMap.set_all [] (filter (λ kv, now < TTLLRUCache.expiresAt kv.2) (readable items3))
  ∧ (∀ k e, (k, e) ∈ readable items3 → now < TTLLRUCache.expiresAt e →
            JSMap.has k (TTLLRUCache.cache st3) = true)
  ∧ TTLCache.logCallback st2
    = [TTLCache.mkLog TTLCache.PARSE_ERROR
         ("Failed to load from storage (" +:+ error2 +:+ "), starting fresh")]
  ∧ TTLCache.cache st2 = [].
Proof.
  intros Hs3 Hne3 Hp3 Hf3 Hs2 Hne2 Hp2 Hf2 st3 st2.
  assert (TTLLRUCache.cache st3
          = JSMap.set_all [] (filter (λ kv, now < TTLLRUCache.expiresAt kv.2)
                                     (readable items3))) as Hc3.
  { unfold st3. rewrite V3Store.cache_new_v3. unfold TTLLRUCache.stored.
    by rewrite Hs3, decide_False, Hp3. }
  split_and!.
  - unfold st3. rewrite V3Effects.onLog_new. unfold TTLLRUCache.stored.
    by rewrite Hs3, decide_False, Hp3, Hf3.
  - done.
  - intros k e Hin Hlive. rewrite Hc3. apply JSMapFacts.map_has_true.
    apply JSMapFacts.map_keys_set_all. right.
    apply (list_elem_of_fmap_2 fst _ (k, e)). by apply list_elem_of_filter.
  - unfold st2. rewrite V2Effects.logCallback_new_v2. unfold TTLCache.stored.
    by rewrite Hs2, decide_False, Hp2, Hf2.
  - unfold st2. rewrite V2Store.cache_new_v2. unfold TTLCache.stored.
    by rewrite Hs2, decide_False, Hp2, Hf2.
Qed.

End construction.

Section round_trip.
Context `{LocalStorage} `{JSON TTLLRUCache.CacheEntry}.
Import TTLLRUCache.

(** C7.  Save the snapshot of a v3 engine and, when the store took it, build
    a fresh engine on the same [storageKey] at a later reading: the fresh
    cache holds a key with an entry exactly when the saving cache held that
    key with that entry (value and expiry), the entry was live at the save and
    it has not expired by the load. *)
Theorem C7_save_then_load_keeps_live_entries (t_save t_load : Z) (st : t)
    (cfg : CacheConfig) (s' : Storage) :
  JSMap.wf (cache st) →
  setItem (localStorage (browser st)) (storageKey (config st)) (JSON_stringify (cache st))
    = Returns s' →
  storageKey cfg = storageKey (config st) →
  t_save ≤ t_load →
  let fresh := new t_load cfg (browser (saveToStorage st)) in
  ∀ k e, JSMap.get k (cache fresh) = Some e
         ↔ (JSMap.get k (cache st) = Some e ∧ t_save < expiresAt e)
           ∧ ¬ expiresAt e ≤ t_load.
Proof.
  intros Hwf Hset Hkey Hle fresh k e. unfold fresh.
  rewrite (V3Store.cache_reload_v3 t_load st cfg s') by done.
  rewrite (JSMapFacts.map_get_filter (λ kv, t_load < expiresAt kv.2)) by done.
  destruct (JSMap.get k (cache st)) as [e0|]; [|split; [done | by intros [[? _] _]]].
  cbn [snd]. destruct (decide (t_load < expiresAt e0)) as [Hlive|Hdead].
  - split.
    + intros [= <-]. split_and!; [done|lia|lia].
    + by intros [[? _] _].
  - split; [done|]. intros [[[= <-] _] ?]. lia.
Qed.

End round_trip.

Section membership.
Context `{LocalStorage}.
Context {J3 : JSON TTLLRUCache.CacheEntry} {J2 : JSON TTLCache.CacheEntry}.

(** C8 (amended).  [TTLLRUCache.has(key)] is true exactly when the key is
    resident with [now < expiresAt]; it removes the expired entries and leaves
    the others in the order they had.  [TTLCache.has(key)] is true exactly when
    the key is resident, expired or not, and changes nothing. *)
Theorem C8_has_reports_without_use (now : Z) (key : string)
    (st3 : TTLLRUCache.t) (st2 : TTLCache.t) :
  JSMap.wf (TTLLRUCache.cache st3) →
  (((TTLLRUCache.has now key st3).1 = true
    ↔ ∃ e, JSMap.get key (TTLLRUCache.cache st3) = Some e ∧ now < TTLLRUCache.expiresAt e)
   ∧ TTLLRUCache.cache (TTLLRUCache.has now key st3).2
     = filter (λ kv, now < TTLLRUCache.expiresAt kv.2) (TTLLRUCache.cache st3)
   ∧ TTLLRUCache.getKeys (TTLLRUCache.has now key st3).2
       `sublist_of` TTLLRUCache.getKeys st3)
  ∧ (TTLCache.has key st2 = true ↔ ∃ e, JSMap.get key (TTLCache.cache st2) = Some e).
Proof.
  intros Hwf. destruct (V3Misc.has_live_v3 now key st3 Hwf) as [Hiff Hcache].
  split; [split_and!; [done|done|]|].
  - unfold TTLLRUCache.getKeys. rewrite Hcache.
    apply sublist_reverse, JSMapFacts.map_keys_filter.
  - unfold TTLCache.has, JSMap.has.
    destruct (JSMap.get key (TTLCache.cache st2)) as [e|]; split; try done.
    + intros _. by exists e.
    + by intros [e ?].
Qed.

End membership.

Section removal.
Context `{LocalStorage}.
Context {J3 : JSON TTLLRUCache.CacheEntry} {J2 : JSON TTLCache.CacheEntry}.

(** C9 (amended).  [TTLLRUCache.delete(key)] on a resident key removes it,
    returns [true], writes the snapshot without the key and logs [delete]; on
    an absent key it returns [false] and leaves the whole state, the store
    included, as it was; a [delete] right after a [delete] of the same key
    returns [false].  [TTLCache.delete(key)] returns nothing; it removes and
    writes the snapshot when the key is resident and changes nothing when it
    is absent. *)
Theorem C9_delete_reports_removal (key : string) (st3 : TTLLRUCache.t) (st2 : TTLCache.t) :
  (JSMap.has key (TTLLRUCache.cache st3) = true →
   (TTLLRUCache.delete key st3).1 = true
   ∧ TTLLRUCache.cache (TTLLRUCache.delete key st3).2 = JSMap.delete key (TTLLRUCache.cache st3)
   ∧ JSMap.get key (TTLLRUCache.cache (TTLLRUCache.delete key st3).2) = None
   ∧ calls (TTLLRUCache.browser (TTLLRUCache.delete key st3).2)
     = calls (TTLLRUCache.browser st3)
       ++ [SetItem (storageKey (TTLLRUCache.config st3))
                   (JSON_stringify (JSMap.delete key (TTLLRUCache.cache st3)))]
   ∧ TTLLRUCache.mkLog TTLLRUCache.DELETE ("Deleted key " +:+ quoted key)
       ∈ TTLLRUCache.onLog (TTLLRUCache.delete key st3).2)
  ∧ (JSMap.has key (TTLLRUCache.cache st3) = false →
     TTLLRUCache.delete key st3 = (false, st3))
  ∧ (TTLLRUCache.delete key (TTLLRUCache.delete key st3).2).1 = false
  ∧ (JSMap.has key (TTLCache.cache st2) = true →
     TTLCache.cache (TTLCache.delete key st2).2 = JSMap.delete key (TTLCache.cache st2)
     ∧ calls (TTLCache.browser (TTLCache.delete key st2).2)
       = calls (TTLCache.browser st2)
         ++ [SetItem (storageKey (TTLCache.config st2))
                     (JSON_stringify (JSMap.delete key (TTLCache.cache st2)))])
  ∧ (JSMap.has key (TTLCache.cache st2) = false → TTLCache.delete key st2 = (tt, st2)).
Proof.
  split_and!.
  - apply V3Misc.delete_present_v3.
  - intros Hhas%JSMapFacts.map_has_false. by apply V3Misc.delete_absent_v3.
  - apply V3Misc.delete_twice_v3.
  - apply V2Set.delete_present_v2.
  - intros Hhas%JSMapFacts.map_has_false. by apply V2Set.delete_absent_v2.
Qed.

End removal.

Section reload_order.
Context `{LocalStorage} `{JSON TTLLRUCache.CacheEntry}.
Import TTLLRUCache.

(** C10.  The snapshot that [saveToStorage] writes lists the resident entries
    in the order of the [Map], least recently used first, which is [getKeys]
    reversed.  When the store took it and every resident entry is live at the
    load (hence at the earlier save), a fresh engine on the same [storageKey]
    holds the same [Map]: [getKeys] and [getEntries] give the same sequence as
    on the saving engine. *)
Theorem C10_reload_keeps_recency_order (t_load : Z) (st : t)
    (cfg : CacheConfig) (s' : Storage) :
  JSMap.wf (cache st) →
  setItem (localStorage (browser st)) (storageKey (config st)) (JSON_stringify (cache st))
    = Returns s' →
  storageKey cfg = storageKey (config st) →
  (∀ k e, (k, e) ∈ cache st → t_load < expiresAt e) →
  let fresh := new t_load cfg (browser (saveToStorage st)) in
  calls (browser (saveToStorage st))
  = calls (browser st) ++ [SetItem (storageKey (config st)) (JSON_stringify (cache st))]
  ∧ JSMap.keys (cache st) = reverse (getKeys st)
  ∧ cache fresh = cache st
  ∧ getKeys fresh = getKeys st
  ∧ ∀ t, (getEntries t fresh).1 = (getEntries t st).1.
Proof.
  intros Hwf Hset Hkey Hlive fresh.
  assert (cache fresh = cache st) as Hsame.
  { unfold fresh. rewrite (V3Store.cache_reload_v3 t_load st cfg s') by done.
    apply filter_all. intros [k e] Hin. by apply (Hlive k e). }
  split_and!.
  - apply TTLLRUCacheFacts.calls_saveToStorage_v3.
  - unfold getKeys. by rewrite reverse_involutive.
  - done.
  - unfold getKeys. by rewrite Hsame.
  - intros t. unfold getEntries. cbn [fst].
    rewrite !TTLLRUCacheFacts.cache_cleanupExpired_v3; rewrite ?Hsame; done.
Qed.

End reload_order.

(** * Further properties of the engines and of the code around them *)

Section clearing.
Context `{LocalStorage}.
Context {J3 : JSON TTLLRUCache.CacheEntry} {J2 : JSON TTLCache.CacheEntry}.

(** X1.  [clear()] of either engine leaves an empty [Map] whatever it held,
    emits its event ([clear] in v3, [set] in v2) followed by the outcome of
    the save, and makes one call on the store: it writes the empty snapshot
    under [storageKey].  Every [get] on the cleared engine returns nothing,
    and when the store took the write, an engine built on it afterwards starts
    empty. *)
Theorem X1_clear_empties_memory_and_store (st3 : TTLLRUCache.t) (st2 : TTLCache.t) :
  let s3 := TTLLRUCache.clear st3 in
  let s2 := TTLCache.clear st2 in
  let none3 := JSON_stringify ([] : list (string * TTLLRUCache.CacheEntry)) in
  let none2 := JSON_stringify ([] : list (string * TTLCache.CacheEntry)) in
  (TTLLRUCache.cache s3 = []
   ∧ (∀ t_sweep now key, (TTLLRUCache.get t_sweep now key s3).1 = None)
   ∧ (∃ ev, TTLLRUCache.onLog s3
            = TTLLRUCache.onLog st3
              ++ [TTLLRUCache.mkLog TTLLRUCache.CLEAR "Cache cleared"; ev])
   ∧ calls (TTLLRUCache.browser s3)
     = calls (TTLLRUCache.browser st3)
       ++ [SetItem (storageKey (TTLLRUCache.config st3)) none3]
   ∧ (∀ store',
        setItem (localStorage (TTLLRUCache.browser st3))
                (storageKey (TTLLRUCache.config st3)) none3 = Returns store' →
        ∀ t, TTLLRUCache.cache
               (TTLLRUCache.new t (TTLLRUCache.config st3) (TTLLRUCache.browser s3)) = []))
  ∧ (TTLCache.cache s2 = []
     ∧ (∀ now key, (TTLCache.get now key s2).1 = None)
     ∧ (∃ ev, TTLCache.logCallback s2
              = TTLCache.logCallback st2
                ++ [TTLCache.mkLog TTLCache.SET "Cache cleared"; ev])
     ∧ calls (TTLCache.browser s2)
       = calls (TTLCache.browser st2)
         ++ [SetItem (storageKey (TTLCache.config st2)) none2]
     ∧ (∀ store',
          setItem (localStorage (TTLCache.browser st2))
                  (storageKey (TTLCache.config st2)) none2 = Returns store' →
          ∀ t, TTLCache.cache
                 (TTLCache.new t (TTLCache.config st2) (TTLCache.browser s2)) = [])).
Proof.
  cbn zeta. split.
  - assert (TTLLRUCache.cache (TTLLRUCache.clear st3) = []) as Hc
      by (unfold TTLLRUCache.clear; by rewrite TTLLRUCacheFacts.cache_saveToStorage_v3).
    split_and!; [done| | | |].
    + intros t_sweep now key. unfold TTLLRUCache.get, TTLLRUCache.cleanupExpired.
      rewrite Hc. cbn. by rewrite Hc.
    + unfold TTLLRUCache.clear, TTLLRUCache.saveToStorage.
      destruct (setItem _ _ _); eexists; cbn [TTLLRUCache.onLog TTLLRUCache.log
        TTLLRUCache.with_browser TTLLRUCache.with_cache];
        by rewrite <- (assoc_L (++)).
    + unfold TTLLRUCache.clear. by rewrite TTLLRUCacheFacts.calls_saveToStorage_v3.
    + intros store' Hs t. unfold TTLLRUCache.clear.
      rewrite (V3Store.cache_reload_v3 t _ _ store'); [done| |done|done].
      cbn. apply NoDup_nil_2.
  - assert (TTLCache.cache (TTLCache.clear st2) = []) as Hc
      by (unfold TTLCache.clear; by rewrite TTLCacheFacts.cache_saveToStorage_v2).
    split_and!; [done| | | |].
    + intros now key. unfold TTLCache.get. rewrite Hc. by cbn.
    + unfold TTLCache.clear, TTLCache.saveToStorage.
      destruct (setItem _ _ _); eexists; cbn [TTLCache.logCallback TTLCache.log
        TTLCache.with_browser TTLCache.with_cache];
        by rewrite <- (assoc_L (++)).
    + unfold TTLCache.clear. by rewrite TTLCacheFacts.calls_saveToStorage_v2.
    + intros store' Hs t. unfold TTLCache.clear.
      rewrite (V2Effects.cache_stored_v2 t _ _ []); [done|apply NoDup_nil_2|].
      by apply (V2Effects.stored_saveToStorage_v2
                  (TTLCache.log TTLCache.SET "Cache cleared" (TTLCache.with_cache [] st2))
                  _ store').
Qed.

End clearing.

Section sweeping.
Context `{LocalStorage}.
Context {J3 : JSON TTLLRUCache.CacheEntry} {J2 : JSON TTLCache.CacheEntry}.

(** X2.  [cleanupExpired()], the sweep that opens [set] in both engines and
    every reading method of v3, removes exactly the entries with
    [expiresAt ≤ now] and keeps the others in their order; it emits one
    [expired] event for each removed key, in the order of the [Map], and
    touches neither the configuration nor the store.  A second sweep at the
    same reading changes nothing. *)
Theorem X2_sweep_removes_exactly_the_expired (now : Z)
    (st3 : TTLLRUCache.t) (st2 : TTLCache.t) :
  JSMap.wf (TTLLRUCache.cache st3) → JSMap.wf (TTLCache.cache st2) →
  (let s3 := TTLLRUCache.cleanupExpired now st3 in
   let gone := filter (λ kv, TTLLRUCache.expiresAt kv.2 ≤ now) (TTLLRUCache.cache st3) in
   TTLLRUCache.cache s3
   = filter (λ kv, now < TTLLRUCache.expiresAt kv.2) (TTLLRUCache.cache st3)
   ∧ TTLLRUCache.onLog s3
     = TTLLRUCache.onLog st3 ++ (TTLLRUCache.expired_event <$> gone.*1)
   ∧ TTLLRUCache.config s3 = TTLLRUCache.config st3
   ∧ TTLLRUCache.browser s3 = TTLLRUCache.browser st3
   ∧ TTLLRUCache.cleanupExpired now s3 = s3)
  ∧ (let s2 := TTLCache.cleanupExpired now st2 in
     let gone := filter (λ kv, TTLCache.expiresAt kv.2 ≤ now) (TTLCache.cache st2) in
     TTLCache.cache s2
     = filter (λ kv, now < TTLCache.expiresAt kv.2) (TTLCache.cache st2)
     ∧ TTLCache.logCallback s2
       = TTLCache.logCallback st2 ++ (TTLCache.expired_event <$> gone.*1)
     ∧ TTLCache.config s2 = TTLCache.config st2
     ∧ TTLCache.browser s2 = TTLCache.browser st2
     ∧ TTLCache.cleanupExpired now s2 = s2).
Proof.
  intros Hwf3 Hwf2. cbn zeta. split; split_and!.
  - by apply TTLLRUCacheFacts.cache_cleanupExpired_v3.
  - rewrite TTLLRUCacheFacts.onLog_cleanupExpired_v3. unfold TTLLRUCache.toDelete.
    do 3 f_equal. apply filter_ext_in. intros [k e] _. unfold TTLLRUCache.isExpired. simpl. lia.
  - apply TTLLRUCacheFacts.config_cleanupExpired_v3.
  - apply TTLLRUCacheFacts.browser_cleanupExpired_v3.
  - by apply V3Effects.cleanupExpired_twice.
  - by apply TTLCacheFacts.cache_cleanupExpired_v2.
  - rewrite TTLCacheFacts.logCallback_cleanupExpired_v2. unfold TTLCache.toDelete.
    do 3 f_equal. apply filter_ext_in. intros [k e] _. unfold TTLCache.isExpired. simpl. lia.
  - apply TTLCacheFacts.config_cleanupExpired_v2.
  - apply V2Effects.browser_cleanupExpired_v2.
  - by apply V2Effects.cleanupExpired_twice_v2.
Qed.

End sweeping.

Section writing.
Context `{LocalStorage}.
Context {J3 : JSON TTLLRUCache.CacheEntry} {J2 : JSON TTLCache.CacheEntry}.

(** X3.  Every [set] of either engine ends with one write to the store: the
    snapshot of the [Map] as the [set] leaves it, under [storageKey].  When the
    store takes the write, the last event is [saved] with the number of
    resident entries, and [getItem] gives back that snapshot, which parses to
    the [Map].  When the store throws, the last event is [parse-error] with
    ["Failed to save: "] and the thrown text, the store is as it was, and the
    new entry is in the [Map] all the same. *)
Theorem X3_set_writes_the_snapshot (t_sweep now : Z) (key val : string) (ttlMs : option Z)
    (st3 : TTLLRUCache.t) (st2 : TTLCache.t) :
  JSMap.wf (TTLLRUCache.cache st3) →
  (let s' := TTLLRUCache.set t_sweep now key val ttlMs st3 in
   let text := JSON_stringify (TTLLRUCache.cache s') in
   let ttl := default (defaultTTLms (TTLLRUCache.config st3)) ttlMs in
   calls (TTLLRUCache.browser s')
   = calls (TTLLRUCache.browser st3) ++ [SetItem (storageKey (TTLLRUCache.config st3)) text]
   ∧ JSMap.get key (TTLLRUCache.cache s') = Some (TTLLRUCache.mkEntry val (now + ttl))
   ∧ match setItem (localStorage (TTLLRUCache.browser st3))
                   (storageKey (TTLLRUCache.config st3)) text with
     | Returns store' =>
         localStorage (TTLLRUCache.browser s') = store'
         ∧ last (TTLLRUCache.onLog s')
           = Some (TTLLRUCache.mkLog TTLLRUCache.SAVED
                     ("Persisted " +:+ pretty (length (TTLLRUCache.cache s'))
                        +:+ " entries to localStorage"))
         ∧ getItem store' (storageKey (TTLLRUCache.config st3)) = Some text
         ∧ JSON_parse text = Returns (Pair <$> TTLLRUCache.cache s')
     | Throws error =>
         localStorage (TTLLRUCache.browser s') = localStorage (TTLLRUCache.browser st3)
         ∧ last (TTLLRUCache.onLog s')
           = Some (TTLLRUCache.mkLog TTLLRUCache.PARSE_ERROR ("Failed to save: " +:+ error))
     end)
  ∧ (let s' := TTLCache.set t_sweep now key val ttlMs st2 in
     let text := JSON_stringify (TTLCache.cache s') in
     let ttl := default (defaultTTLms (TTLCache.config st2)) ttlMs in
     calls (TTLCache.browser s')
     = calls (TTLCache.browser st2) ++ [SetItem (storageKey (TTLCache.config st2)) text]
     ∧ JSMap.get key (TTLCache.cache s') = Some (TTLCache.mkEntry val (now + ttl) now)
     ∧ match setItem (localStorage (TTLCache.browser st2))
                     (storageKey (TTLCache.config st2)) text with
       | Returns store' =>
           localStorage (TTLCache.browser s') = store'
           ∧ last (TTLCache.logCallback s')
             = Some (TTLCache.mkLog TTLCache.SAVED
                       ("Persisted " +:+ pretty (length (TTLCache.cache s'))
                          +:+ " entries to localStorage"))
           ∧ getItem store' (storageKey (TTLCache.config st2)) = Some text
           ∧ JSON_parse text = Returns (Pair <$> TTLCache.cache s')
       | Throws error =>
           localStorage (TTLCache.browser s') = localStorage (TTLCache.browser st2)
           ∧ last (TTLCache.logCallback s')
             = Some (TTLCache.mkLog TTLCache.PARSE_ERROR ("Failed to save: " +:+ error))
       end).
Proof.
  intros Hwf. cbn zeta. split.
  - split; [|split; [by apply V3Set.get_set_v3|]].
    + destruct (V3Effects.set_saves t_sweep now key val ttlMs st3) as (pre & -> & Hb & Hc & _).
      by rewrite TTLLRUCacheFacts.calls_saveToStorage_v3,
                 TTLLRUCacheFacts.cache_saveToStorage_v3, Hb, Hc.
    + destruct (V3Effects.set_saves t_sweep now key val ttlMs st3) as (pre & -> & Hb & Hc & _).
      rewrite TTLLRUCacheFacts.cache_saveToStorage_v3, <- Hb, <- Hc.
      destruct (setItem _ _ _) as [store'|error] eqn:Hs.
      * rewrite (V3Effects.saveToStorage_returns pre store' Hs).
        cbn [TTLLRUCache.browser TTLLRUCache.onLog TTLLRUCache.log TTLLRUCache.with_browser
             TTLLRUCache.cache localStorage].
        split_and!; [done|by rewrite last_snoc| |apply JSON_parse_stringify].
        by apply (getItem_setItem _ _ _ _ Hs).
      * rewrite (V3Effects.saveToStorage_throws pre error Hs).
        cbn [TTLLRUCache.browser TTLLRUCache.onLog TTLLRUCache.log TTLLRUCache.with_browser
             localStorage].
        split; [done|by rewrite last_snoc].
  - split; [|split; [by apply V2Set.get_set_v2|]].
    + destruct (V2Effects.set_saves_v2 t_sweep now key val ttlMs st2) as (pre & -> & Hb & Hc & _).
      by rewrite TTLCacheFacts.calls_saveToStorage_v2,
                 TTLCacheFacts.cache_saveToStorage_v2, Hb, Hc.
    + destruct (V2Effects.set_saves_v2 t_sweep now key val ttlMs st2) as (pre & -> & Hb & Hc & _).
      rewrite TTLCacheFacts.cache_saveToStorage_v2, <- Hb, <- Hc.
      destruct (setItem _ _ _) as [store'|error] eqn:Hs.
      * rewrite (V2Effects.saveToStorage_returns_v2 pre store' Hs).
        cbn [TTLCache.browser TTLCache.logCallback TTLCache.log TTLCache.with_browser
             TTLCache.cache localStorage].
        split_and!; [done|by rewrite last_snoc| |apply JSON_parse_stringify].
        by apply (getItem_setItem _ _ _ _ Hs).
      * rewrite (V2Effects.saveToStorage_throws_v2 pre error Hs).
        cbn [TTLCache.browser TTLCache.logCallback TTLCache.log TTLCache.with_browser
             localStorage].
        split; [done|by rewrite last_snoc].
Qed.

End writing.

Section reading.
Context `{LocalStorage} `{JSON TTLLRUCache.CacheEntry}.
Import TTLLRUCache.

(** X4.  The reading methods of v3 make no call on the store: [get], [has],
    [getSize] and [getEntries] leave the browser as they found it, also when
    they remove expired entries, and also when a [get] moves its key to the
    front.  So with a store that holds the snapshot of the [Map], an engine
    built on the store after a [get] that returned a value lists the keys in
    the order from before the [get], while the running engine lists the key
    first. *)
Theorem X4_reads_make_no_store_call (t_sweep now t_load : Z) (key : string) (st : t)
    (cfg : CacheConfig) :
  JSMap.wf (cache st) → t_sweep ≤ now →
  stored cfg (browser st) = Some (JSON_stringify (cache st)) →
  (∀ k e, (k, e) ∈ cache st → t_load < expiresAt e) →
  let r := get t_sweep now key st in
  browser r.2 = browser st
  ∧ browser (has now key st).2 = browser st
  ∧ browser (getSize now st).2 = browser st
  ∧ browser (getEntries now st).2 = browser st
  ∧ (r.1 ≠ None → head (getKeys r.2) = Some key)
  ∧ getKeys (new t_load cfg (browser r.2)) = getKeys st.
Proof.
  intros Hwf Hle Hst Hlive. cbn zeta.
  assert (browser (get t_sweep now key st).2 = browser st) as Hb.
  { unfold get. destruct (JSMap.get _ _); [destruct (decide _)|];
      cbn [snd browser log with_cache]; apply TTLLRUCacheFacts.browser_cleanupExpired_v3. }
  split_and!; [done|apply TTLLRUCacheFacts.browser_cleanupExpired_v3
              |apply TTLLRUCacheFacts.browser_cleanupExpired_v3
              |apply TTLLRUCacheFacts.browser_cleanupExpired_v3| |].
  - intros Hr. destruct (get t_sweep now key st).1 as [v|] eqn:Hv; [|done].
    apply (V3Get.get_returns_v3 t_sweep now key st v Hwf Hle) in Hv as (e & Hg & _ & Hlt).
    by apply (V3Get.get_live_v3 t_sweep now key st e).
  - rewrite Hb. unfold getKeys. f_equal. f_equal.
    rewrite (V3Effects.cache_stored t_load cfg (browser st) (cache st) Hwf Hst).
    apply filter_all. intros [k e] Hin. by apply (Hlive k e).
Qed.

End reading.

Section stale_stamp.
Context `{LocalStorage} `{JSON TTLCache.CacheEntry}.
Import TTLCache.

(** X5.  [TTLCache.get] writes to the store only when it removes its key as
    expired: it then makes one write, the snapshot without the key.  A [get]
    that finds no entry, or returns a value, makes no call on the store; so
    the [lastAccessAt] it stamps is not in the stored snapshot, and with a
    store that holds the snapshot of the [Map], an engine built on it after
    the [get] holds the entry with the stamp from before the [get]. *)
Theorem X5_get_saves_removals_only (now t_load : Z) (key : string) (st : t)
    (cfg : CacheConfig) :
  JSMap.wf (cache st) →
  stored cfg (browser st) = Some (JSON_stringify (cache st)) →
  let r := get now key st in
  match JSMap.get key (cache st) with
  | None => browser r.2 = browser st
  | Some e =>
      if decide (now < expiresAt e)
      then browser r.2 = browser st
           ∧ JSMap.get key (cache r.2) = Some (mkEntry (value e) (expiresAt e) now)
           ∧ (t_load < expiresAt e →
              JSMap.get key (cache (new t_load cfg (browser r.2))) = Some e)
      else calls (browser r.2)
           = calls (browser st)
             ++ [SetItem (storageKey (config st))
                         (JSON_stringify (JSMap.delete key (cache st)))]
  end.
Proof.
  intros Hwf Hst. cbn zeta. unfold get.
  destruct (JSMap.get key (cache st)) as [e|] eqn:Hg; [|done].
  destruct (decide (now < expiresAt e)) as [Hlt|Hge].
  - rewrite decide_False by (unfold isExpired; lia).
    cbn [snd browser cache log with_cache]. split_and!; [done| |].
    + apply JSMapFacts.map_get_set_eq.
    + intros Hlive.
      rewrite (V2Effects.cache_stored_v2 t_load cfg (browser st) (cache st) Hwf Hst).
      rewrite JSMapFacts.map_get_filter by done. rewrite Hg. simpl. by rewrite decide_True.
  - rewrite decide_True by (unfold isExpired; lia).
    cbn [snd]. by rewrite TTLCacheFacts.calls_saveToStorage_v2.
Qed.

End stale_stamp.

Section loading.
Context `{LocalStorage}.
Context {J3 : JSON TTLLRUCache.CacheEntry} {J2 : JSON TTLCache.CacheEntry}.

(** X6.  What a constructor reports.  With a snapshot in the store, the one
    event is [loaded] and its message counts the stored entries with
    [now < expiresAt] and the others; the two counts add up to the length of
    the snapshot, and the cache holds at most as many entries as the first
    count (fewer when the snapshot repeats a key).  With nothing in the store,
    or the empty string, v3 emits no event at all and v2 emits [loaded] with
    ["No stored data found, starting fresh"]; with a text that [JSON.parse]
    rejects, or one whose elements make the load loop throw, the one event is
    the [parse-error]. *)
Theorem X6_constructor_reports_the_load (now : Z) (cfg : CacheConfig) (b : Browser) :
  let st3 := TTLLRUCache.new now cfg b in
  let st2 := TTLCache.new now cfg b in
  match getItem (localStorage b) (storageKey cfg) with
  | None =>
      TTLLRUCache.onLog st3 = []
      ∧ TTLCache.logCallback st2
        = [TTLCache.mkLog TTLCache.LOADED "No stored data found, starting fresh"]
  | Some json =>
      if decide (json = EmptyString)
      then TTLLRUCache.onLog st3 = []
           ∧ TTLCache.logCallback st2
             = [TTLCache.mkLog TTLCache.LOADED "No stored data found, starting fresh"]
      else
        match @JSON_parse TTLLRUCache.CacheEntry J3 json with
        | Throws error =>
            TTLLRUCache.onLog st3
            = [TTLLRUCache.mkLog TTLLRUCache.PARSE_ERROR
                 ("Failed to parse localStorage: " +:+ error)]
        | Returns items =>
            match fault items with
            | Some error =>
                TTLLRUCache.onLog st3
                = [TTLLRUCache.mkLog TTLLRUCache.PARSE_ERROR
                     ("Failed to parse localStorage: " +:+ error)]
            | None =>
                let data := readable items in
                let loaded :=
                  length (filter (λ kv, now < TTLLRUCache.expiresAt kv.2) data) in
                let expired :=
                  length (filter (λ kv, TTLLRUCache.expiresAt kv.2 ≤ now) data) in
                items = Pair <$> data
                ∧ TTLLRUCache.onLog st3
                  = [TTLLRUCache.mkLog TTLLRUCache.LOADED
                       ("Loaded " +:+ pretty loaded +:+ " entries from localStorage ("
                          +:+ pretty expired +:+ " expired)")]
                ∧ (loaded + expired = length data)%nat
                ∧ (length (TTLLRUCache.cache st3) ≤ loaded)%nat
            end
        end
        ∧ match @JSON_parse TTLCache.CacheEntry J2 json with
          | Throws error =>
              TTLCache.logCallback st2
              = [TTLCache.mkLog TTLCache.PARSE_ERROR
                   ("Failed to load from storage (" +:+ error +:+ "), starting fresh")]
          | Returns items =>
              match fault items with
              | Some error =>
                  TTLCache.logCallback st2
                  = [TTLCache.mkLog TTLCache.PARSE_ERROR
                       ("Failed to load from storage (" +:+ error +:+ "), starting fresh")]
              | None =>
                  let data := readable items in
                  let loaded :=
                    length (filter (λ kv, now < TTLCache.expiresAt kv.2) data) in
                  let expired :=
                    length (filter (λ kv, TTLCache.expiresAt kv.2 ≤ now) data) in
                  items = Pair <$> data
                  ∧ TTLCache.logCallback st2
                    = [TTLCache.mkLog TTLCache.LOADED
                         ("Loaded " +:+ pretty loaded +:+ " entries from localStorage ("
                            +:+ pretty expired +:+ " expired entries discarded)")]
                  ∧ (loaded + expired = length data)%nat
                  ∧ (length (TTLCache.cache st2) ≤ loaded)%nat
              end
          end
  end.
Proof.
  cbn zeta.
  pose proof (V3Effects.onLog_new now cfg b) as H3.
  pose proof (V2Effects.logCallback_new_v2 now cfg b) as H2.
  pose proof (V3Store.cache_new_v3 now cfg b) as C3.
  pose proof (V2Store.cache_new_v2 now cfg b) as C2.
  unfold TTLLRUCache.stored in H3, C3. unfold TTLCache.stored in H2, C2.
  destruct (getItem (localStorage b) (storageKey cfg)) as [json|]; [|done].
  destruct (decide (json = EmptyString)); [done|]. split.
  - destruct (@JSON_parse _ J3 json) as [items|error]; [|done].
    destruct (fault items) as [error|] eqn:Hf; [done|].
    cbn zeta. split_and!; [by apply ItemFacts.fault_None|done| |].
    + apply length_filter_split. intros [k e]. simpl. lia.
    + rewrite C3. etransitivity; [apply length_set_all|]. cbn [length]. lia.
  - destruct (@JSON_parse _ J2 json) as [items|error]; [|done].
    destruct (fault items) as [error|] eqn:Hf; [done|].
    cbn zeta. split_and!; [by apply ItemFacts.fault_None|done| |].
    + apply length_filter_split. intros [k e]. simpl. lia.
    + rewrite C2. etransitivity; [apply length_set_all|]. cbn [length]. lia.
Qed.

End loading.

Section get_events.
Context `{LocalStorage} `{JSON TTLLRUCache.CacheEntry}.
Import TTLLRUCache.

(** X7.  The events of one [TTLLRUCache.get].  First the sweep emits
    ["expired and removed"] for every entry with [expiresAt ≤ t_sweep], the
    requested key among them if it had expired; then exactly one more event
    follows: [miss] when the key is absent or was just swept, ["expired on
    access"] when the entry outlived the sweep but not the second reading of
    the clock, and [hit] otherwise.  So a [get] of a key that had expired
    before the call reports [expired] and then [miss]. *)
Theorem X7_get_emits_sweep_then_one_event (t_sweep now : Z) (key : string) (st : t) :
  JSMap.wf (cache st) →
  let r := get t_sweep now key st in
  let swept := (filter (λ kv, expiresAt kv.2 ≤ t_sweep) (cache st)).*1 in
  onLog r.2
  = onLog st ++ (expired_event <$> swept)
    ++ [match JSMap.get key (cache st) with
        | None => mkLog MISS ("Cache miss for key " +:+ quoted key)
        | Some e =>
            if decide (expiresAt e ≤ t_sweep)
            then mkLog MISS ("Cache miss for key " +:+ quoted key)
            else if decide (expiresAt e ≤ now)
                 then mkLog EXPIRED ("Key " +:+ quoted key +:+ " expired on access")
                 else mkLog HIT ("Cache hit for key " +:+ quoted key)
        end]
  ∧ (∀ e, JSMap.get key (cache st) = Some e → expiresAt e ≤ t_sweep →
          expired_event key ∈ (expired_event <$> swept)).
Proof.
  intros Hwf. cbn zeta. split.
  - assert (onLog (cleanupExpired t_sweep st)
            = onLog st ++ (expired_event <$>
                (filter (λ kv, expiresAt kv.2 ≤ t_sweep) (cache st)).*1)) as Hsw.
    { rewrite TTLLRUCacheFacts.onLog_cleanupExpired_v3. unfold toDelete.
      do 3 f_equal. apply filter_ext_in. intros [k e] _. unfold isExpired. simpl. lia. }
    unfold get. rewrite (V3Get.get_after_sweep_v3 t_sweep key st Hwf).
    destruct (JSMap.get key (cache st)) as [e|] eqn:Hg.
    + destruct (decide (t_sweep < expiresAt e)) as [Hlt|Hge].
      * rewrite (decide_False (P := expiresAt e ≤ t_sweep)) by lia.
        destruct (decide (isExpired now e)) as [Hx|Hx]; unfold isExpired in Hx.
        -- rewrite (decide_True (P := expiresAt e ≤ now)) by lia.
           cbn [snd onLog log with_cache]. by rewrite Hsw, <- (assoc_L (++)).
        -- rewrite (decide_False (P := expiresAt e ≤ now)) by lia.
           cbn [snd onLog log with_cache]. by rewrite Hsw, <- (assoc_L (++)).
      * rewrite (decide_True (P := expiresAt e ≤ t_sweep)) by lia.
        cbn [snd onLog log]. by rewrite Hsw, <- (assoc_L (++)).
    + cbn [snd onLog log]. by rewrite Hsw, <- (assoc_L (++)).
  - intros e Hg Hx. apply list_elem_of_fmap. exists key. split; [done|].
    apply list_elem_of_fmap. exists (key, e). split; [done|].
    apply list_elem_of_filter. split; [done|]. by apply JSMapFacts.map_get_Some_elem.
Qed.

End get_events.

Section overwriting.
Context `{LocalStorage}.
Context {J3 : JSON TTLLRUCache.CacheEntry} {J2 : JSON TTLCache.CacheEntry}.

(** X8.  A [set] on a key that is resident and live evicts nothing.  In v3,
    from a state within [maxSize], the swept [Map] loses the old entry of the
    key and gets the new one at its end; every other live entry stays, no
    [evicted] event is emitted, and only [set] and the outcome of the save
    follow the sweep.  In v2, whatever [maxSize] is, the new entry takes the
    place of the old one: the keys keep their order in the [Map] and every
    other entry stays. *)
Theorem X8_overwrite_evicts_nothing (t_sweep now : Z) (key val : string) (ttlMs : option Z)
    (st3 : TTLLRUCache.t) (st2 : TTLCache.t)
    (e3 : TTLLRUCache.CacheEntry) (e2 : TTLCache.CacheEntry) :
  JSMap.wf (TTLLRUCache.cache st3) → JSMap.wf (TTLCache.cache st2) →
  JSMap.get key (TTLLRUCache.cache st3) = Some e3 → t_sweep < TTLLRUCache.expiresAt e3 →
  JSMap.get key (TTLCache.cache st2) = Some e2 → t_sweep < TTLCache.expiresAt e2 →
  JSMap.size (TTLLRUCache.cache st3) ≤ maxSize (TTLLRUCache.config st3) →
  (let s1 := TTLLRUCache.cleanupExpired t_sweep st3 in
   let s' := TTLLRUCache.set t_sweep now key val ttlMs st3 in
   let ttl := default (defaultTTLms (TTLLRUCache.config st3)) ttlMs in
   TTLLRUCache.cache s'
   = JSMap.delete key (TTLLRUCache.cache s1) ++ [(key, TTLLRUCache.mkEntry val (now + ttl))]
   ∧ length (TTLLRUCache.cache s') = length (TTLLRUCache.cache s1)
   ∧ (∀ k, k ≠ key →
        JSMap.get k (TTLLRUCache.cache s') = JSMap.get k (TTLLRUCache.cache s1))
   ∧ ∃ ev, TTLLRUCache.onLog s'
           = TTLLRUCache.onLog s1
             ++ [TTLLRUCache.mkLog TTLLRUCache.SET
                   ("Set key " +:+ quoted key +:+ " with TTL " +:+ pretty ttl +:+ "ms");
                 ev])
  ∧ (let s1 := TTLCache.cleanupExpired t_sweep st2 in
     let s' := TTLCache.set t_sweep now key val ttlMs st2 in
     let ttl := default (defaultTTLms (TTLCache.config st2)) ttlMs in
     TTLCache.cache s'
     = JSMap.set key (TTLCache.mkEntry val (now + ttl) now) (TTLCache.cache s1)
     ∧ JSMap.keys (TTLCache.cache s') = JSMap.keys (TTLCache.cache s1)
     ∧ (∀ k, k ≠ key →
          JSMap.get k (TTLCache.cache s') = JSMap.get k (TTLCache.cache s1))
     ∧ ∃ ev, TTLCache.logCallback s'
             = TTLCache.logCallback s1
               ++ [TTLCache.mkLog TTLCache.SET
                     ("Set key: " +:+ key +:+ ", TTL: " +:+ pretty ttl +:+ "ms");
                   ev]).
Proof.
  intros Hwf3 Hwf2 Hg3 Hlive3 Hg2 Hlive2 Hsize. cbn zeta. split.
  - pose proof (TTLLRUCacheFacts.cache_cleanupExpired_v3 t_sweep st3 Hwf3) as Hs1.
    assert (JSMap.get key (TTLLRUCache.cache (TTLLRUCache.cleanupExpired t_sweep st3))
            = Some e3) as Hg1.
    { rewrite (V3Get.get_after_sweep_v3 t_sweep key st3 Hwf3), Hg3. by rewrite decide_True. }
    pose proof (TTLLRUCacheFacts.wf_cleanupExpired_v3 t_sweep st3 Hwf3) as Hwf1.
    assert (JSMap.has key (TTLLRUCache.cache (TTLLRUCache.cleanupExpired t_sweep st3)) = true)
      as Hhas by (unfold JSMap.has; by rewrite Hg1).
    pose proof (JSMapFacts.map_length_delete_present _ key Hwf1 Hhas) as Hlen.
    assert (length (TTLLRUCache.cache (TTLLRUCache.cleanupExpired t_sweep st3))
            ≤ length (TTLLRUCache.cache st3))%nat as Hle
      by (rewrite Hs1; apply length_filter).
    assert (¬ JSMap.size (JSMap.delete key
                (TTLLRUCache.cache (TTLLRUCache.cleanupExpired t_sweep st3)))
              >= maxSize (TTLLRUCache.config st3)) as Hroom
      by (unfold JSMap.size in *; lia).
    assert (TTLLRUCache.cache (TTLLRUCache.set t_sweep now key val ttlMs st3)
            = JSMap.delete key (TTLLRUCache.cache (TTLLRUCache.cleanupExpired t_sweep st3))
              ++ [(key, TTLLRUCache.mkEntry val
                          (now + default (defaultTTLms (TTLLRUCache.config st3)) ttlMs))])
      as Hcache.
    { rewrite (V3Set.cache_set_v3 _ _ _ _ _ _ Hwf3). unfold TTLLRUCache.swept_without.
      rewrite <- Hs1. by rewrite decide_False. }
    split_and!; [done| | |].
    + rewrite Hcache, length_app. cbn [length]. lia.
    + intros k Hk. rewrite Hcache, <- JSMapFacts.map_set_delete.
      rewrite JSMapFacts.map_get_set_ne by done. by rewrite JSMapFacts.map_get_delete_ne.
    + unfold TTLLRUCache.set.
      rewrite TTLLRUCacheFacts.config_cleanupExpired_v3.
      cbn [TTLLRUCache.cache TTLLRUCache.config TTLLRUCache.with_cache].
      rewrite TTLLRUCacheFacts.config_cleanupExpired_v3.
      rewrite decide_False by done.
      match goal with
      | |- context [TTLLRUCache.saveToStorage ?pre] =>
          destruct (V3Effects.onLog_saveToStorage pre) as [ev Hev]
      end.
      exists ev. rewrite Hev. cbn [TTLLRUCache.onLog TTLLRUCache.log TTLLRUCache.with_cache].
      by rewrite <- (assoc_L (++)).
  - pose proof (TTLCacheFacts.cache_cleanupExpired_v2 t_sweep st2 Hwf2) as Hs1.
    assert (JSMap.get key (TTLCache.cache (TTLCache.cleanupExpired t_sweep st2)) = Some e2)
      as Hg1.
    { rewrite Hs1, JSMapFacts.map_get_filter by done. rewrite Hg2. simpl.
      by rewrite decide_True. }
    assert (TTLCache.after_eviction t_sweep key st2 = TTLCache.cleanupExpired t_sweep st2)
      as Hae.
    { unfold TTLCache.after_eviction, JSMap.has. by rewrite Hg1. }
    assert (TTLCache.cache (TTLCache.set t_sweep now key val ttlMs st2)
            = JSMap.set key
                (TTLCache.mkEntry val
                   (now + default (defaultTTLms (TTLCache.config st2)) ttlMs) now)
                (TTLCache.cache (TTLCache.cleanupExpired t_sweep st2))) as Hcache
      by (by rewrite V2Set.cache_set_v2, Hae).
    split_and!; [done| | |].
    + rewrite Hcache. apply JSMapFacts.map_keys_set_present.
      by apply (JSMapFacts.map_get_Some_key _ _ e2).
    + intros k Hk. rewrite Hcache. by apply JSMapFacts.map_get_set_ne.
    + rewrite V2Set.set_eq_v2. cbn zeta. rewrite Hae.
      match goal with
      | |- context [TTLCache.saveToStorage ?pre] =>
          destruct (TTLCacheFacts.logCallback_saveToStorage_v2 pre) as [ev Hev]
      end.
      exists ev. rewrite Hev. cbn [TTLCache.logCallback TTLCache.log TTLCache.with_cache].
      by rewrite <- (assoc_L (++)).
Qed.

End overwriting.

Section small_bound.
Context `{LocalStorage}.
Context {J3 : JSON TTLLRUCache.CacheEntry} {J2 : JSON TTLCache.CacheEntry}.

(** X9.  A [maxSize] of one or less.  From a [Map] with at most one entry, a
    [set] of either engine leaves exactly the entry it wrote (in v2 with the
    empty key not resident).  With [maxSize ≤ 0], every [TTLLRUCache.set]
    takes its eviction branch, also when the [Map] holds nothing to evict: the
    [evicted] event then names the key ["undefined"]. *)
Theorem X9_maxSize_of_one_or_less (t_sweep now : Z) (key val : string) (ttlMs : option Z)
    (st3 : TTLLRUCache.t) (st2 : TTLCache.t) :
  JSMap.wf (TTLLRUCache.cache st3) → JSMap.wf (TTLCache.cache st2) →
  JSMap.has EmptyString (TTLCache.cache st2) = false →
  (let s1 := TTLLRUCache.cleanupExpired t_sweep st3 in
   let s' := TTLLRUCache.set t_sweep now key val ttlMs st3 in
   let ttl := default (defaultTTLms (TTLLRUCache.config st3)) ttlMs in
   (maxSize (TTLLRUCache.config st3) ≤ 1 → JSMap.size (TTLLRUCache.cache st3) ≤ 1 →
    TTLLRUCache.cache s' = [(key, TTLLRUCache.mkEntry val (now + ttl))])
   ∧ (maxSize (TTLLRUCache.config st3) ≤ 0 →
      ∃ lruKey ev,
        TTLLRUCache.onLog s'
        = TTLLRUCache.onLog s1
          ++ [TTLLRUCache.mkLog TTLLRUCache.EVICTED
                ("Evicted LRU key " +:+ quoted lruKey +:+ " to make room");
              TTLLRUCache.mkLog TTLLRUCache.SET
                ("Set key " +:+ quoted key +:+ " with TTL " +:+ pretty ttl +:+ "ms");
              ev]
        ∧ (JSMap.delete key (TTLLRUCache.cache s1) = [] → lruKey = "undefined")))
  ∧ (let s' := TTLCache.set t_sweep now key val ttlMs st2 in
     let ttl := default (defaultTTLms (TTLCache.config st2)) ttlMs in
     maxSize (TTLCache.config st2) ≤ 1 → JSMap.size (TTLCache.cache st2) ≤ 1 →
     TTLCache.cache s' = [(key, TTLCache.mkEntry val (now + ttl) now)]).
Proof.
  intros Hwf3 Hwf2 Hempty. cbn zeta. split; [split|].
  - intros Hmax Hsize. rewrite (V3Set.cache_set_v3 _ _ _ _ _ _ Hwf3).
    assert (length (TTLLRUCache.swept_without t_sweep key st3) ≤ 1)%nat as Hlen.
    { unfold TTLLRUCache.swept_without.
      etransitivity; [apply JSMapFacts.map_length_delete|].
      etransitivity; [apply length_filter|]. unfold JSMap.size in Hsize. lia. }
    destruct (TTLLRUCache.swept_without t_sweep key st3) as [|x [|y l]] eqn:Hsw.
    + by destruct (decide _).
    + destruct (decide _) as [_|Hroom]; [done|]. unfold JSMap.size in Hroom.
      cbn [length] in Hroom. lia.
    + cbn [length] in Hlen. lia.
  - intros Hmax.
    assert (JSMap.size (JSMap.delete key
               (TTLLRUCache.cache (TTLLRUCache.cleanupExpired t_sweep st3)))
            >= maxSize (TTLLRUCache.config st3)) as Hfull by (unfold JSMap.size; lia).
    destruct (V3Set.onLog_set_evicting_v3 t_sweep now key val ttlMs st3 Hfull) as [ev Hev].
    eexists _, ev. split; [exact Hev|]. by intros ->.
  - intros Hmax Hsize. rewrite V2Set.cache_set_v2. unfold TTLCache.after_eviction.
    rewrite TTLCacheFacts.config_cleanupExpired_v2.
    pose proof (TTLCacheFacts.cache_cleanupExpired_v2 t_sweep st2 Hwf2) as Hs1.
    destruct (TTLCache.cache st2) as [|[k0 e0] [|y l]] eqn:Hc.
    + rewrite filter_nil in Hs1. unfold JSMap.has. rewrite Hs1. cbn [JSMap.get negb andb].
      destruct (bool_decide _); [|by rewrite Hs1].
      unfold TTLCache.evict, TTLCache.find_lru. rewrite Hs1. cbn. by rewrite Hs1.
    + assert (k0 ≠ EmptyString) as Hk0.
      { intros ->. unfold JSMap.has in Hempty. cbn in Hempty.
        by rewrite decide_True in Hempty. }
      destruct (decide (t_sweep < TTLCache.expiresAt e0)) as [Hlive|Hdead].
      * rewrite filter_cons_True, filter_nil in Hs1 by done.
        unfold JSMap.has. rewrite Hs1. cbn [JSMap.get].
        destruct (decide (k0 = key)) as [->|Hne].
        -- cbn [negb andb]. rewrite Hs1. cbn [JSMap.set]. by rewrite decide_True.
        -- cbn [negb andb]. rewrite bool_decide_eq_true_2
             by (unfold JSMap.size; cbn [length]; lia).
           unfold TTLCache.evict, TTLCache.find_lru. rewrite Hs1.
           cbn [foldl TTLCache.lru_step fst snd].
           assert (truthy_key (Some k0) = true) as -> by (by apply bool_decide_eq_true_2).
           cbn [default from_option id TTLCache.cache TTLCache.log TTLCache.with_cache].
           unfold JSMap.delete. rewrite filter_cons_False, filter_nil by (simpl; by intros ?).
           done.
      * rewrite filter_cons_False, filter_nil in Hs1 by done.
        unfold JSMap.has. rewrite Hs1. cbn [JSMap.get negb andb].
        destruct (bool_decide _); [|by rewrite Hs1].
        unfold TTLCache.evict, TTLCache.find_lru. rewrite Hs1. cbn. by rewrite Hs1.
    + unfold JSMap.size in Hsize. cbn [length] in Hsize. lia.
Qed.

End small_bound.

Section bounded_runs.
Context `{LocalStorage} `{JSON TTLLRUCache.CacheEntry}.
Import TTLLRUCache.

(** X10.  The bound as an invariant of v3.  An engine whose constructor
    loaded at most [maxSize ≥ 1] entries never holds more than [maxSize]
    entries, whatever calls are made on it ([get], [set], [delete], [clear],
    [getEntries], [getSize], [has], in any order and at any clock readings);
    its keys stay unique, its configuration is the one it was built with, and
    [getSize] never reports more than [maxSize]. *)
Theorem X10_bound_holds_along_every_run (now t : Z) (cfg : CacheConfig) (b : Browser)
    (cs : list Recency.Call) :
  1 ≤ maxSize cfg →
  JSMap.size (cache (new now cfg b)) ≤ maxSize cfg →
  let st := Recency.run cs (new now cfg b) in
  JSMap.size (cache st) ≤ maxSize cfg
  ∧ JSMap.wf (cache st)
  ∧ config st = cfg
  ∧ (getSize t st).1 ≤ maxSize cfg.
Proof.
  intros Hmax Hsize. cbn zeta.
  pose proof (V3Store.wf_new_v3 now cfg b) as Hwf0.
  pose proof (V3Store.config_new_v3 now cfg b) as Hcfg0.
  assert (∀ cs st, config (Recency.run cs st) = config st) as Hcfg.
  { clear. intros cs. induction cs as [|c cs IH]; intros st; [done|].
    cbn [Recency.run]. by rewrite IH, RecencyFacts.config_step. }
  pose proof (RecencyFacts.wf_run cs _ Hwf0) as Hwf.
  assert (JSMap.size (cache (Recency.run cs (new now cfg b))) ≤ maxSize cfg) as Hbound.
  { rewrite <- Hcfg0 at 2. apply RecencyFacts.bound_kept_by_run; rewrite ?Hcfg0; done. }
  split_and!; [done|done|by rewrite Hcfg| ].
  destruct (V3Misc.getSize_live_v3 t _ Hwf) as [-> _].
  etransitivity; [|exact Hbound]. unfold JSMap.size.
  apply Nat2Z.inj_le, length_filter.
Qed.

End bounded_runs.

Section ticking_clock.
Context `{LocalStorage} `{JSON TTLCache.CacheEntry}.
Import TTLCache TTLCacheFacts TTLCacheCalls.

(** X11.  v2 under a clock that moves on between uses.  When every [get] and
    [set] of a run reads a clock value later than all the [lastAccessAt]
    stamps then in the [Map], the keys of [getAll] after the run are the order
    obtained by replaying the uses (each [set], each [get] that returned a
    value) as moves to the front over the order of [getAll] before the run,
    cut down to the resident keys.  Every resident key is listed once, and
    stamps that were pairwise different before the run are so after it. *)
Theorem X11_sorted_view_replays_the_uses (st0 : t) (cs : list Call) :
  JSMap.wf (cache st0) → ticking cs st0 →
  let st := run cs st0 in
  order st
  = filter (λ k, k ∈ JSMap.keys (cache st))
           (Recency.spec_order (order st0) (history cs st0))
  ∧ NoDup (order st)
  ∧ (∀ k, k ∈ order st ↔ JSMap.has k (cache st) = true)
  ∧ (distinct_stamps st0 → distinct_stamps st).
Proof.
  intros Hwf Ht. cbn zeta. split_and!.
  - by apply TTLCacheCallsFacts.order_run.
  - by apply TTLCacheCallsFacts.NoDup_order, TTLCacheCallsFacts.wf_run_v2.
  - intros k. by rewrite TTLCacheCallsFacts.elem_of_order, JSMapFacts.map_has_true.
  - intros Hd. by apply TTLCacheCallsFacts.distinct_stamps_run.
Qed.

(** X12.  Which entry [TTLCache.set] evicts.  When the swept [Map] is full
    and the key is new, the scan picks the first entry, in the order of the
    [Map], among those with the smallest [lastAccessAt]: later entries with
    the same stamp stay.  If that key is not the empty string, the entry is
    removed, [evicted] is emitted for it and the new entry goes last.  When no
    two resident stamps are equal, the key picked is the last key of [getAll],
    the least recently used one. *)
Theorem X12_eviction_picks_the_first_oldest (t_sweep now : Z) (key val : string)
    (ttlMs : option Z) (st : t) :
  JSMap.wf (cache st) →
  let s1 := cleanupExpired t_sweep st in
  let s' := set t_sweep now key val ttlMs st in
  let ttl := default (defaultTTLms (config st)) ttlMs in
  JSMap.has key (cache s1) = false →
  JSMap.size (cache s1) >= maxSize (config st) →
  (∀ l1 k e l2,
     cache s1 = l1 ++ (k, e) :: l2 →
     (∀ kv, kv ∈ l1 → lastAccessAt e < stamp kv) →
     (∀ kv, kv ∈ l2 → lastAccessAt e ≤ stamp kv) →
     find_lru (cache s1) = Some k
     ∧ (k ≠ EmptyString →
        cache s' = (l1 ++ l2) ++ [(key, mkEntry val (now + ttl) now)]
        ∧ mkLog EVICTED ("Evicted LRU key: " +:+ k) ∈ logCallback s'))
  ∧ (distinct_stamps st → cache s1 ≠ [] → find_lru (cache s1) = last (order s1)).
Proof.
  intros Hwf. cbn zeta. intros Hnew Hfull.
  split.
  - intros l1 k e l2 Hc H1 H2. split.
    + rewrite Hc. by apply TTLCacheCallsFacts.find_lru_first_min.
    + intros Hk.
      by apply (TTLCacheCallsFacts.set_evicts_first_min t_sweep now key val ttlMs st l1 k e l2).
  - intros Hd Hne. unfold order. rewrite getAll_sort_v2.
    apply TTLCacheCallsFacts.find_lru_last; [|done].
    unfold distinct_stamps in Hd. rewrite (cache_cleanupExpired_v2 t_sweep st Hwf).
    eapply sublist_NoDup; [exact Hd|]. apply fmap_sublist, sublist_filter.
Qed.

(** X13.  [updateConfig] replaces the configuration and nothing else: the
    [Map] is not trimmed to a smaller [maxSize], nothing is logged and no call
    is made on the store.  The next [set] works with the new configuration: an
    omitted ttl is the new [defaultTTLms], and the snapshot is written under
    the new [storageKey]. *)
Theorem X13_updateConfig_changes_only_the_configuration (cfg : CacheConfig) (st : t)
    (t_sweep now : Z) (key val : string) :
  let st' := updateConfig cfg st in
  let s' := set t_sweep now key val None st' in
  config st' = cfg
  ∧ cache st' = cache st
  ∧ logCallback st' = logCallback st
  ∧ browser st' = browser st
  ∧ getAll st' = getAll st
  ∧ JSMap.get key (cache s') = Some (mkEntry val (now + defaultTTLms cfg) now)
  ∧ calls (browser s')
    = calls (browser st) ++ [SetItem (storageKey cfg) (JSON_stringify (cache s'))].
Proof.
  cbn zeta. split_and!; try done.
  - by rewrite V2Set.get_set_v2.
  - destruct (V2Effects.set_saves_v2 t_sweep now key val None (updateConfig cfg st))
      as (pre & -> & Hb & Hc & _).
    by rewrite calls_saveToStorage_v2, cache_saveToStorage_v2, Hb, Hc.
Qed.

(** X14.  The bound as an invariant of v2.  From a [Map] within
    [maxSize ≥ 1] that does not hold the empty key, any run of [get], [set],
    [delete] and [clear] whose [set]s write no empty key keeps the [Map]
    within [maxSize]; the empty key never becomes resident, the keys stay
    unique and the configuration is not touched. *)
Theorem X14_bound_holds_along_keyed_runs (st0 : t) (cs : list Call) :
  JSMap.wf (cache st0) → 1 ≤ maxSize (config st0) →
  JSMap.has EmptyString (cache st0) = false →
  JSMap.size (cache st0) ≤ maxSize (config st0) →
  keyed cs →
  let st := run cs st0 in
  JSMap.size (cache st) ≤ maxSize (config st0)
  ∧ JSMap.has EmptyString (cache st) = false
  ∧ JSMap.wf (cache st)
  ∧ config st = config st0.
Proof.
  intros Hwf Hmax Hempty Hsize Hkeyed. cbn zeta.
  revert st0 Hwf Hmax Hempty Hsize.
  induction cs as [|c cs IH]; intros st0 Hwf Hmax Hempty Hsize; [done|].
  unfold keyed in Hkeyed. apply Forall_cons in Hkeyed as [Hc Hcs]. cbn [run].
  destruct (TTLCacheCallsFacts.bound_step c st0 Hwf Hmax Hempty Hsize) as [Hsize' Hempty'].
  { unfold keyed. by apply Forall_singleton. }
  pose proof (TTLCacheCallsFacts.config_step_v2 c st0) as Hcfg.
  destruct (IH Hcs (step c st0)) as (? & ? & ? & ?);
    rewrite ?Hcfg; [by apply TTLCacheCallsFacts.wf_step_v2|done..|].
  rewrite Hcfg in *. by split_and!.
Qed.

End ticking_clock.

Section react_state.
Import CacheSystem.

(** X15.  [evictLRU] of v1 picks the first entry, in the order of the [Map],
    among those with the smallest [lastAccessed]; if its key is not the empty
    string the entry is removed and [EVICT] is logged with the key.  On a
    non-empty [Map] that does not hold the empty key it therefore removes
    exactly one entry, one that no entry is older than; on an empty [Map] it
    does nothing. *)
Theorem X15_evictLRU_removes_the_first_oldest (currentCache : list (string * CacheEntry)) :
  JSMap.wf currentCache →
  (∀ l1 k e l2,
     currentCache = l1 ++ (k, e) :: l2 →
     (∀ kv, kv ∈ l1 → lastAccessed e < lastAccessed kv.2) →
     (∀ kv, kv ∈ l2 → lastAccessed e ≤ lastAccessed kv.2) →
     k ≠ EmptyString →
     evictLRU currentCache
     = (l1 ++ l2, [mkLog "EVICT" ("LRU evicted key: " +:+ k) warning]))
  ∧ (currentCache ≠ [] → JSMap.has EmptyString currentCache = false →
     ∃ k e, (k, e) ∈ currentCache
            ∧ (∀ kv, kv ∈ currentCache → lastAccessed e ≤ lastAccessed kv.2)
            ∧ evictLRU currentCache
              = (JSMap.delete k currentCache,
                 [mkLog "EVICT" ("LRU evicted key: " +:+ k) warning])
            ∧ S (length (JSMap.delete k currentCache)) = length currentCache)
  ∧ evictLRU [] = ([], []).
Proof.
  intros Hwf. split_and!; [| |done].
  - intros l1 k e l2 -> H1 H2 Hk. by apply CacheSystemRuns.evictLRU_first_min.
  - intros Hne Hempty.
    destruct (CacheSystemRuns.evictLRU_oldest (JSMap.size currentCache) currentCache)
      as (k & e & Hin & _ & Hmin & Hev & Hlen); [by split_and!|done|].
    by exists k, e.
Qed.

(** X16.  The invariant of the v1 component.  [setCacheValue],
    [getCacheValue] and [deleteCacheValue] refuse the empty key: they hand no
    [Map] to [setCache] and log the one entry [ERROR], ["Key cannot be
    empty"].  So from a [Map] with unique keys, without the empty key and
    within [maxSize ≥ 1], every run of calls (each followed by its render)
    leaves such a [Map]; and the log, once within twenty entries, never holds
    more than twenty.  The handler of the Max Size input only ever sets a
    [maxSize ≥ 1]. *)
Theorem X16_component_keeps_the_cache_tidy (maxSize : Z) (calls : list Call)
    (comp : Component) :
  1 ≤ maxSize →
  JSMap.wf (cache comp) → JSMap.has EmptyString (cache comp) = false →
  JSMap.size (cache comp) ≤ maxSize → (length (logs comp) ≤ 20)%nat →
  let comp' := run maxSize calls comp in
  (JSMap.wf (cache comp')
   ∧ JSMap.has EmptyString (cache comp') = false
   ∧ JSMap.size (cache comp') ≤ maxSize
   ∧ (length (logs comp') ≤ 20)%nat)
  ∧ (∀ t_expiry t_access now v ttlMs current,
       setCacheValue maxSize t_expiry t_access EmptyString v ttlMs current
       = (None, [mkLog "ERROR" "Key cannot be empty" error])
       ∧ getCacheValue now t_access EmptyString current
         = (None, None, [mkLog "ERROR" "Key cannot be empty" error])
       ∧ deleteCacheValue EmptyString current
         = (None, [mkLog "ERROR" "Key cannot be empty" error]))
  ∧ (∀ parsed, 1 ≤ onMaxSizeChange parsed).
Proof.
  intros Hmax Hwf Hempty Hsize Hlogs. cbn zeta. split_and!.
  - by apply (CacheSystemRuns.tidy_run maxSize calls comp).
  - by apply (CacheSystemRuns.tidy_run maxSize calls comp).
  - by apply (CacheSystemRuns.tidy_run maxSize calls comp).
  - by apply (CacheSystemRuns.tidy_run maxSize calls comp).
  - done.
  - intros parsed. unfold onMaxSizeChange. lia.
Qed.

(** X17.  In v1 a [getCacheValue] that returns a value protects its key from
    the next eviction.  The [Map] it hands over differs from the one it read
    only in the [lastAccessed] of that key.  When some other entry carries an
    older stamp, a following [setCacheValue] of a new key on the full [Map]
    evicts one entry, not the one just read, and logs [EVICT] and [SET]. *)
Theorem X17_a_read_key_survives_the_next_eviction (maxSize now t_access t_expiry t_access' : Z)
    (k k' v' : string) (ttlMs : option Z) (e other : CacheEntry) (k2 : string)
    (current : list (string * CacheEntry)) :
  JSMap.wf current → JSMap.has EmptyString current = false →
  JSMap.get k current = Some e →
  (∀ x, expiry e = Some x → now ≤ x) →
  JSMap.get k2 current = Some other → k2 ≠ k → lastAccessed other < t_access →
  k' ≠ EmptyString → JSMap.has k' current = false → JSMap.size current >= maxSize →
  let read := getCacheValue now t_access k current in
  let refreshed := JSMap.set k (mkEntry (value e) (expiry e) t_access) current in
  read.1.1 = Some (value e)
  ∧ read.1.2 = Some refreshed
  ∧ JSMap.keys refreshed = JSMap.keys current
  ∧ (∀ k0, k0 ≠ k → JSMap.get k0 refreshed = JSMap.get k0 current)
  ∧ ∃ gone newCache,
      gone ≠ k
      ∧ JSMap.has gone current = true
      ∧ (setCacheValue maxSize t_expiry t_access' k' v' ttlMs refreshed).1 = Some newCache
      ∧ JSMap.has k newCache = true
      ∧ JSMap.has gone newCache = false
      ∧ length newCache = length current
      ∧ mkLog "EVICT" ("LRU evicted key: " +:+ gone) warning
          ∈ (setCacheValue maxSize t_expiry t_access' k' v' ttlMs refreshed).2.
Proof.
  intros Hwf Hempty Hg Hlive Hg2 Hk2 Hold Hk' Hnew Hfull. cbn zeta.
  assert (k ≠ EmptyString) as Hk.
  { intros ->. apply JSMapFacts.map_has_false in Hempty. congruence. }
  set (refreshed := JSMap.set k (mkEntry (value e) (expiry e) t_access) current).
  assert (JSMap.keys refreshed = JSMap.keys current) as Hkeys.
  { apply JSMapFacts.map_keys_set_present. by apply (JSMapFacts.map_get_Some_key _ _ e). }
  assert (getCacheValue now t_access k current
          = (Some (value e), Some refreshed,
             [mkLog "GET" (k +:+ " = " +:+ quoted (value e)) success])) as Hread.
  { unfold getCacheValue.
    assert (truthy_key (Some k) = true) as -> by (by apply bool_decide_eq_true_2).
    cbn [negb]. rewrite Hg.
    destruct (expiry e) as [x|] eqn:Hx; cbn [truthy_number default from_option id].
    - rewrite (bool_decide_eq_false_2 (now > x)) by (specialize (Hlive x eq_refl); lia).
      rewrite andb_false_r. unfold refreshed. by rewrite ?Hx.
    - cbn [andb]. unfold refreshed. by rewrite ?Hx. }
  rewrite Hread. cbn [fst snd]. split_and!; [done|done|done| |].
  { intros k0 Hk0. unfold refreshed. by apply JSMapFacts.map_get_set_ne. }
  assert (JSMap.wf refreshed) as Hwfr by (by apply JSMapFacts.map_wf_set).
  assert (JSMap.has EmptyString refreshed = false) as Hemptyr
    by (unfold refreshed; by rewrite CacheSystemRuns.has_set_other).
  assert (length refreshed = length current) as Hlenr.
  { unfold refreshed. rewrite JSMapFacts.map_length_set. unfold JSMap.has. by rewrite Hg. }
  assert (refreshed ≠ []) as Hne.
  { intros Hnil. rewrite Hnil in Hkeys. apply (JSMapFacts.map_get_Some_key _ _ e) in Hg.
    rewrite <- Hkeys in Hg. by apply elem_of_nil in Hg. }
  destruct (CacheSystemRuns.evictLRU_oldest (JSMap.size refreshed) refreshed)
    as (gone & eg & Hin & Hgne & Hmin & Hev & Hlen); [by split_and!|done|].
  assert (gone ≠ k) as Hgk.
  { intros ->.
    assert (eg = mkEntry (value e) (expiry e) t_access) as ->.
    { apply (JSMapFacts.map_elem_get_Some _ _ _ Hwfr) in Hin.
      unfold refreshed in Hin. rewrite JSMapFacts.map_get_set_eq in Hin. congruence. }
    assert ((k2, other) ∈ refreshed) as Hin2.
    { apply JSMapFacts.map_get_Some_elem. unfold refreshed.
      by rewrite JSMapFacts.map_get_set_ne. }
    specialize (Hmin _ Hin2). simpl in Hmin. lia. }
  assert (JSMap.has gone current = true) as Hgc.
  { apply JSMapFacts.map_has_true. rewrite <- Hkeys. unfold JSMap.keys.
    apply list_elem_of_fmap. by exists (gone, eg). }
  assert (JSMap.has k' refreshed = false) as Hnewr.
  { apply JSMapFacts.map_has_false, JSMapFacts.map_get_None. rewrite Hkeys.
    by apply JSMapFacts.map_get_None, JSMapFacts.map_has_false. }
  assert (k' ≠ k) as Hk'k.
  { intros ->. apply JSMapFacts.map_has_false in Hnew. congruence. }
  exists gone. eexists. split; [done|]. split; [done|].
  unfold setCacheValue.
  assert (truthy_key (Some k') = true) as -> by (by apply bool_decide_eq_true_2).
  cbn [negb]. rewrite Hnewr. cbn [negb andb].
  rewrite bool_decide_eq_true_2 by (unfold JSMap.size in *; lia).
  rewrite Hev. cbn [fst snd]. split; [reflexivity|]. split_and!.
  - unfold JSMap.has. rewrite JSMapFacts.map_get_set_ne, JSMapFacts.map_get_delete_ne by done.
    unfold refreshed. by rewrite JSMapFacts.map_get_set_eq.
  - unfold JSMap.has. rewrite JSMapFacts.map_get_set_ne.
    + by rewrite JSMapFacts.map_get_delete_eq.
    + intros ->. rewrite Hgc in Hnew. done.
  - rewrite JSMapFacts.map_length_set.
    assert (JSMap.has k' (JSMap.delete gone refreshed) = false) as ->.
    { unfold JSMap.has. destruct (decide (gone = k')) as [->|Hne'].
      - by rewrite JSMapFacts.map_get_delete_eq.
      - rewrite JSMapFacts.map_get_delete_ne by done.
        by apply JSMapFacts.map_has_false in Hnewr as ->. }
    lia.
  - apply elem_of_app. left. apply list_elem_of_here.
Qed.

(** X18.  [deleteCacheValue] on a resident key hands over the [Map] without
    it and logs [DELETE] as a success; every other key keeps its entry, and a
    [getCacheValue] of the deleted key on that [Map] returns nothing and logs
    ["not found"].  On an absent key it hands nothing to [setCache] and logs
    ["not found"] as an error.  [clearCache] hands over the empty [Map]. *)
Theorem X18_deleteCacheValue_removes_or_reports (now t_access : Z) (k : string)
    (current : list (string * CacheEntry)) :
  k ≠ EmptyString →
  (if JSMap.has k current
   then deleteCacheValue k current
        = (Some (JSMap.delete k current), [mkLog "DELETE" ("Removed key: " +:+ k) success])
        ∧ getCacheValue now t_access k (JSMap.delete k current)
          = (None, None, [mkLog "GET" ("Key " +:+ quoted k +:+ " not found") error])
        ∧ ∀ k0, k0 ≠ k → JSMap.get k0 (JSMap.delete k current) = JSMap.get k0 current
   else deleteCacheValue k current
        = (None, [mkLog "DELETE" ("Key " +:+ quoted k +:+ " not found") error]))
  ∧ clearCache.1 = Some [].
Proof.
  intros Hk. split; [|done].
  assert (truthy_key (Some k) = true) as Ht by (by apply bool_decide_eq_true_2).
  unfold deleteCacheValue, getCacheValue. rewrite Ht. cbn [negb].
  destruct (JSMap.has k current) eqn:Hhas; [|done].
  split_and!; [done| |].
  - by rewrite JSMapFacts.map_get_delete_eq.
  - intros k0 Hk0. by apply JSMapFacts.map_get_delete_ne.
Qed.

End react_state.

Section logs.

(** X19.  The logs of the three components.  v1's [addLog] appends and keeps
    the last twenty: after any number of entries the log is the last twenty of
    all that were added, oldest first.  v2's [addLog] puts the event first and
    keeps a hundred: the log is the latest hundred, newest first.  v3's
    [addLog] keeps every entry, and the panel shows the last thirty. *)
Theorem X19_logs_keep_the_latest_entries
    (entries1 : list CacheSystem.LogEntry) (events2 : list TTLCache.LogEvent)
    (entries3 : list TTLLRUCache.LogEntry) :
  let logs1 := foldl (λ logs entry, CacheSystem.addLog entry logs) [] entries1 in
  let logs2 := foldl (λ logs event, TTLCacheDemo.addLog event logs) [] events2 in
  let logs3 := foldl (λ logs entry, CacheDemo.addLog entry logs) [] entries3 in
  (logs1 = drop (length entries1 - 20) entries1 ∧ (length logs1 ≤ 20)%nat)
  ∧ (logs2 = take 100 (reverse events2) ∧ (length logs2 ≤ 100)%nat)
  ∧ (logs3 = entries3
     ∧ CacheDemo.shown logs3 = drop (length entries3 - 30) entries3).
Proof.
  cbn zeta.
  assert (foldl (λ logs entry, CacheSystem.addLog entry logs) [] entries1
          = drop (length entries1 - 20) entries1) as H1.
  { rewrite CacheSystemRuns.logs_bounded by (cbn; lia). by rewrite app_nil_l. }
  assert (foldl (λ logs event, TTLCacheDemo.addLog event logs) [] events2
          = take 100 (reverse events2)) as H2.
  { transitivity (take 100 (reverse events2 ++ [])); [|by rewrite app_nil_r].
    apply (LogFacts.keep_first_fold 100 [] events2). cbn. lia. }
  assert (foldl (λ logs entry, CacheDemo.addLog entry logs) [] entries3 = entries3) as H3.
  { assert (∀ acc : list TTLLRUCache.LogEntry,
              foldl (λ logs entry, CacheDemo.addLog entry logs) acc entries3
              = acc ++ entries3) as Hgen.
    { induction entries3 as [|x l IH]; intros acc; cbn [foldl]; [by rewrite app_nil_r|].
      unfold CacheDemo.addLog at 2. by rewrite IH, <- (assoc_L (++)). }
    apply (Hgen []). }
  rewrite H1, H2, H3. split_and!; [done| |done| |done|].
  - rewrite length_drop. lia.
  - rewrite length_take. lia.
  - unfold CacheDemo.shown. apply (LogFacts.slice_last 29).
Qed.

End logs.

Section frames.
Context `{LocalStorage}.
Context {J3 : JSON TTLLRUCache.CacheEntry} {J2 : JSON TTLCache.CacheEntry}.

(** X20.  A [get] never alters another key.  After [TTLLRUCache.get(key)],
    whatever it returned, every other key holds the entry it held before if
    that entry outlived the sweep, and is absent otherwise.  After
    [TTLCache.get(key)] every other key holds exactly the entry it held
    before, expired or not: v2 removes an expired entry only when that very
    key is read or when a [set] sweeps.  Neither touches the configuration. *)
Theorem X20_get_leaves_the_other_keys (t_sweep now : Z) (key other : string)
    (st3 : TTLLRUCache.t) (st2 : TTLCache.t) :
  JSMap.wf (TTLLRUCache.cache st3) → other ≠ key →
  let r3 := TTLLRUCache.get t_sweep now key st3 in
  let r2 := TTLCache.get now key st2 in
  JSMap.get other (TTLLRUCache.cache r3.2)
  = match JSMap.get other (TTLLRUCache.cache st3) with
    | Some e => if decide (t_sweep < TTLLRUCache.expiresAt e) then Some e else None
    | None => None
    end
  ∧ TTLLRUCache.config r3.2 = TTLLRUCache.config st3
  ∧ JSMap.get other (TTLCache.cache r2.2) = JSMap.get other (TTLCache.cache st2)
  ∧ TTLCache.config r2.2 = TTLCache.config st2.
Proof.
  intros Hwf Hne. cbn zeta. split_and!.
  - rewrite <- (V3Get.get_after_sweep_v3 t_sweep other st3 Hwf).
    unfold TTLLRUCache.get.
    destruct (JSMap.get key _) as [e|]; [destruct (decide _)|];
      cbn [snd TTLLRUCache.cache TTLLRUCache.log TTLLRUCache.with_cache]; [| |done].
    + by apply JSMapFacts.map_get_delete_ne.
    + rewrite JSMapFacts.map_get_set_ne by done. by apply JSMapFacts.map_get_delete_ne.
  - unfold TTLLRUCache.get.
    destruct (JSMap.get key _) as [e|]; [destruct (decide _)|];
      cbn [snd TTLLRUCache.config TTLLRUCache.log TTLLRUCache.with_cache];
      apply TTLLRUCacheFacts.config_cleanupExpired_v3.
  - unfold TTLCache.get.
    destruct (JSMap.get key _) as [e|]; [destruct (decide _)|]; cbn [snd];
      rewrite ?TTLCacheFacts.cache_saveToStorage_v2;
      cbn [TTLCache.cache TTLCache.log TTLCache.with_cache]; [| |done].
    + by apply JSMapFacts.map_get_delete_ne.
    + by apply JSMapFacts.map_get_set_ne.
  - unfold TTLCache.get.
    destruct (JSMap.get key _) as [e|]; [destruct (decide _)|]; cbn [snd];
      by rewrite ?TTLCacheFacts.config_saveToStorage_v2.
Qed.

End frames.

Section provenance.
Context `{LocalStorage} `{JSON TTLLRUCache.CacheEntry}.
Import TTLLRUCache.

(** X21.  Where the entries of a v3 engine come from.  After any run of
    calls, every resident entry is one the [Map] held before the run or one a
    [set] of the run wrote, with the value and the expiry it got then: no call
    alters an entry, and only [set] creates one.  So a value that a [get]
    returns after the run is the value of such an entry for that key. *)
Theorem X21_entries_are_loaded_or_written (st0 : t) (cs : list Recency.Call)
    (t_sweep now : Z) (key : string) :
  JSMap.wf (cache st0) → t_sweep ≤ now →
  let st := Recency.run cs st0 in
  (∀ k e, (k, e) ∈ cache st → (k, e) ∈ cache st0 ∨ (k, e) ∈ Writes.all_written cs st0)
  ∧ (∀ v, (get t_sweep now key st).1 = Some v →
          ∃ e, value e = v
               ∧ ((key, e) ∈ cache st0 ∨ (key, e) ∈ Writes.all_written cs st0)).
Proof.
  intros Hwf Hle. cbn zeta. split.
  - intros k e. by apply WritesFacts.entries_run.
  - intros v Hv.
    apply (V3Get.get_returns_v3 t_sweep now key _ v (RecencyFacts.wf_run cs st0 Hwf) Hle)
      in Hv as (e & Hg & Hval & _).
    exists e. split; [done|].
    apply (WritesFacts.entries_run cs st0 key e Hwf). by apply JSMapFacts.map_get_Some_elem.
Qed.

End provenance.

Section panels.

(** X22.  What the panels show for an entry agrees with the engines.  The v3
    panel marks an entry [EXPIRED] exactly when [expiresAt ≤ currentTime], the
    test by which the engine drops it; since the entries it lists survived a
    sweep at an earlier reading, none is marked when the clock has not moved
    since.  Otherwise it shows a number of seconds that is at least 1 and is
    the time left rounded up.  The v2 panel, whose [getAll] does not sweep,
    shows the badge exactly for the entries a [get] would remove, the note
    ["expired"] exactly with the badge, and otherwise the time left rounded to
    the nearest second, which is 0 for an entry with less than half a second
    left. *)
Theorem X22_panels_show_the_expiry_of_the_engines (t_sweep currentTime : Z)
    (entry3 : TTLLRUCache.CacheEntry) (entry2 : TTLCache.CacheEntry) :
  let timeLeft3 := TTLLRUCache.expiresAt entry3 - currentTime in
  let timeLeft2 := TTLCache.expiresAt entry2 - currentTime in
  (Rows.line3 currentTime entry3 = Rows.EXPIRED ↔ TTLLRUCache.isExpired currentTime entry3)
  ∧ (t_sweep < TTLLRUCache.expiresAt entry3 → currentTime ≤ t_sweep →
     Rows.line3 currentTime entry3 ≠ Rows.EXPIRED)
  ∧ (∀ seconds, Rows.line3 currentTime entry3 = Rows.ExpiresIn seconds →
       1 ≤ seconds ∧ 1000 * (seconds - 1) < timeLeft3 ≤ 1000 * seconds)
  ∧ ((Rows.row2 currentTime entry2).1 = true ↔ TTLCache.isExpired currentTime entry2)
  ∧ ((Rows.row2 currentTime entry2).2 = Rows.expired
     ↔ (Rows.row2 currentTime entry2).1 = true)
  ∧ (∀ seconds, (Rows.row2 currentTime entry2).2 = Rows.SecondsLeft seconds →
       0 ≤ seconds ∧ 1000 * seconds - 500 ≤ timeLeft2 < 1000 * seconds + 500
       ∧ (seconds = 0 ↔ timeLeft2 < 500)).
Proof.
  cbn zeta. unfold Rows.line3, Rows.row2, TTLLRUCache.isExpired, TTLCache.isExpired,
    Math_ceil_div, Math_round_div. cbn [fst snd].
  split_and!.
  - destruct (bool_decide _) eqn:Hb.
    + apply bool_decide_eq_true_1 in Hb. split; [lia|done].
    + apply bool_decide_eq_false_1 in Hb. split; [done|lia].
  - intros Hlive Hclock. rewrite bool_decide_eq_false_2 by lia. done.
  - intros seconds. destruct (bool_decide _) eqn:Hb; [done|].
    apply bool_decide_eq_false_1 in Hb. intros [= <-].
    pose proof (Z.div_mod (- (TTLLRUCache.expiresAt entry3 - currentTime)) 1000 ltac:(lia)).
    pose proof (Z.mod_pos_bound (- (TTLLRUCache.expiresAt entry3 - currentTime)) 1000
                  ltac:(lia)).
    lia.
  - destruct (bool_decide _) eqn:Hb.
    + by apply bool_decide_eq_true_1 in Hb.
    + apply bool_decide_eq_false_1 in Hb. split; [done|lia].
  - destruct (decide _) as [Hpos|Hnone].
    + rewrite bool_decide_eq_false_2 by lia. split; done.
    + rewrite bool_decide_eq_true_2 by lia. split; done.
  - intros seconds. destruct (decide _) as [Hpos|Hnone]; [|done]. intros [= <-].
    rewrite Z.max_r in * by lia.
    pose proof (Z.div_mod (2 * (TTLCache.expiresAt entry2 - currentTime) + 1000)
                  (2 * 1000) ltac:(lia)).
    pose proof (Z.mod_pos_bound (2 * (TTLCache.expiresAt entry2 - currentTime) + 1000)
                  (2 * 1000) ltac:(lia)).
    lia.
Qed.

End panels.


Section lru_scenario.
Context `{LocalStorage} `{JSON TTLCache.CacheEntry}.
Import TTLCache TTLCacheFacts TTLCacheCalls TTLCacheDemo.

Local Ltac explicit_wf :=
  unfold JSMap.wf, JSMap.keys; cbn [fmap list_fmap fst];
  apply (bool_decide_unpack _); vm_compute; exact I.

Local Ltac each_entry :=
  let kv := fresh "kv" in
  let Hin := fresh "Hin" in
  intros kv Hin;
  repeat (apply elem_of_cons in Hin as [->|Hin]);
  try (by apply elem_of_nil in Hin); unfold stamp; cbn; lia.

(** X23.  The "LRU scenario" button of the v2 demo, as the calls it makes on
    the engine it closes over: [clear], [updateConfig] with [maxSize] 3, then
    [set] of A, B, C and D, a [get] of B and a [set] of E, every one with a ttl
    of a minute.  Whatever the engine held and whatever the component's
    configuration was, if the clock has moved on between two timers and less
    than a minute passes in all, the engine ends with exactly B, D and E in
    its [Map], [getAll] lists them as E, B, D, and the two evictions the
    source's comments announce are the ones logged: A at the [set] of D, C at
    the [set] of E. *)
Theorem X23_lru_scenario_evicts_A_then_C (cfg : CacheConfig) (r : Readings) (engine : t) :
  in_order r →
  let final := runLRUScenario cfg r engine in
  cache final
  = [("B", mkEntry "Banana" (nowB r + 60000) (nowGet r));
     ("D", mkEntry "Date" (nowD r + 60000) (nowD r));
     ("E", mkEntry "Elderberry" (nowE r + 60000) (nowE r))]
  ∧ (getAll final).*1 = ["E"; "B"; "D"]
  ∧ mkLog EVICTED "Evicted LRU key: A" ∈ logCallback final
  ∧ mkLog EVICTED "Evicted LRU key: C" ∈ logCallback final
  ∧ config final = mkConfig 3 (defaultTTLms cfg) (storageKey cfg).
Proof.
  intros (HA & HAB & HB & HBC & HC & HCD & HD & HDG & HGE & HE & Hmin).
  unfold runLRUScenario. cbn zeta.
  set (newConfig := mkConfig 3 (defaultTTLms cfg) (storageKey cfg)).
  set (c0 := updateConfig newConfig (clear engine)).
  assert (cache c0 = []) as Hc0
    by (unfold c0, updateConfig, clear; cbn [cache]; by rewrite cache_saveToStorage_v2).
  assert (config c0 = newConfig) as Hg0 by done.
  set (cA := set (sweepA r) (nowA r) "A" "Apple" (Some 60000) c0).
  assert (config cA = newConfig) as HgA
    by (unfold cA; by rewrite TTLCacheCallsFacts.config_set_v2).
  assert (cache cA = [("A", mkEntry "Apple" (nowA r + 60000) (nowA r))]) as HcA.
  { unfold cA. rewrite TTLCacheCallsFacts.set_with_room; rewrite ?Hc0, ?Hg0; try done.
    - explicit_wf.
    - intros kv Hin. by apply elem_of_nil in Hin. }
  set (cB := set (sweepB r) (nowB r) "B" "Banana" (Some 60000) cA).
  assert (config cB = newConfig) as HgB
    by (unfold cB; by rewrite TTLCacheCallsFacts.config_set_v2).
  assert (cache cB = [("A", mkEntry "Apple" (nowA r + 60000) (nowA r));
                      ("B", mkEntry "Banana" (nowB r + 60000) (nowB r))]) as HcB.
  { unfold cB. rewrite TTLCacheCallsFacts.set_with_room; rewrite ?HcA, ?HgA; try done.
    - explicit_wf.
    - each_entry. }
  set (cC := set (sweepC r) (nowC r) "C" "Cherry" (Some 60000) cB).
  assert (config cC = newConfig) as HgC
    by (unfold cC; by rewrite TTLCacheCallsFacts.config_set_v2).
  assert (cache cC = [("A", mkEntry "Apple" (nowA r + 60000) (nowA r));
                      ("B", mkEntry "Banana" (nowB r + 60000) (nowB r));
                      ("C", mkEntry "Cherry" (nowC r + 60000) (nowC r))]) as HcC.
  { unfold cC. rewrite TTLCacheCallsFacts.set_with_room; rewrite ?HcB, ?HgB; try done.
    - explicit_wf.
    - each_entry. }
  assert (JSMap.wf (cache cC)) as HwfC by (rewrite HcC; explicit_wf).
  assert (cache (cleanupExpired (sweepD r) cC) = cache cC) as HsD.
  { apply TTLCacheCallsFacts.sweep_of_live; [done|]. rewrite HcC. each_entry. }
  set (cD := set (sweepD r) (nowD r) "D" "Date" (Some 60000) cC).
  assert (config cD = newConfig) as HgD
    by (unfold cD; by rewrite TTLCacheCallsFacts.config_set_v2).
  destruct (TTLCacheCallsFacts.set_evicts_first_min (sweepD r) (nowD r) "D" "Date"
              (Some 60000) cC [] "A" (mkEntry "Apple" (nowA r + 60000) (nowA r))
              [("B", mkEntry "Banana" (nowB r + 60000) (nowB r));
               ("C", mkEntry "Cherry" (nowC r + 60000) (nowC r))])
    as [HcD HlogA].
  { done. }
  { by rewrite HsD, HcC. }
  { rewrite HsD, HcC, HgC. unfold newConfig, JSMap.size. cbn. lia. }
  { by rewrite HsD, HcC. }
  { each_entry. }
  { each_entry. }
  { done. }
  fold cD in HcD, HlogA. rewrite HgC in HcD. cbn in HcD.
  set (cG := (get (nowGet r) "B" cD).2).
  assert (config cG = newConfig) as HgG
    by (unfold cG; by rewrite TTLCacheCallsFacts.config_get_v2).
  assert (JSMap.wf (cache cD)) as HwfD by (rewrite HcD; explicit_wf).
  assert (cache cG = [("B", mkEntry "Banana" (nowB r + 60000) (nowGet r));
                      ("C", mkEntry "Cherry" (nowC r + 60000) (nowC r));
                      ("D", mkEntry "Date" (nowD r + 60000) (nowD r))]) as HcG.
  { destruct (get_live_v2 (nowGet r) "B" cD (mkEntry "Banana" (nowB r + 60000) (nowB r)))
      as (_ & Hc & _); [done|by rewrite HcD|cbn; lia|].
    unfold cG. rewrite Hc, HcD. reflexivity. }
  assert (JSMap.wf (cache cG)) as HwfG by (rewrite HcG; explicit_wf).
  assert (cache (cleanupExpired (sweepE r) cG) = cache cG) as HsE.
  { apply TTLCacheCallsFacts.sweep_of_live; [done|]. rewrite HcG. each_entry. }
  set (cE := set (sweepE r) (nowE r) "E" "Elderberry" (Some 60000) cG).
  assert (config cE = newConfig) as HgE
    by (unfold cE; by rewrite TTLCacheCallsFacts.config_set_v2).
  destruct (TTLCacheCallsFacts.set_evicts_first_min (sweepE r) (nowE r) "E" "Elderberry"
              (Some 60000) cG
              [("B", mkEntry "Banana" (nowB r + 60000) (nowGet r))]
              "C" (mkEntry "Cherry" (nowC r + 60000) (nowC r))
              [("D", mkEntry "Date" (nowD r + 60000) (nowD r))])
    as [HcE HlogC].
  { done. }
  { by rewrite HsE, HcG. }
  { rewrite HsE, HcG, HgG. unfold newConfig, JSMap.size. cbn. lia. }
  { by rewrite HsE, HcG. }
  { each_entry. }
  { each_entry. }
  { done. }
  fold cE in HcE, HlogC. rewrite HgG in HcE. cbn in HcE.
  split_and!; [done| |  | done | done].
  - rewrite getAll_sort_v2, HcE. unfold JSArray.sort, JSArray.newest_first, stamp.
    cbn. repeat (first [rewrite decide_True by lia|rewrite decide_False by lia]; cbn).
    done.
  - unfold cE. apply TTLCacheCallsFacts.log_kept_by_set.
    unfold cG. by apply TTLCacheCallsFacts.log_kept_by_get.
Qed.

(** X24.  The "TTL scenario" button of the v2 demo, as the calls it makes on
    the engine it closes over: [clear], then [set] of temp1 with a ttl of two
    seconds, temp2 with four seconds and permanent with a minute.  On an engine
    with room for three entries, and with the third [set] made before temp1
    runs out, the engine ends with exactly these three entries.  From then on
    a [get] of temp1 returns [undefined] and removes it as soon as two seconds
    have passed since its [set], the other two staying; a [get] of temp2
    returns its value until four seconds after its own [set] and [undefined]
    from that reading on. *)
Theorem X24_ttl_scenario_expires_in_turn (r : ShortReadings) (engine : t) :
  3 ≤ maxSize (config engine) →
  in_time r →
  let final := runTTLScenario r engine in
  cache final
  = [("temp1", mkEntry "Expires in 2s" (now1 r + 2000) (now1 r));
     ("temp2", mkEntry "Expires in 4s" (now2 r + 4000) (now2 r));
     ("permanent", mkEntry "Lasts 1 minute" (now3 r + 60000) (now3 r))]
  ∧ (∀ t, now1 r + 2000 ≤ t →
       (get t "temp1" final).1 = None
       ∧ JSMap.keys (cache (get t "temp1" final).2) = ["temp2"; "permanent"]
       ∧ mkLog EXPIRED "Key expired and removed: temp1" ∈ logCallback (get t "temp1" final).2)
  ∧ (∀ t, t < now2 r + 4000 → (get t "temp2" final).1 = Some "Expires in 4s")
  ∧ (∀ t, now2 r + 4000 ≤ t → (get t "temp2" final).1 = None).
Proof.
  intros Hmax (H1 & H12 & H2 & H23 & H3 & Hshort).
  unfold runTTLScenario. cbn zeta.
  set (c0 := clear engine).
  assert (cache c0 = []) as Hc0 by (unfold c0, clear; by rewrite cache_saveToStorage_v2).
  assert (config c0 = config engine) as Hg0
    by (unfold c0, clear; by rewrite config_saveToStorage_v2).
  set (c1 := set (sweep1 r) (now1 r) "temp1" "Expires in 2s" (Some 2000) c0).
  assert (config c1 = config engine) as Hg1
    by (unfold c1; by rewrite TTLCacheCallsFacts.config_set_v2).
  assert (cache c1 = [("temp1", mkEntry "Expires in 2s" (now1 r + 2000) (now1 r))]) as Hc1.
  { unfold c1. rewrite TTLCacheCallsFacts.set_with_room; rewrite ?Hc0, ?Hg0; try done.
    - explicit_wf.
    - intros kv Hin. by apply elem_of_nil in Hin.
    - unfold JSMap.size. cbn. lia. }
  set (c2 := set (sweep2 r) (now2 r) "temp2" "Expires in 4s" (Some 4000) c1).
  assert (config c2 = config engine) as Hg2
    by (unfold c2; by rewrite TTLCacheCallsFacts.config_set_v2).
  assert (cache c2 = [("temp1", mkEntry "Expires in 2s" (now1 r + 2000) (now1 r));
                      ("temp2", mkEntry "Expires in 4s" (now2 r + 4000) (now2 r))]) as Hc2.
  { unfold c2. rewrite TTLCacheCallsFacts.set_with_room; rewrite ?Hc1, ?Hg1; try done.
    - explicit_wf.
    - each_entry.
    - unfold JSMap.size. cbn. lia. }
  set (c3 := set (sweep3 r) (now3 r) "permanent" "Lasts 1 minute" (Some 60000) c2).
  assert (cache c3 = [("temp1", mkEntry "Expires in 2s" (now1 r + 2000) (now1 r));
                      ("temp2", mkEntry "Expires in 4s" (now2 r + 4000) (now2 r));
                      ("permanent", mkEntry "Lasts 1 minute" (now3 r + 60000) (now3 r))])
    as Hc3.
  { unfold c3. rewrite TTLCacheCallsFacts.set_with_room; rewrite ?Hc2, ?Hg2; try done.
    - explicit_wf.
    - each_entry.
    - unfold JSMap.size. cbn. lia. }
  split_and!; [done| | |].
  - intros t Ht.
    destruct (get_expired_v2 t "temp1" c3 (mkEntry "Expires in 2s" (now1 r + 2000) (now1 r)))
      as (Hr & Hc & ev & Hlog); [by rewrite Hc3|cbn; lia|].
    split_and!; [done|by rewrite Hc, Hc3|].
    rewrite Hlog. apply elem_of_app. right. apply list_elem_of_here.
  - intros t Ht. apply get_returns_v2.
    exists (mkEntry "Expires in 4s" (now2 r + 4000) (now2 r)).
    split_and!; [by rewrite Hc3|done|cbn; lia].
  - intros t Ht.
    by destruct (get_expired_v2 t "temp2" c3 (mkEntry "Expires in 4s" (now2 r + 4000) (now2 r)))
      as (Hr & _); [by rewrite Hc3|cbn; lia|].
Qed.

End lru_scenario.

(** * A concrete platform, the scenarios of the specification, and the
      counterexamples *)
Module DemoPlatform.

Lemma pos_of_bits_of_pos p : Demo.pos_of_bits (Demo.bits_of_pos p) = Some p.
Proof.
  induction p as [p IH|p IH|]; simpl; [| |done].
  - rewrite IH. destruct (Demo.bits_of_pos p) eqn:E; [by destruct p|done].
  - rewrite IH. destruct (Demo.bits_of_pos p) eqn:E; [by destruct p|done].
Qed.

Lemma bits_of_pos_truthy p : Demo.bits_of_pos p ≠ EmptyString.
Proof. by destruct p. Qed.

Lemma parse_text_of {Entry} `{Countable Entry} (items : list (Item Entry)) :
  Demo.parse (Demo.text_of items) = Returns items.
Proof. unfold Demo.parse, Demo.text_of. by rewrite pos_of_bits_of_pos, decode_encode. Qed.

Lemma parse_stringify {Entry} `{Countable Entry} (data : list (string * Entry)) :
  Demo.parse (Demo.stringify data) = Returns (Pair <$> data).
Proof. apply parse_text_of. Qed.

#[export] Instance json {Entry} `{Countable Entry} : JSON Entry :=
  {| JSON_stringify := Demo.stringify;
     JSON_parse := Demo.parse;
     JSON_parse_stringify := parse_stringify;
     JSON_stringify_truthy := λ data, bits_of_pos_truthy (encode (Pair <$> data)) |}.

Lemma memory_getItem_setItem (s : gmap string string) (k v : string) (s' : gmap string string) :
  Returns (<[k:=v]> s) = Returns s' → s' !! k = Some v.
Proof. intros [= <-]. apply lookup_insert_eq. Qed.

#[export] Instance memory : LocalStorage :=
  {| Storage := gmap string string;
     getItem := λ s k, s !! k;
     setItem := λ s k v, Returns (<[k:=v]> s);
     getItem_setItem := memory_getItem_setItem |}.

#[export] Instance v3_entry_eq_dec : EqDecision TTLLRUCache.CacheEntry.
Proof. solve_decision. Defined.

#[export] Instance v3_entry_countable : Countable TTLLRUCache.CacheEntry :=
  inj_countable' (λ e, (TTLLRUCache.value e, TTLLRUCache.expiresAt e))
                 (λ p, TTLLRUCache.mkEntry p.1 p.2)
                 (λ e, match e with TTLLRUCache.mkEntry _ _ => eq_refl end).

#[export] Instance v2_entry_eq_dec : EqDecision TTLCache.CacheEntry.
Proof. solve_decision. Defined.

#[export] Instance v2_entry_countable : Countable TTLCache.CacheEntry :=
  inj_countable' (λ e, (TTLCache.value e, TTLCache.expiresAt e, TTLCache.lastAccessAt e))
                 (λ p, TTLCache.mkEntry p.1.1 p.1.2 p.2)
                 (λ e, match e with TTLCache.mkEntry _ _ _ => eq_refl end).

End DemoPlatform.

Import DemoPlatform.

Module Scenarios.
Import TTLLRUCache.

Definition empty_browser : Browser := mkBrowser (∅ : gmap string string) [].

Definition cfg (size : Z) : CacheConfig := mkConfig size 10000 "ttl-lru-cache".

(** 1. [set("a","1")] then [get("a")] returns ["1"]. *)
Example scenario_set_get :
  (get 1 1 "a" (set 0 0 "a" "1" None (new 0 (cfg 5) empty_browser))).1 = Some "1".
Proof. vm_compute. reflexivity. Qed.

(** 2. An overwrite keeps one entry and the second value. *)
Example scenario_overwrite :
  let st := set 1 1 "a" "2" None (set 0 0 "a" "1" None (new 0 (cfg 5) empty_browser)) in
  (get 2 2 "a" st).1 = Some "2" ∧ (getSize 2 st).1 = 1.
Proof. vm_compute. split; reflexivity. Qed.

(** 3. With [maxSize = 3]: A, B, C, a [get] of A, then D evicts B. *)
Example scenario_get_protects :
  let st := set 1 1 "C" "3" None
              (set 1 1 "B" "2" None (set 1 1 "A" "1" None (new 0 (cfg 3) empty_browser))) in
  getKeys (set 3 3 "D" "4" None (get 2 2 "A" st).2) = ["D"; "A"; "C"].
Proof. vm_compute. reflexivity. Qed.

(** 4. An entry read after its ttl is absent, and the size is then 0. *)
Example scenario_expired_get :
  let r := get 2000 2000 "a" (set 0 0 "a" "1" (Some 1000) (new 0 (cfg 5) empty_browser)) in
  r.1 = None ∧ (getSize 2000 r.2).1 = 0.
Proof. vm_compute. split; reflexivity. Qed.

(** 5. A [set] sweeps the expired entries first. *)
Example scenario_set_sweeps :
  let st := set 0 0 "a" "1" (Some 1000) (new 0 (cfg 5) empty_browser) in
  getKeys (set 2000 2000 "b" "2" None st) = ["b"].
Proof. vm_compute. reflexivity. Qed.

(** 6. A store holding text that [JSON.parse] rejects: the engine starts
    empty with one [parse-error]. *)
Example scenario_corrupt_store :
  let st := new 0 (cfg 5) (mkBrowser ({["ttl-lru-cache" := "not valid json"]} : gmap string string) []) in
  (getSize 0 st).1 = 0 ∧ type <$> onLog st = [PARSE_ERROR].
Proof. vm_compute. split; reflexivity. Qed.

End Scenarios.

Module Counterexamples.
Import Scenarios.

(** Uniqueness of keys of a concrete [Map], by evaluation. *)
Ltac wf_by_evaluation :=
  unfold JSMap.wf; refine (bool_decide_unpack _ _); vm_compute; exact I.

(** Three entries written on a v2 engine within one clock reading. *)
Definition v2_same_reading (size : Z) : TTLCache.t :=
  TTLCache.set 5 5 "c" "3" None
    (TTLCache.set 5 5 "b" "2" None
       (TTLCache.set 5 5 "a" "1" None (TTLCache.new 0 (cfg size) empty_browser))).

(** Three entries written on a v3 engine that admits five. *)
Definition v3_three_of_five : TTLLRUCache.t :=
  TTLLRUCache.set 1 1 "c" "3" None
    (TTLLRUCache.set 1 1 "b" "2" None
       (TTLLRUCache.set 1 1 "a" "1" None (TTLLRUCache.new 0 (cfg 5) empty_browser))).

(** C1, as stated, fails: an engine rebuilt with [maxSize = 2] on a store
    that holds three live entries loads all three, and a [set] of a new key
    evicts one entry and returns with three; likewise a v2 engine whose
    [maxSize] was lowered by [updateConfig].  And when the stamps of a v2
    engine are equal, the entry its [set] evicts is the first of the [Map],
    here the one a [get] has just returned. *)
Lemma C1_set_returns_above_maxSize :
  let reloaded := TTLLRUCache.new 2 (cfg 2) (TTLLRUCache.browser v3_three_of_five) in
  let after := TTLLRUCache.set 3 3 "d" "4" None reloaded in
  let lowered := TTLCache.updateConfig (cfg 2) (v2_same_reading 5) in
  let after2 := TTLCache.set 6 6 "d" "4" None lowered in
  let used := TTLCache.get 5 "a" (v2_same_reading 3) in
  (JSMap.has "d" (TTLLRUCache.cache reloaded) = false
   ∧ TTLLRUCache.getKeys reloaded = ["c"; "b"; "a"]
   ∧ TTLLRUCache.getKeys after = ["d"; "c"; "b"]
   ∧ ¬ JSMap.size (TTLLRUCache.cache after) ≤ maxSize (TTLLRUCache.config after))
  ∧ (JSMap.keys (TTLCache.cache after2) = ["b"; "c"; "d"]
     ∧ ¬ JSMap.size (TTLCache.cache after2) ≤ maxSize (TTLCache.config after2))
  ∧ (used.1 = Some "1"
     ∧ JSMap.keys (TTLCache.cache (TTLCache.set 5 5 "d" "4" None used.2)) = ["b"; "c"; "d"]).
Proof. vm_compute. split_and!; try reflexivity; intros Hle; by apply Hle. Qed.

(** The two hypotheses of C1 that the specification's configuration and key
    types stand for.  With [maxSize = 0] the eviction branch of v3 finds no
    key: it names [undefined] and the cache grows.  In v2 an oldest key that is
    the empty string is falsy, so nothing is evicted and the cache grows. *)
Example v3_zero_maxSize_evicts_nothing :
  let st := TTLLRUCache.set 1 1 "a" "1" None (TTLLRUCache.new 0 (cfg 0) empty_browser) in
  TTLLRUCache.getKeys st = ["a"]
  ∧ TTLLRUCache.message <$> head (TTLLRUCache.onLog st)
    = Some ("Evicted LRU key " +:+ quoted "undefined" +:+ " to make room").
Proof. vm_compute. split; reflexivity. Qed.

Example v2_empty_key_is_never_evicted :
  let st := TTLCache.set 2 2 "b" "2" None
              (TTLCache.set 1 1 EmptyString "1" None (TTLCache.new 0 (cfg 2) empty_browser)) in
  JSMap.keys (TTLCache.cache (TTLCache.set 3 3 "c" "3" None st)) = [EmptyString; "b"; "c"].
Proof. vm_compute. reflexivity. Qed.

(** C2, as stated, fails on v2: a [get] that returns the value within the
    clock reading of the writes leaves its key behind an older one in
    [getAll]. *)
Lemma C2_hit_stays_behind_on_equal_stamps :
  let st := TTLCache.set 5 5 "b" "2" None
              (TTLCache.set 5 5 "a" "1" None (TTLCache.new 0 (cfg 5) empty_browser)) in
  let r := TTLCache.get 5 "b" st in
  r.1 = Some "2" ∧ (TTLCache.getAll r.2).*1 = ["a"; "b"].
Proof. vm_compute. split; reflexivity. Qed.

(** C3, as stated, fails on v2: of two [set]s within one clock reading the
    later one is not first in [getAll]. *)
Lemma C3_latest_set_not_first_on_equal_stamps :
  let st := TTLCache.set 5 5 "b" "2" None
              (TTLCache.set 5 5 "a" "1" None (TTLCache.new 0 (cfg 5) empty_browser)) in
  head (TTLCache.getAll st).*1 = Some "a" ∧ head (TTLCache.getAll st).*1 ≠ Some "b".
Proof. vm_compute. split; [reflexivity | discriminate]. Qed.

(** C4, as stated, fails on v2: [size()] counts an entry that expired and
    was not swept. *)
Lemma C4_size_counts_an_expired_entry :
  let st := TTLCache.set 0 0 "a" "1" (Some 1000) (TTLCache.new 0 (cfg 5) empty_browser) in
  TTLCache.size st = 1
  ∧ length (filter (λ kv, 2000 < TTLCache.expiresAt kv.2) (TTLCache.cache st)) = 0%nat.
Proof. vm_compute. split; reflexivity. Qed.

(** C5, as stated, fails on v1: with the ttl omitted the entry gets no
    expiry, so no default ttl describes when it stops being returned; an
    explicit ttl of [0] gives no expiry either; and an entry with an expiry is
    still returned at the reading that equals it. *)
Lemma C5_v1_entry_without_expiry :
  let written (ttlMs : option Z) :=
    default [] (CacheSystem.setCacheValue 5 1000 1000 "a" "1" ttlMs []).1 in
  (CacheSystem.expiry <$> JSMap.get "a" (written None)) = Some None
  ∧ ¬ (∃ defaultTTL : Z,
         ∀ t, (CacheSystem.getCacheValue t t "a" (written None)).1.1 = Some "1"
              ↔ t < 1000 + defaultTTL)
  ∧ (CacheSystem.expiry <$> JSMap.get "a" (written (Some 0))) = Some None
  ∧ (CacheSystem.getCacheValue 1000 1000 "a" (written (Some 0))).1.1 = Some "1"
  ∧ (CacheSystem.expiry <$> JSMap.get "a" (written (Some 500))) = Some (Some 1500)
  ∧ (CacheSystem.getCacheValue 1500 1500 "a" (written (Some 500))).1.1 = Some "1".
Proof.
  split_and!; try (vm_compute; reflexivity).
  intros [defaultTTL Hiff].
  assert ((CacheSystem.getCacheValue (1000 + defaultTTL) (1000 + defaultTTL) "a"
             (default [] (CacheSystem.setCacheValue 5 1000 1000 "a" "1" None []).1)).1.1
          = Some "1") as Hreturned by (vm_compute; reflexivity).
  apply Hiff in Hreturned. lia.
Qed.

(** C8, as stated, fails on v2: [has] reports a key whose entry has
    expired. *)
Lemma C8_has_reports_an_expired_key :
  let st := TTLCache.set 0 0 "a" "1" (Some 1000) (TTLCache.new 0 (cfg 5) empty_browser) in
  TTLCache.has "a" st = true
  ∧ ¬ (∃ e, JSMap.get "a" (TTLCache.cache st) = Some e ∧ 2000 < TTLCache.expiresAt e)
  ∧ (TTLCache.get 2000 "a" st).1 = None.
Proof.
  split_and!; [vm_compute; reflexivity| |vm_compute; reflexivity].
  intros (e & Hg & Hlive). vm_compute in Hg. injection Hg as <-. vm_compute in Hlive. done.
Qed.

(** C9, as stated, fails on v2: [delete] returns the same value whether or
    not it removed an entry. *)
Lemma C9_v2_delete_returns_no_verdict :
  let st := TTLCache.set 0 0 "a" "1" None (TTLCache.new 0 (cfg 5) empty_browser) in
  (TTLCache.delete "a" st).1 = (TTLCache.delete "b" st).1
  ∧ JSMap.keys (TTLCache.cache st) = ["a"]
  ∧ JSMap.keys (TTLCache.cache (TTLCache.delete "a" st).2) = []
  ∧ JSMap.keys (TTLCache.cache (TTLCache.delete "b" st).2) = ["a"].
Proof. vm_compute. split_and!; reflexivity. Qed.

(** Stored texts that parse and are no snapshot, one for each engine: an
    entry for ["a"] that lasts until 2000, then an element that is no pair, as
    in [[["a",{...}],5]]. *)
Definition half_snapshot_v3 : string :=
  Demo.text_of [Pair ("a", TTLLRUCache.mkEntry "1" 2000);
                Unreadable "TypeError: 5 is not iterable"].

Definition half_snapshot_v2 : string :=
  Demo.text_of [Pair ("a", TTLCache.mkEntry "1" 2000 500);
                Unreadable "TypeError: 5 is not iterable"].

Definition browser_with (text : string) : Browser :=
  mkBrowser ({["ttl-lru-cache" := text]} : gmap string string) [].

(** On such a text v3 reports the failed parse and is not empty: [getSize]
    is 1 and a [get] returns the stored value.  v2 starts empty. *)
Example v3_reports_a_parse_error_and_serves_the_entry :
  let st3 := TTLLRUCache.new 1000 (cfg 5) (browser_with half_snapshot_v3) in
  let st2 := TTLCache.new 1000 (cfg 5) (browser_with half_snapshot_v2) in
  TTLLRUCache.type <$> TTLLRUCache.onLog st3 = [TTLLRUCache.PARSE_ERROR]
  ∧ (TTLLRUCache.getSize 1000 st3).1 = 1
  ∧ (TTLLRUCache.get 1000 1000 "a" st3).1 = Some "1"
  ∧ TTLCache.type <$> TTLCache.logCallback st2 = [TTLCache.PARSE_ERROR]
  ∧ TTLCache.size st2 = 0
  ∧ (TTLCache.get 1000 "a" st2).1 = None.
Proof. vm_compute. split_and!; reflexivity. Qed.

End Counterexamples.

Module Witnesses.
Import Scenarios Counterexamples.

(** A v3 engine filled to its [maxSize] of three, and a v2 engine filled to
    three at three different clock readings. *)
Definition v3_full : TTLLRUCache.t :=
  TTLLRUCache.set 1 1 "C" "3" None
    (TTLLRUCache.set 1 1 "B" "2" None
       (TTLLRUCache.set 1 1 "A" "1" None (TTLLRUCache.new 0 (cfg 3) empty_browser))).

Definition v2_full : TTLCache.t :=
  TTLCache.set 3 3 "C" "3" None
    (TTLCache.set 2 2 "B" "2" None
       (TTLCache.set 1 1 "A" "1" None (TTLCache.new 0 (cfg 3) empty_browser))).

(** A v3 engine with a short-lived and a long-lived entry. *)
Definition v3_two_ttls : TTLLRUCache.t :=
  TTLLRUCache.set 1 1 "b" "2" (Some 5000)
    (TTLLRUCache.set 0 0 "a" "1" (Some 1000) (TTLLRUCache.new 0 (cfg 5) empty_browser)).

Lemma C1_witness :
  JSMap.size (TTLLRUCache.cache (TTLLRUCache.set 5 5 "D" "4" None v3_full)) ≤ 3
  ∧ JSMap.size (TTLCache.cache (TTLCache.set 5 5 "D" "4" None v2_full)) ≤ 3.
Proof.
  assert (JSMap.wf (TTLLRUCache.cache v3_full)) as Hwf3 by wf_by_evaluation.
  assert (JSMap.wf (TTLCache.cache v2_full)) as Hwf2 by wf_by_evaluation.
  assert (1 ≤ maxSize (TTLLRUCache.config v3_full)) as Hmax3 by (vm_compute; discriminate).
  assert (1 ≤ maxSize (TTLCache.config v2_full)) as Hmax2 by (vm_compute; discriminate).
  assert (JSMap.has EmptyString (TTLCache.cache v2_full) = false) as Hempty
    by (vm_compute; reflexivity).
  destruct (C1_set_evicts_one_and_keeps_bound 5 5 "D" "4" None v3_full v2_full
              Hwf3 Hmax3 Hwf2 Hmax2 Hempty) as [[_ Hb3] [_ Hb2]].
  split; [apply Hb3 | apply Hb2]; vm_compute; discriminate.
Defined.

Lemma C2_witness :
  (TTLLRUCache.get 2 2 "A" v3_full).1 = Some "1"
  ∧ (TTLCache.get 4 "A" v2_full).1 = Some "1".
Proof.
  assert (JSMap.wf (TTLLRUCache.cache v3_full)) as Hwf3 by wf_by_evaluation.
  assert (JSMap.wf (TTLCache.cache v2_full)) as Hwf2 by wf_by_evaluation.
  assert (2 ≤ 4) as Hle by lia.
  destruct (C2_get_live_value_or_absent 2 4 "A" v3_full v2_full Hwf3 Hwf2 Hle)
    as [_ (Hiff2 & _)].
  assert (2 ≤ 2) as Hle' by lia.
  destruct (C2_get_live_value_or_absent 2 2 "A" v3_full v2_full Hwf3 Hwf2 Hle')
    as [(Hiff3 & _) _].
  split.
  - apply Hiff3. eexists. split_and!; [vm_compute; reflexivity | reflexivity | vm_compute; reflexivity].
  - apply Hiff2. eexists. split_and!; [vm_compute; reflexivity | reflexivity | vm_compute; reflexivity].
Defined.

Lemma C3_witness :
  NoDup (TTLLRUCache.getKeys
           (Recency.run [Recency.CallSet 1 1 "A" "1" None; Recency.CallGet 2 2 "A"]
                        (TTLLRUCache.new 0 (cfg 3) empty_browser)))
  ∧ TTLCache.getAll v2_full ≡ₚ TTLCache.cache v2_full.
Proof.
  assert (JSMap.wf (TTLCache.cache v2_full)) as Hwf2 by wf_by_evaluation.
  destruct (C3_order_replays_the_uses 0 (cfg 3) empty_browser
              [Recency.CallSet 1 1 "A" "1" None; Recency.CallGet 2 2 "A"]
              (Recency.CallGet 3 3 "A") 3 3 3 "D" "4" None v2_full Hwf2)
    as [(Hnd & _) (Hperm & _)].
  split; [exact Hnd | exact Hperm].
Defined.

Lemma C4_witness :
  (TTLLRUCache.getSize 2000 v3_two_ttls).1 = 1.
Proof.
  assert (JSMap.wf (TTLLRUCache.cache v3_two_ttls)) as Hwf3 by wf_by_evaluation.
  destruct (C4_size_of_live_entries 2000 v3_two_ttls v2_full Hwf3) as [[-> _] _].
  vm_compute. reflexivity.
Defined.

Lemma C5_witness :
  JSMap.get "k" (TTLLRUCache.cache (TTLLRUCache.set 7 7 "k" "v" (Some 0) v3_full))
  = Some (TTLLRUCache.mkEntry "v" 7)
  ∧ (TTLLRUCache.get 7 7 "k" (TTLLRUCache.set 7 7 "k" "v" (Some 0) v3_full)).1 ≠ Some "v".
Proof.
  assert (JSMap.wf (TTLLRUCache.cache v3_full)) as Hwf3 by wf_by_evaluation.
  assert (7 ≤ 7) as Hle by lia.
  assert ("k" ≠ EmptyString) as Hkey by discriminate.
  destruct (C5_expiry_from_ttl 7 7 7 7 7 "k" "v" (Some 0) v3_full v2_full 5 []
              Hwf3 Hle Hkey) as [[Hentry Hiff] _].
  split; [exact Hentry|]. intros Hret. apply Hiff in Hret. vm_compute in Hret. discriminate.
Defined.

Lemma C6_witness :
  let st3 := TTLLRUCache.new 1000 (cfg 5) (browser_with half_snapshot_v3) in
  let st2 := TTLCache.new 1000 (cfg 5) (browser_with half_snapshot_v2) in
  TTLLRUCache.onLog st3
  = [TTLLRUCache.mkLog TTLLRUCache.PARSE_ERROR
       "Failed to parse localStorage: TypeError: 5 is not iterable"]
  ∧ TTLLRUCache.cache st3 = [("a", TTLLRUCache.mkEntry "1" 2000)]
  ∧ TTLCache.cache st2 = [].
Proof.
  assert (half_snapshot_v3 ≠ EmptyString) as Hne3 by (vm_compute; discriminate).
  assert (half_snapshot_v2 ≠ EmptyString) as Hne2 by (vm_compute; discriminate).
  assert (JSON_parse half_snapshot_v3
          = Returns [Pair ("a", TTLLRUCache.mkEntry "1" 2000);
                     Unreadable "TypeError: 5 is not iterable"]) as Hp3
    by apply DemoPlatform.parse_text_of.
  assert (JSON_parse half_snapshot_v2
          = Returns [Pair ("a", TTLCache.mkEntry "1" 2000 500);
                     Unreadable "TypeError: 5 is not iterable"]) as Hp2
    by apply DemoPlatform.parse_text_of.
  destruct (C6_failed_load_leaves_entries_in_v3 1000 (cfg 5)
              (browser_with half_snapshot_v3) (browser_with half_snapshot_v2)
              half_snapshot_v3 half_snapshot_v2
              [Pair ("a", TTLLRUCache.mkEntry "1" 2000);
               Unreadable "TypeError: 5 is not iterable"]
              [Pair ("a", TTLCache.mkEntry "1" 2000 500);
               Unreadable "TypeError: 5 is not iterable"]
              "TypeError: 5 is not iterable" "TypeError: 5 is not iterable"
              eq_refl Hne3 Hp3 eq_refl eq_refl Hne2 Hp2 eq_refl)
    as (Hlog & Hcache & _ & _ & Hempty).
  split_and!; [exact Hlog| |exact Hempty].
  rewrite Hcache. vm_compute. reflexivity.
Defined.

Lemma C7_witness :
  let fresh := TTLLRUCache.new 2000 (cfg 9)
                 (TTLLRUCache.browser (TTLLRUCache.saveToStorage v3_two_ttls)) in
  JSMap.get "b" (TTLLRUCache.cache fresh) = Some (TTLLRUCache.mkEntry "2" 5001)
  ∧ JSMap.get "a" (TTLLRUCache.cache fresh) ≠ Some (TTLLRUCache.mkEntry "1" 1000).
Proof.
  assert (JSMap.wf (TTLLRUCache.cache v3_two_ttls)) as Hwf3 by wf_by_evaluation.
  assert (1 ≤ 2000) as Hle by lia.
  pose proof (C7_save_then_load_keeps_live_entries 1 2000 v3_two_ttls (cfg 9) _
                Hwf3 eq_refl eq_refl Hle) as Hiff.
  split.
  - apply Hiff. split_and!; [vm_compute; reflexivity | vm_compute; reflexivity |].
    vm_compute. intros Hc. by apply Hc.
  - intros Hg. apply Hiff in Hg as [_ Hn]. apply Hn. vm_compute. discriminate.
Defined.

Lemma C8_witness :
  (TTLLRUCache.has 2000 "a" v3_two_ttls).1 ≠ true
  ∧ (TTLLRUCache.has 2000 "b" v3_two_ttls).1 = true.
Proof.
  assert (JSMap.wf (TTLLRUCache.cache v3_two_ttls)) as Hwf3 by wf_by_evaluation.
  destruct (C8_has_reports_without_use 2000 "a" v3_two_ttls v2_full Hwf3) as [(Ha & _) _].
  destruct (C8_has_reports_without_use 2000 "b" v3_two_ttls v2_full Hwf3) as [(Hb & _) _].
  split.
  - intros Hhas. apply Ha in Hhas as (e & Hg & Hlive).
    vm_compute in Hg. injection Hg as <-. vm_compute in Hlive. discriminate.
  - apply Hb. eexists. split; [vm_compute; reflexivity | vm_compute; reflexivity].
Defined.

Lemma C10_witness :
  TTLLRUCache.getKeys
    (TTLLRUCache.new 2 (cfg 9) (TTLLRUCache.browser (TTLLRUCache.saveToStorage v3_full)))
  = ["C"; "B"; "A"].
Proof.
  assert (JSMap.wf (TTLLRUCache.cache v3_full)) as Hwf3 by wf_by_evaluation.
  assert (∀ k e, (k, e) ∈ TTLLRUCache.cache v3_full → 2 < TTLLRUCache.expiresAt e) as Hlive.
  { intros k e Hin. vm_compute in Hin.
    repeat (apply elem_of_cons in Hin as [Heq|Hin];
            [injection Heq as -> ->; vm_compute; reflexivity|]).
    by apply elem_of_nil in Hin. }
  destruct (C10_reload_keeps_recency_order 2 v3_full (cfg 9) _ Hwf3 eq_refl eq_refl Hlive)
    as (_ & _ & _ & -> & _).
  vm_compute. reflexivity.
Defined.

End Witnesses.


(** * The further properties on concrete engines *)
Module Instances.
Import Scenarios Counterexamples Witnesses.

(** A v2 engine with a short-lived and a long-lived entry. *)
Definition v2_two_ttls : TTLCache.t :=
  TTLCache.set 1 1 "b" "2" (Some 5000)
    (TTLCache.set 0 0 "a" "1" (Some 1000) (TTLCache.new 0 (cfg 5) empty_browser)).

(** Engines with room for one entry, holding one. *)
Definition v3_single : TTLLRUCache.t :=
  TTLLRUCache.set 1 1 "a" "1" None (TTLLRUCache.new 0 (cfg 1) empty_browser).

Definition v2_single : TTLCache.t :=
  TTLCache.set 1 1 "a" "1" None (TTLCache.new 0 (cfg 1) empty_browser).

(** A [Map] of v1 with two entries written at the readings 1 and 2. *)
Definition v1_two : list (string * CacheSystem.CacheEntry) :=
  [("a", CacheSystem.mkEntry "1" None 1); ("b", CacheSystem.mkEntry "2" None 2)].

Lemma X2_witness :
  JSMap.keys (TTLLRUCache.cache (TTLLRUCache.cleanupExpired 2000 v3_two_ttls)) = ["b"]
  ∧ JSMap.keys (TTLCache.cache (TTLCache.cleanupExpired 2000 v2_two_ttls)) = ["b"].
Proof.
  assert (JSMap.wf (TTLLRUCache.cache v3_two_ttls)) as Hwf3 by wf_by_evaluation.
  assert (JSMap.wf (TTLCache.cache v2_two_ttls)) as Hwf2 by wf_by_evaluation.
  destruct (X2_sweep_removes_exactly_the_expired 2000 v3_two_ttls v2_two_ttls Hwf3 Hwf2)
    as [(-> & _) (-> & _)].
  split; vm_compute; reflexivity.
Defined.

Lemma X3_witness :
  JSMap.get "D" (TTLLRUCache.cache (TTLLRUCache.set 5 5 "D" "4" None v3_full))
  = Some (TTLLRUCache.mkEntry "4" 10005)
  ∧ JSMap.get "D" (TTLCache.cache (TTLCache.set 5 5 "D" "4" (Some 7) v2_full))
    = Some (TTLCache.mkEntry "4" 12 5).
Proof.
  assert (JSMap.wf (TTLLRUCache.cache v3_full)) as Hwf3 by wf_by_evaluation.
  destruct (X3_set_writes_the_snapshot 5 5 "D" "4" None v3_full v2_full Hwf3)
    as [(_ & Hget3 & _) _].
  destruct (X3_set_writes_the_snapshot 5 5 "D" "4" (Some 7) v3_full v2_full Hwf3)
    as [_ (_ & Hget2 & _)].
  split; [exact Hget3 | exact Hget2].
Defined.

Lemma X4_witness :
  head (TTLLRUCache.getKeys (TTLLRUCache.get 2 2 "A" v3_full).2) = Some "A"
  ∧ TTLLRUCache.getKeys
      (TTLLRUCache.new 3 (cfg 3) (TTLLRUCache.browser (TTLLRUCache.get 2 2 "A" v3_full).2))
    = TTLLRUCache.getKeys v3_full.
Proof.
  assert (JSMap.wf (TTLLRUCache.cache v3_full)) as Hwf3 by wf_by_evaluation.
  assert (2 ≤ 2) as Hle by lia.
  assert (TTLLRUCache.stored (cfg 3) (TTLLRUCache.browser v3_full)
          = Some (JSON_stringify (TTLLRUCache.cache v3_full))) as Hst
    by (vm_compute; reflexivity).
  assert (∀ k e, (k, e) ∈ TTLLRUCache.cache v3_full → 3 < TTLLRUCache.expiresAt e) as Hlive.
  { intros k e Hin. vm_compute in Hin.
    repeat (apply elem_of_cons in Hin as [Heq|Hin];
            [injection Heq as -> ->; vm_compute; reflexivity|]).
    by apply elem_of_nil in Hin. }
  destruct (X4_reads_make_no_store_call 2 2 3 "A" v3_full (cfg 3) Hwf3 Hle Hst Hlive)
    as (_ & _ & _ & _ & Hhead & Hkeys).
  split; [|exact Hkeys]. apply Hhead. vm_compute. discriminate.
Defined.

Lemma X5_witness :
  JSMap.get "A" (TTLCache.cache (TTLCache.get 4 "A" v2_full).2)
  = Some (TTLCache.mkEntry "1" 10001 4)
  ∧ JSMap.get "A"
      (TTLCache.cache
         (TTLCache.new 5 (cfg 3) (TTLCache.browser (TTLCache.get 4 "A" v2_full).2)))
    = Some (TTLCache.mkEntry "1" 10001 1).
Proof.
  assert (JSMap.wf (TTLCache.cache v2_full)) as Hwf2 by wf_by_evaluation.
  assert (TTLCache.stored (cfg 3) (TTLCache.browser v2_full)
          = Some (JSON_stringify (TTLCache.cache v2_full))) as Hst
    by (vm_compute; reflexivity).
  pose proof (X5_get_saves_removals_only 4 5 "A" v2_full (cfg 3) Hwf2 Hst) as Hx.
  cbn zeta in Hx.
  assert (JSMap.get "A" (TTLCache.cache v2_full) = Some (TTLCache.mkEntry "1" 10001 1)) as Hg
    by (vm_compute; reflexivity).
  rewrite Hg in Hx. rewrite decide_True in Hx by (vm_compute; reflexivity).
  destruct Hx as (_ & Hstamp & Hreload).
  split; [exact Hstamp|]. apply Hreload. vm_compute. reflexivity.
Defined.

Lemma X7_witness :
  TTLLRUCache.expired_event "a"
  ∈ (TTLLRUCache.expired_event
       <$> (filter (λ kv, TTLLRUCache.expiresAt kv.2 ≤ 2000)
                   (TTLLRUCache.cache v3_two_ttls)).*1).
Proof.
  assert (JSMap.wf (TTLLRUCache.cache v3_two_ttls)) as Hwf3 by wf_by_evaluation.
  destruct (X7_get_emits_sweep_then_one_event 2000 2000 "a" v3_two_ttls Hwf3) as [_ Hin].
  apply (Hin (TTLLRUCache.mkEntry "1" 1000)); vm_compute; [reflexivity|discriminate].
Defined.

Lemma X8_witness :
  length (TTLLRUCache.cache (TTLLRUCache.set 5 5 "A" "9" None v3_full)) = 3%nat
  ∧ JSMap.keys (TTLCache.cache (TTLCache.set 5 5 "A" "9" None v2_full)) = ["A"; "B"; "C"].
Proof.
  assert (JSMap.wf (TTLLRUCache.cache v3_full)) as Hwf3 by wf_by_evaluation.
  assert (JSMap.wf (TTLCache.cache v2_full)) as Hwf2 by wf_by_evaluation.
  assert (JSMap.get "A" (TTLLRUCache.cache v3_full) = Some (TTLLRUCache.mkEntry "1" 10001))
    as Hg3 by (vm_compute; reflexivity).
  assert (JSMap.get "A" (TTLCache.cache v2_full) = Some (TTLCache.mkEntry "1" 10001 1))
    as Hg2 by (vm_compute; reflexivity).
  assert (5 < TTLLRUCache.expiresAt (TTLLRUCache.mkEntry "1" 10001)) as Hl3
    by (vm_compute; reflexivity).
  assert (5 < TTLCache.expiresAt (TTLCache.mkEntry "1" 10001 1)) as Hl2
    by (vm_compute; reflexivity).
  assert (JSMap.size (TTLLRUCache.cache v3_full) ≤ maxSize (TTLLRUCache.config v3_full))
    as Hsize by (vm_compute; discriminate).
  destruct (X8_overwrite_evicts_nothing 5 5 "A" "9" None v3_full v2_full _ _
              Hwf3 Hwf2 Hg3 Hl3 Hg2 Hl2 Hsize) as [(_ & -> & _) (_ & -> & _)].
  split; vm_compute; reflexivity.
Defined.

Lemma X9_witness :
  TTLLRUCache.cache (TTLLRUCache.set 2 2 "b" "2" None v3_single)
  = [("b", TTLLRUCache.mkEntry "2" 10002)]
  ∧ TTLCache.cache (TTLCache.set 2 2 "b" "2" None v2_single)
    = [("b", TTLCache.mkEntry "2" 10002 2)].
Proof.
  assert (JSMap.wf (TTLLRUCache.cache v3_single)) as Hwf3 by wf_by_evaluation.
  assert (JSMap.wf (TTLCache.cache v2_single)) as Hwf2 by wf_by_evaluation.
  assert (JSMap.has EmptyString (TTLCache.cache v2_single) = false) as Hempty
    by (vm_compute; reflexivity).
  destruct (X9_maxSize_of_one_or_less 2 2 "b" "2" None v3_single v2_single Hwf3 Hwf2 Hempty)
    as [[H3 _] H2].
  split; [apply H3|apply H2]; vm_compute; discriminate.
Defined.

Lemma X10_witness :
  JSMap.size
    (TTLLRUCache.cache
       (Recency.run [Recency.CallSet 1 1 "A" "1" None; Recency.CallSet 2 2 "B" "2" None;
                     Recency.CallSet 3 3 "C" "3" None; Recency.CallSet 4 4 "D" "4" None;
                     Recency.CallGet 5 5 "A"]
                    (TTLLRUCache.new 0 (cfg 3) empty_browser))) ≤ 3.
Proof.
  assert (1 ≤ maxSize (cfg 3)) as Hmax by (vm_compute; discriminate).
  assert (JSMap.size (TTLLRUCache.cache (TTLLRUCache.new 0 (cfg 3) empty_browser))
          ≤ maxSize (cfg 3)) as Hsize by (vm_compute; discriminate).
  destruct (X10_bound_holds_along_every_run 0 6 (cfg 3) empty_browser
              [Recency.CallSet 1 1 "A" "1" None; Recency.CallSet 2 2 "B" "2" None;
               Recency.CallSet 3 3 "C" "3" None; Recency.CallSet 4 4 "D" "4" None;
               Recency.CallGet 5 5 "A"] Hmax Hsize) as (Hbound & _).
  exact Hbound.
Defined.

Lemma X11_witness :
  TTLCacheCalls.order
    (TTLCacheCalls.run [TTLCacheCalls.CallSet 1 1 "A" "1" None;
                        TTLCacheCalls.CallSet 2 2 "B" "2" None;
                        TTLCacheCalls.CallGet 3 "A"]
                       (TTLCache.new 0 (cfg 3) empty_browser))
  = ["A"; "B"].
Proof.
  assert (JSMap.wf (TTLCache.cache (TTLCache.new 0 (cfg 3) empty_browser))) as Hwf
    by wf_by_evaluation.
  assert (TTLCacheCalls.ticking [TTLCacheCalls.CallSet 1 1 "A" "1" None;
                                 TTLCacheCalls.CallSet 2 2 "B" "2" None;
                                 TTLCacheCalls.CallGet 3 "A"]
                                (TTLCache.new 0 (cfg 3) empty_browser)) as Htick.
  { cbn [TTLCacheCalls.ticking TTLCacheCalls.reading]. unfold TTLCacheCalls.ahead.
    refine (bool_decide_unpack _ _). vm_compute. exact I. }
  destruct (X11_sorted_view_replays_the_uses _ _ Hwf Htick) as (-> & _).
  vm_compute. reflexivity.
Defined.

Lemma X12_witness :
  TTLCache.find_lru (TTLCache.cache (TTLCache.cleanupExpired 6 (v2_same_reading 3)))
  = Some "a"
  ∧ JSMap.keys (TTLCache.cache (TTLCache.set 6 6 "d" "4" None (v2_same_reading 3)))
    = ["b"; "c"; "d"].
Proof.
  assert (JSMap.wf (TTLCache.cache (v2_same_reading 3))) as Hwf by wf_by_evaluation.
  assert (JSMap.has "d" (TTLCache.cache (TTLCache.cleanupExpired 6 (v2_same_reading 3)))
          = false) as Hnew by (vm_compute; reflexivity).
  assert (JSMap.size (TTLCache.cache (TTLCache.cleanupExpired 6 (v2_same_reading 3)))
          >= maxSize (TTLCache.config (v2_same_reading 3))) as Hfull
    by (vm_compute; discriminate).
  destruct (X12_eviction_picks_the_first_oldest 6 6 "d" "4" None (v2_same_reading 3)
              Hwf Hnew Hfull) as [Hpick _].
  destruct (Hpick [] "a" (TTLCache.mkEntry "1" 10005 5)
              [("b", TTLCache.mkEntry "2" 10005 5); ("c", TTLCache.mkEntry "3" 10005 5)])
    as [Hlru Hset].
  - vm_compute. reflexivity.
  - by intros kv ?%elem_of_nil.
  - intros kv Hin.
    repeat (apply elem_of_cons in Hin as [->|Hin]; [vm_compute; discriminate|]).
    by apply elem_of_nil in Hin.
  - split; [exact Hlru|]. destruct Hset as [-> _]; [discriminate|]. vm_compute. reflexivity.
Defined.

Lemma X14_witness :
  JSMap.size
    (TTLCache.cache
       (TTLCacheCalls.run [TTLCacheCalls.CallSet 1 1 "A" "1" None;
                           TTLCacheCalls.CallSet 2 2 "B" "2" None;
                           TTLCacheCalls.CallSet 3 3 "C" "3" None;
                           TTLCacheCalls.CallSet 4 4 "D" "4" None]
                          (TTLCache.new 0 (cfg 3) empty_browser))) ≤ 3.
Proof.
  assert (JSMap.wf (TTLCache.cache (TTLCache.new 0 (cfg 3) empty_browser))) as Hwf
    by wf_by_evaluation.
  assert (1 ≤ maxSize (TTLCache.config (TTLCache.new 0 (cfg 3) empty_browser))) as Hmax
    by (vm_compute; discriminate).
  assert (JSMap.has EmptyString (TTLCache.cache (TTLCache.new 0 (cfg 3) empty_browser))
          = false) as Hempty by (vm_compute; reflexivity).
  assert (JSMap.size (TTLCache.cache (TTLCache.new 0 (cfg 3) empty_browser))
          ≤ maxSize (TTLCache.config (TTLCache.new 0 (cfg 3) empty_browser))) as Hsize
    by (vm_compute; discriminate).
  assert (TTLCacheCalls.keyed [TTLCacheCalls.CallSet 1 1 "A" "1" None;
                               TTLCacheCalls.CallSet 2 2 "B" "2" None;
                               TTLCacheCalls.CallSet 3 3 "C" "3" None;
                               TTLCacheCalls.CallSet 4 4 "D" "4" None]) as Hkeyed
    by (unfold TTLCacheCalls.keyed; repeat (apply Forall_cons; split; [discriminate|]);
        apply Forall_nil_2).
  destruct (X14_bound_holds_along_keyed_runs _ _ Hwf Hmax Hempty Hsize Hkeyed)
    as (Hbound & _).
  exact Hbound.
Defined.

Lemma X15_witness :
  CacheSystem.evictLRU
    [("a", CacheSystem.mkEntry "1" None 3); ("b", CacheSystem.mkEntry "2" None 1);
     ("c", CacheSystem.mkEntry "3" None 1)]
  = ([("a", CacheSystem.mkEntry "1" None 3); ("c", CacheSystem.mkEntry "3" None 1)],
     [CacheSystem.mkLog "EVICT" ("LRU evicted key: " +:+ "b") CacheSystem.warning]).
Proof.
  assert (JSMap.wf [("a", CacheSystem.mkEntry "1" None 3);
                    ("b", CacheSystem.mkEntry "2" None 1);
                    ("c", CacheSystem.mkEntry "3" None 1)]) as Hwf by wf_by_evaluation.
  destruct (X15_evictLRU_removes_the_first_oldest _ Hwf) as [Hpick _].
  apply (Hpick [("a", CacheSystem.mkEntry "1" None 3)] "b" (CacheSystem.mkEntry "2" None 1)
               [("c", CacheSystem.mkEntry "3" None 1)]).
  - reflexivity.
  - intros kv Hin. apply list_elem_of_singleton in Hin as ->. vm_compute. reflexivity.
  - intros kv Hin. apply list_elem_of_singleton in Hin as ->. vm_compute. discriminate.
  - discriminate.
Defined.

Lemma X16_witness :
  JSMap.size
    (CacheSystem.cache
       (CacheSystem.run 2
          [CacheSystem.CallSet 1 1 "a" "1" None; CacheSystem.CallSet 2 2 "b" "2" (Some 500);
           CacheSystem.CallSet 3 3 "c" "3" None; CacheSystem.CallGet 4 4 "a";
           CacheSystem.CallDelete EmptyString]
          CacheSystem.initial)) ≤ 2.
Proof.
  assert (1 ≤ 2) as Hmax by lia.
  assert (JSMap.wf (CacheSystem.cache CacheSystem.initial)) as Hwf by apply NoDup_nil_2.
  assert (JSMap.has EmptyString (CacheSystem.cache CacheSystem.initial) = false) as Hempty
    by reflexivity.
  assert (JSMap.size (CacheSystem.cache CacheSystem.initial) ≤ 2) as Hsize
    by (vm_compute; discriminate).
  assert (length (CacheSystem.logs CacheSystem.initial) ≤ 20)%nat as Hlogs by (simpl; lia).
  destruct (X16_component_keeps_the_cache_tidy 2
              [CacheSystem.CallSet 1 1 "a" "1" None;
               CacheSystem.CallSet 2 2 "b" "2" (Some 500);
               CacheSystem.CallSet 3 3 "c" "3" None; CacheSystem.CallGet 4 4 "a";
               CacheSystem.CallDelete EmptyString]
              CacheSystem.initial Hmax Hwf Hempty Hsize Hlogs) as ((_ & _ & Hbound & _) & _).
  exact Hbound.
Defined.

Lemma X17_witness :
  (CacheSystem.getCacheValue 5 5 "a" v1_two).1.1 = Some "1"
  ∧ ∃ gone, gone ≠ "a" ∧ JSMap.has gone v1_two = true.
Proof.
  assert (JSMap.wf v1_two) as Hwf by wf_by_evaluation.
  assert (JSMap.has EmptyString v1_two = false) as Hempty by reflexivity.
  assert (JSMap.get "a" v1_two = Some (CacheSystem.mkEntry "1" None 1)) as Hg by reflexivity.
  assert (∀ x, CacheSystem.expiry (CacheSystem.mkEntry "1" None 1) = Some x → 5 ≤ x)
    as Hlive by (intros x; discriminate).
  assert (JSMap.get "b" v1_two = Some (CacheSystem.mkEntry "2" None 2)) as Hg2 by reflexivity.
  assert ("b" ≠ "a") as Hne by discriminate.
  assert (CacheSystem.lastAccessed (CacheSystem.mkEntry "2" None 2) < 5) as Hold
    by (vm_compute; reflexivity).
  assert ("c" ≠ EmptyString) as Hk' by discriminate.
  assert (JSMap.has "c" v1_two = false) as Hnew by reflexivity.
  assert (JSMap.size v1_two >= 2) as Hfull by (vm_compute; discriminate).
  destruct (X17_a_read_key_survives_the_next_eviction 2 5 5 6 6 "a" "c" "3" None _ _ "b"
              v1_two Hwf Hempty Hg Hlive Hg2 Hne Hold Hk' Hnew Hfull)
    as (Hval & _ & _ & _ & gone & newCache & Hgone & Hres & _).
  split; [exact Hval|]. by exists gone.
Defined.

Lemma X18_witness :
  CacheSystem.deleteCacheValue "a" v1_two
  = (Some [("b", CacheSystem.mkEntry "2" None 2)],
     [CacheSystem.mkLog "DELETE" ("Removed key: " +:+ "a") CacheSystem.success]).
Proof.
  assert ("a" ≠ EmptyString) as Hk by discriminate.
  destruct (X18_deleteCacheValue_removes_or_reports 0 0 "a" v1_two Hk) as [Hdel _].
  assert (JSMap.has "a" v1_two = true) as Hhas by reflexivity.
  rewrite Hhas in Hdel. destruct Hdel as (-> & _). reflexivity.
Defined.

Lemma X20_witness :
  JSMap.get "b" (TTLLRUCache.cache (TTLLRUCache.get 2000 2000 "a" v3_two_ttls).2)
  = Some (TTLLRUCache.mkEntry "2" 5001)
  ∧ JSMap.get "b" (TTLCache.cache (TTLCache.get 2000 "a" v2_two_ttls).2)
    = Some (TTLCache.mkEntry "2" 5001 1).
Proof.
  assert (JSMap.wf (TTLLRUCache.cache v3_two_ttls)) as Hwf3 by wf_by_evaluation.
  assert ("b" ≠ "a") as Hne by discriminate.
  destruct (X20_get_leaves_the_other_keys 2000 2000 "a" "b" v3_two_ttls v2_two_ttls Hwf3 Hne)
    as (-> & _ & -> & _).
  split; vm_compute; reflexivity.
Defined.

Lemma X21_witness :
  ∃ e, TTLLRUCache.value e = "2"
       ∧ (("A", e) ∈ TTLLRUCache.cache (TTLLRUCache.new 0 (cfg 3) empty_browser)
          ∨ ("A", e)
            ∈ Writes.all_written
                [Recency.CallSet 1 1 "A" "1" None; Recency.CallSet 2 2 "A" "2" None]
                (TTLLRUCache.new 0 (cfg 3) empty_browser)).
Proof.
  assert (JSMap.wf (TTLLRUCache.cache (TTLLRUCache.new 0 (cfg 3) empty_browser))) as Hwf
    by wf_by_evaluation.
  assert (3 ≤ 3) as Hle by lia.
  destruct (X21_entries_are_loaded_or_written (TTLLRUCache.new 0 (cfg 3) empty_browser)
              [Recency.CallSet 1 1 "A" "1" None; Recency.CallSet 2 2 "A" "2" None]
              3 3 "A" Hwf Hle) as [_ Hval].
  apply Hval. vm_compute. reflexivity.
Defined.

(** The readings of a run of the scenario whose timers fire on time, on a
    clock that stood at 1000 when the button was pressed. *)
Definition on_time : TTLCacheDemo.Readings :=
  TTLCacheDemo.mkReadings 1100 1100 1400 1400 1700 1700 2000 2000 2300 2600 2600.

Lemma X23_witness :
  TTLCacheDemo.in_order on_time
  ∧ (TTLCache.getAll (TTLCacheDemo.runLRUScenario (cfg 5) on_time (v2_same_reading 3))).*1
    = ["E"; "B"; "D"].
Proof.
  assert (TTLCacheDemo.in_order on_time) as Hr
    by (unfold TTLCacheDemo.in_order; cbn; lia).
  split; [exact Hr|].
  exact (proj1 (proj2 (X23_lru_scenario_evicts_A_then_C (cfg 5) on_time
                         (v2_same_reading 3) Hr))).
Defined.

Definition short_on_time : TTLCacheDemo.ShortReadings :=
  TTLCacheDemo.mkShortReadings 1100 1100 1400 1400 1700 1700.

Lemma X24_witness :
  3 ≤ maxSize (TTLCache.config (v2_same_reading 3))
  ∧ TTLCacheDemo.in_time short_on_time
  ∧ (TTLCache.get 3100 "temp1"
       (TTLCacheDemo.runTTLScenario short_on_time (v2_same_reading 3))).1 = None
  ∧ (TTLCache.get 3100 "temp2"
       (TTLCacheDemo.runTTLScenario short_on_time (v2_same_reading 3))).1
    = Some "Expires in 4s".
Proof.
  assert (3 ≤ maxSize (TTLCache.config (v2_same_reading 3))) as Hmax
    by (vm_compute; discriminate).
  assert (TTLCacheDemo.in_time short_on_time) as Hr
    by (unfold TTLCacheDemo.in_time; cbn; lia).
  destruct (X24_ttl_scenario_expires_in_turn short_on_time (v2_same_reading 3) Hmax Hr)
    as (_ & Hone & Htwo & _).
  split_and!; [exact Hmax|exact Hr| |].
  - apply (Hone 3100). cbn. lia.
  - apply (Htwo 3100). cbn. lia.
Defined.

(** A store whose quota is used up: every write throws.  The [set] still puts
    its entry into the [Map] and reports the failure as a [parse-error]. *)
Definition full_store : LocalStorage :=
  {| Storage := gmap string string;
     getItem := λ s k, s !! k;
     setItem := λ _ _ _, Throws "QuotaExceededError";
     getItem_setItem := λ s k v s' (Hs : Throws "QuotaExceededError" = Returns s'),
       match Hs in _ = r return match r with Returns _ => _ | Throws _ => True end
       with eq_refl => I end |}.

Example set_on_a_full_store :
  let st := @TTLLRUCache.set full_store _ 1 1 "a" "1" None
              (@TTLLRUCache.new full_store _ 0 (cfg 5) (@mkBrowser full_store ∅ [])) in
  JSMap.keys (@TTLLRUCache.cache full_store st) = ["a"]
  ∧ TTLLRUCache.type <$> @TTLLRUCache.onLog full_store st
    = [TTLLRUCache.SET; TTLLRUCache.PARSE_ERROR]
  ∧ @localStorage full_store (@TTLLRUCache.browser full_store st) = ∅.
Proof. vm_compute. split_and!; reflexivity. Qed.

End Instances.
